(** * book2anki: the rate-limited acquisition and caching pipeline

  A shallow embedding of [core/utils.py] (AsyncRateLimiter),
  [scrape/oald.py] (Word) and [generate/anki.py] (MediaDownloader),
  with the properties of the specification stated over it.

  Conventions.
  - A Python [str] is a list of Unicode code points ([pystr]).
  - [time.monotonic()] is read as an integer number of clock ticks; the
    comparisons and subtractions of the source are those of [Z].
  - A coroutine runs without interruption between two [await]s that
    really suspend (asyncio's cooperative scheduling); the schedulers below
    interleave those uninterrupted segments.
  - Code that can raise returns a [result]. *)

From Stdlib Require Import ZArith NArith Lia List String Ascii Bool Sorted.
From stdpp Require Import base option list gmap.
Import ListNotations.
Local Open Scope Z_scope.

(** ** Python values shared by the three modules *)

Module Py.

(** The exception classes the sources raise or name in an [except]. *)
Inductive exn : Type :=
| ClientError          (* aiohttp.ClientError and its subclasses *)
| TimeoutError         (* asyncio.TimeoutError *)
| UnicodeDecodeError   (* response.text() on undecodable bytes *)
| AttributeError       (* attribute access on None *)
| IndexError           (* deque index out of range *)
| OSError              (* file system failures *)
| UnicodeEncodeError   (* str.encode() on a lone surrogate *)
| JSONDecodeError      (* json.loads on malformed text *)
| WordNotFound.        (* scrape.oald.WordNotFound *)

#[global] Instance exn_eq_dec : EqDecision exn.
Proof. solve_decision. Defined.

Definition exn_eqb (a b : exn) : bool :=
  match a, b with
  | ClientError, ClientError | TimeoutError, TimeoutError
  | UnicodeDecodeError, UnicodeDecodeError | AttributeError, AttributeError
  | IndexError, IndexError | OSError, OSError
  | UnicodeEncodeError, UnicodeEncodeError
  | JSONDecodeError, JSONDecodeError | WordNotFound, WordNotFound => true
  | _, _ => false
  end.

(** [except (aiohttp.ClientError, asyncio.TimeoutError)] *)
Definition is_network_error (e : exn) : bool :=
  match e with ClientError | TimeoutError => true | _ => false end.

Inductive result (A : Type) : Type :=
| Ok (a : A)
| Raise (e : exn).
Arguments Ok {A} a.
Arguments Raise {A} e.

Definition bind {A B} (r : result A) (k : A -> result B) : result B :=
  match r with Ok a => k a | Raise e => Raise e end.

Definition pystr : Type := list N.

(** An ASCII literal as a Python string. *)
Definition lit (s : string) : pystr :=
  List.map N_of_ascii (list_ascii_of_string s).

End Py.

Export Py.
Notation "'call' x <~ r ;; k" := (Py.bind r (fun x => k))
(at level 10, x name, r at level 99, k at level 200,
 format "'[v' 'call'  x  <~  r  ;;  '/' k ']'").

(** ** core/utils.py : AsyncRateLimiter *)

Module RateLimiter.

Record AsyncRateLimiter : Type := mkLimiter {
  max_calls : Z;
  period : Z;
  timestamps : list Z          (* the deque, oldest first *)
}.

(** [__init__]: three assignments, no check of the arguments. *)
Definition fresh (mc p : Z) : AsyncRateLimiter :=
  {| max_calls := mc; period := p; timestamps := [] |}.

Definition __init__ (mc p : Z) : result AsyncRateLimiter := Ok (fresh mc p).

(** [while self.timestamps and self.timestamps[0] <= now - self.period:
       self.timestamps.popleft()] *)
Fixpoint purge (now p : Z) (ts : list Z) : list Z :=
  match ts with
  | [] => []
  | t :: rest => if t <=? now - p then purge now p rest else ts
  end.

Inductive outcome : Type :=
| Proceed                    (* break, then append(now) *)
| Sleep (sleep_time : Z)      (* await asyncio.sleep(sleep_time) *)
| Fails (e : exn).            (* timestamps[0] on an empty deque *)

(** One pass through the body of [while True] in [wait], read at clock
    value [now]. Nothing in it suspends before the [break] or the
    [asyncio.sleep], so it is one uninterrupted segment. *)
Definition wait (now : Z) (l : AsyncRateLimiter)
  : AsyncRateLimiter * outcome :=
  let ts := purge now (period l) (timestamps l) in
  if Z.of_nat (length ts) <? max_calls l then
    ({| max_calls := max_calls l; period := period l;
        timestamps := ts ++ [now] |}, Proceed)
  else
    let l' := {| max_calls := max_calls l; period := period l;
                 timestamps := ts |} in
    match ts with
    | [] => (l', Fails IndexError)
    | t0 :: _ => (l', Sleep (period l - (now - t0)))
    end.

(** *** Concurrent callers

    Every call of [wait()] is a task with an identifier. A task is
    unknown (not started), asleep until a wake-up time, granted a permit, or
    failed. *)
Inductive task : Type :=
| Asleep (wake : Z)
| Granted (at_time : Z)
| Failed (e : exn).

#[global] Instance task_eq_dec : EqDecision task.
Proof. solve_decision. Defined.

Record sys : Type := mkSys {
  lim : AsyncRateLimiter;
  clock : Z;                       (* last value read from the clock *)
  tasks : gmap nat task;
  granted : list (nat * Z)         (* permits, in the order granted *)
}.

Definition start (mc p : Z) : sys :=
  {| lim := fresh mc p; clock := 0; tasks := ∅; granted := [] |}.

(** May task [c] run a loop iteration at time [now]? The clock is
    monotonic, a sleeping task does not wake early, a finished call
    does not run again. *)
Definition runnable (s : sys) (c : nat) (now : Z) : bool :=
  (clock s <=? now) &&
  match tasks s !! c with
  | None => true
  | Some (Asleep w) => w <=? now
  | Some _ => false
  end.

Definition step (s : sys) (ev : nat * Z) : option sys :=
  let '(c, now) := ev in
  if runnable s c now then
    let '(l', o) := wait now (lim s) in
    Some match o with
         | Proceed =>
             {| lim := l'; clock := now;
                tasks := <[c := Granted now]> (tasks s);
                granted := granted s ++ [(c, now)] |}
         | Sleep d =>
             {| lim := l'; clock := now;
                tasks := <[c := Asleep (now + d)]> (tasks s);
                granted := granted s |}
         | Fails e =>
             {| lim := l'; clock := now;
                tasks := <[c := Failed e]> (tasks s);
                granted := granted s |}
         end
  else None.

(** A schedule is the list of (task, clock value) segments in the order
    the event loop runs them. *)
Fixpoint run (sched : list (nat * Z)) (s : sys) : option sys :=
  match sched with
  | [] => Some s
  | ev :: rest => match step s ev with
                  | Some s' => run rest s'
                  | None => None
                  end
  end.

(** Timestamps younger than [p] at [now]. *)
Definition young (now p : Z) (ts : list Z) : list Z :=
  List.filter (fun t => now - p <? t) ts.

(** Permits granted in the window (a, a + p]. *)
Definition in_window (a p : Z) (g : list (nat * Z)) : list (nat * Z) :=
  List.filter (fun e => (a <? snd e) && (snd e <=? a + p)) g.

(** What every reachable state of the scheduler satisfies: the deque is
    the tail of the list of granted times, whatever was popped is older
    than a period, and time only moves forward. *)
Record inv (s : sys) : Prop := {
  inv_split : exists old, List.map snd (granted s) = old ++ timestamps (lim s)
                /\ Forall (fun t => t <= clock s - period (lim s)) old;
  inv_sorted : StronglySorted Z.le (List.map snd (granted s));
  inv_clock : Forall (fun t => t <= clock s) (List.map snd (granted s))
}.

Definition bounded (s : sys) : Prop :=
  forall a, Z.of_nat (length (in_window a (period (lim s)) (granted s)))
            <= Z.max 0 (max_calls (lim s)).

(** A limiter whose limit is zero or negative keeps an empty deque and
    fails every caller. *)
Definition all_failed (s : sys) : Prop :=
  timestamps (lim s) = [] /\ granted s = [] /\
  forall c t, tasks s !! c = Some t -> t = Failed IndexError.

End RateLimiter.

(** ** hashlib.md5 and str.encode

  [hashlib.md5(s.encode()).hexdigest()] names the cache files. [encode]
  is UTF-8; MD5 is RFC 1321 on 32-bit words kept in [Z]. *)

Module Hash.

(** [str.encode()]: UTF-8, which refuses lone surrogates. *)
Definition encode_char (c : N) : option (list N) :=
  (if c <? 0x80 then Some [c]
   else if c <? 0x800 then
     Some [N.lor 0xC0 (N.shiftr c 6); N.lor 0x80 (N.land c 0x3F)]
   else if (0xD800 <=? c) && (c <=? 0xDFFF) then None
   else if c <? 0x10000 then
     Some [N.lor 0xE0 (N.shiftr c 12);
           N.lor 0x80 (N.land (N.shiftr c 6) 0x3F);
           N.lor 0x80 (N.land c 0x3F)]
   else if c <? 0x110000 then
     Some [N.lor 0xF0 (N.shiftr c 18);
           N.lor 0x80 (N.land (N.shiftr c 12) 0x3F);
           N.lor 0x80 (N.land (N.shiftr c 6) 0x3F);
           N.lor 0x80 (N.land c 0x3F)]
   else None)%N.

Fixpoint encode (s : pystr) : result (list N) :=
  match s with
  | [] => Ok []
  | c :: rest =>
      match encode_char c with
      | None => Raise UnicodeEncodeError
      | Some bs => call tl <~ encode rest ;; Ok (bs ++ tl)
      end
  end.

Definition w32 (x : Z) : Z := x mod 2 ^ 32.

Definition rotl (x c : Z) : Z :=
  w32 (Z.lor (Z.shiftl x c) (Z.shiftr x (32 - c))).

Definition not32 (x : Z) : Z := Z.lxor x 0xffffffff.

Definition K : list Z :=
  [ 0xd76aa478; 0xe8c7b756; 0x242070db; 0xc1bdceee;
    0xf57c0faf; 0x4787c62a; 0xa8304613; 0xfd469501;
    0x698098d8; 0x8b44f7af; 0xffff5bb1; 0x895cd7be;
    0x6b901122; 0xfd987193; 0xa679438e; 0x49b40821;
    0xf61e2562; 0xc040b340; 0x265e5a51; 0xe9b6c7aa;
    0xd62f105d; 0x02441453; 0xd8a1e681; 0xe7d3fbc8;
    0x21e1cde6; 0xc33707d6; 0xf4d50d87; 0x455a14ed;
    0xa9e3e905; 0xfcefa3f8; 0x676f02d9; 0x8d2a4c8a;
    0xfffa3942; 0x8771f681; 0x6d9d6122; 0xfde5380c;
    0xa4beea44; 0x4bdecfa9; 0xf6bb4b60; 0xbebfbc70;
    0x289b7ec6; 0xeaa127fa; 0xd4ef3085; 0x04881d05;
    0xd9d4d039; 0xe6db99e5; 0x1fa27cf8; 0xc4ac5665;
    0xf4292244; 0x432aff97; 0xab9423a7; 0xfc93a039;
    0x655b59c3; 0x8f0ccc92; 0xffeff47d; 0x85845dd1;
    0x6fa87e4f; 0xfe2ce6e0; 0xa3014314; 0x4e0811a1;
    0xf7537e82; 0xbd3af235; 0x2ad7d2bb; 0xeb86d391 ].

Definition shifts : list Z :=
  [ 7; 12; 17; 22; 7; 12; 17; 22; 7; 12; 17; 22; 7; 12; 17; 22;
    5;  9; 14; 20; 5;  9; 14; 20; 5;  9; 14; 20; 5;  9; 14; 20;
    4; 11; 16; 23; 4; 11; 16; 23; 4; 11; 16; 23; 4; 11; 16; 23;
    6; 10; 15; 21; 6; 10; 15; 21; 6; 10; 15; 21; 6; 10; 15; 21 ].

Definition md5_op (M : list Z) (st : Z * Z * Z * Z) (i : nat)
  : Z * Z * Z * Z :=
  let '(a, b, c, d) := st in
  let '(f, g) :=
    if (i <? 16)%nat then (Z.lor (Z.land b c) (Z.land (not32 b) d), i)
    else if (i <? 32)%nat then
      (Z.lor (Z.land d b) (Z.land (not32 d) c), ((5 * i + 1) mod 16)%nat)
    else if (i <? 48)%nat then
      (Z.lxor (Z.lxor b c) d, ((3 * i + 5) mod 16)%nat)
    else (Z.lxor c (Z.lor b (not32 d)), ((7 * i) mod 16)%nat) in
  let f' := w32 (f + a + List.nth i K 0 + List.nth g M 0) in
  (d, w32 (b + rotl f' (List.nth i shifts 0)), b, c).

(** Little-endian 32-bit words of a block of bytes. *)
Fixpoint words (bs : list Z) : list Z :=
  match bs with
  | b0 :: b1 :: b2 :: b3 :: rest =>
      (b0 + 2 ^ 8 * b1 + 2 ^ 16 * b2 + 2 ^ 24 * b3) :: words rest
  | _ => []
  end.

Definition md5_block (st : Z * Z * Z * Z) (block : list Z)
  : Z * Z * Z * Z :=
  let '(a0, b0, c0, d0) := st in
  let '(a, b, c, d) := List.fold_left (md5_op (words block)) (List.seq 0 64) st in
  (w32 (a0 + a), w32 (b0 + b), w32 (c0 + c), w32 (d0 + d)).

Fixpoint blocks (fuel : nat) (st : Z * Z * Z * Z) (bs : list Z)
  : Z * Z * Z * Z :=
  match fuel, bs with
  | S fuel', _ :: _ =>
      blocks fuel' (md5_block st (List.firstn 64 bs)) (List.skipn 64 bs)
  | _, _ => st
  end.

Definition le_bytes (n : nat) (x : Z) : list Z :=
  List.map (fun i => Z.shiftr x (8 * Z.of_nat i) mod 256) (List.seq 0 n).

Definition pad (bs : list Z) : list Z :=
  let len := Z.of_nat (length bs) in
  let zeros := Z.to_nat ((55 - len) mod 64) in
  bs ++ [0x80] ++ List.repeat 0 zeros ++ le_bytes 8 ((8 * len) mod 2 ^ 64).

Definition hex_digit (x : Z) : N :=
  Z.to_N (if x <? 10 then 48 + x else 87 + x).

Definition hex_byte (b : Z) : pystr := [hex_digit (b / 16); hex_digit (b mod 16)].

(** [hashlib.md5(data).hexdigest()] *)
Definition md5_hexdigest (data : list N) : pystr :=
  let padded := pad (List.map Z.of_N data) in
  let '(a, b, c, d) :=
    blocks (length padded) (0x67452301, 0xefcdab89, 0x98badcfe, 0x10325476)
           padded in
  List.flat_map hex_byte
    (le_bytes 4 a ++ le_bytes 4 b ++ le_bytes 4 c ++ le_bytes 4 d).

(** [hashlib.md5(s.encode()).hexdigest()] *)
Definition md5_hex (s : pystr) : result pystr :=
  call bs <~ encode s ;; Ok (md5_hexdigest bs).

End Hash.

(** ** generate/anki.py : MediaDownloader *)

Module Media.
Import RateLimiter.

(** Clock ticks per second: [AsyncRateLimiter(20, 1.0)] has a period of
    [second] ticks, [asyncio.sleep(1 * (attempt + 1))] lasts
    [second * (attempt + 1)]. *)
Definition second : Z := 1000.

Record MediaDownloader : Type := mkDownloader {
  url_to_filename : gmap pystr pystr;
  semaphore : nat;                    (* free slots of asyncio.Semaphore *)
  rate_limiter : AsyncRateLimiter
}.

(** [__init__] *)
Definition __init__ (max_concurrent : nat) : MediaDownloader :=
  {| url_to_filename := ∅; semaphore := max_concurrent;
     rate_limiter := fresh 20 second |}.

(** [hashlib.md5(url.encode()).hexdigest() + ".mp3"] *)
Definition filename_of (url : pystr) : result pystr :=
  call h <~ Hash.md5_hex url ;; Ok (h ++ lit ".mp3").

(** Where one invocation of [download_audio] stands. [attempt] is the
    loop variable of [for attempt in range(3)]. *)
Inductive pc : Type :=
| Queued                                   (* in semaphore.acquire() *)
| Limited (attempt : nat) (wake : Z)       (* asleep in rate_limiter.wait() *)
| Fetching (attempt : nat) (filename : pystr)
                                           (* in session.get / response.read() *)
| Saving (attempt : nat) (filename : pystr) (content : list N)
                                           (* file opened "wb", in f.write() *)
| Backoff (attempt : nat) (wake : Z)       (* in asyncio.sleep(1 * (attempt + 1)) *)
| Returned (r : option pystr)
| Raised (e : exn).

Record task : Type := mkTask { url : pystr; at_pc : pc }.

Record world : Type := mkWorld {
  md : MediaDownloader;
  disk : gmap pystr (list N);        (* cache_dir: filename -> bytes *)
  clock : Z;
  requests : list (nat * pystr);     (* session.get calls: task, url *)
  sleeps : list (nat * Z);           (* back-off sleeps: task, seconds *)
  tasks : gmap nat task
}.

Definition initial (max_concurrent : nat) (files : gmap pystr (list N)) : world :=
  {| md := __init__ max_concurrent; disk := files; clock := 0;
     requests := []; sleeps := []; tasks := ∅ |}.

Definition set_task (id : nat) (u : pystr) (p : pc) (w : world) : world :=
  {| md := md w; disk := disk w; clock := clock w; requests := requests w;
     sleeps := sleeps w; tasks := <[id := mkTask u p]> (tasks w) |}.

Definition set_md (m : MediaDownloader) (w : world) : world :=
  {| md := m; disk := disk w; clock := clock w; requests := requests w;
     sleeps := sleeps w; tasks := tasks w |}.

Definition acquire (w : world) : world :=
  set_md {| url_to_filename := url_to_filename (md w);
            semaphore := pred (semaphore (md w));
            rate_limiter := rate_limiter (md w) |} w.

(** Leaving [async with self.semaphore]. *)
Definition release (w : world) : world :=
  set_md {| url_to_filename := url_to_filename (md w);
            semaphore := S (semaphore (md w));
            rate_limiter := rate_limiter (md w) |} w.

(** [self.url_to_filename[url] = filename] *)
Definition register (u f : pystr) (w : world) : world :=
  set_md {| url_to_filename := <[u := f]> (url_to_filename (md w));
            semaphore := semaphore (md w);
            rate_limiter := rate_limiter (md w) |} w.

Definition set_limiter (l : AsyncRateLimiter) (w : world) : world :=
  set_md {| url_to_filename := url_to_filename (md w);
            semaphore := semaphore (md w); rate_limiter := l |} w.

Definition write_file (f : pystr) (c : list N) (w : world) : world :=
  {| md := md w; disk := <[f := c]> (disk w); clock := clock w;
     requests := requests w; sleeps := sleeps w; tasks := tasks w |}.

Definition log_request (id : nat) (u : pystr) (w : world) : world :=
  {| md := md w; disk := disk w; clock := clock w;
     requests := requests w ++ [(id, u)]; sleeps := sleeps w;
     tasks := tasks w |}.

Definition log_sleep (id : nat) (secs : Z) (w : world) : world :=
  {| md := md w; disk := disk w; clock := clock w; requests := requests w;
     sleeps := sleeps w ++ [(id, secs)]; tasks := tasks w |}.

Definition set_clock (now : Z) (w : world) : world :=
  {| md := md w; disk := disk w; clock := now; requests := requests w;
     sleeps := sleeps w; tasks := tasks w |}.

(** An exception raised inside the [try] of attempt [k]:
    [except (aiohttp.ClientError, asyncio.TimeoutError)] retries or gives
    up; anything else leaves the coroutine (and the semaphore). *)
Definition handle (now : Z) (id : nat) (u : pystr) (k : nat) (e : exn)
    (w : world) : world :=
  if is_network_error e then
    if (k =? 2)%nat then set_task id u (Returned None) (release w)
    else set_task id u (Backoff k (now + second * (Z.of_nat k + 1)))
           (log_sleep id (1 * (Z.of_nat k + 1)) w)
  else set_task id u (Raised e) (release w).

(** The body of the [try] of attempt [k], from [rate_limiter.wait()] up
    to the first point where it suspends or leaves. *)
Definition begin_attempt (now : Z) (id : nat) (u : pystr) (k : nat)
    (w : world) : world :=
  let '(l', o) := wait now (rate_limiter (md w)) in
  let w := set_limiter l' w in
  match o with
  | Fails e => handle now id u k e w
  | Sleep d => set_task id u (Limited k (now + d)) w
  | Proceed =>
      match filename_of u with
      | Raise e => handle now id u k e w
      | Ok f =>
          if decide (is_Some (disk w !! f)) then
            set_task id u (Returned (Some f)) (release (register u f w))
          else set_task id u (Fetching k f) (log_request id u w)
      end
  end.

(** The start of [download_audio(url)]. *)
Definition download_audio (now : Z) (id : nat) (u : pystr) (w : world) : world :=
  match u with
  | [] => set_task id u (Returned None) w
  | _ :: _ =>
      match url_to_filename (md w) !! u with
      | Some f => set_task id u (Returned (Some f)) w
      | None =>
          if (0 <? semaphore (md w))%nat
          then begin_attempt now id u 0 (acquire w)
          else set_task id u Queued w
      end
  end.

(** What the event loop hands to a task when it runs it. *)
Inductive input : Type :=
| Invoke (u : pystr)            (* a new call download_audio(u) *)
| Resume                        (* a semaphore slot or a timer *)
| FetchDone (content : list N)  (* status ok, body read, file opened *)
| FetchFail (e : exn)           (* get, raise_for_status, read or open raised *)
| SaveDone                      (* f.write(content) returned *)
| SaveFail (e : exn).           (* f.write(content) raised *)

Definition step (w0 : world) (ev : nat * Z * input) : option world :=
  let '(id, now, inp) := ev in
  if now <? clock w0 then None else
  let w := set_clock now w0 in
  match tasks w !! id, inp with
  | None, Invoke u => Some (download_audio now id u w)
  | Some t, Resume =>
      match at_pc t with
      | Queued =>
          if (0 <? semaphore (md w))%nat
          then Some (begin_attempt now id (url t) 0 (acquire w))
          else None
      | Limited k wake =>
          if wake <=? now then Some (begin_attempt now id (url t) k w)
          else None
      | Backoff k wake =>
          if wake <=? now then
            if (S k <? 3)%nat then Some (begin_attempt now id (url t) (S k) w)
            else Some (set_task id (url t) (Returned None) (release w))
          else None
      | _ => None
      end
  | Some t, FetchDone c =>
      match at_pc t with
      | Fetching k f =>
          Some (set_task id (url t) (Saving k f c) (write_file f [] w))
      | _ => None
      end
  | Some t, FetchFail e =>
      match at_pc t with
      | Fetching k f => Some (handle now id (url t) k e w)
      | _ => None
      end
  | Some t, SaveDone =>
      match at_pc t with
      | Saving k f c =>
          Some (set_task id (url t) (Returned (Some f))
                  (release (register (url t) f (write_file f c w))))
      | _ => None
      end
  | Some t, SaveFail e =>
      match at_pc t with
      | Saving k f c => Some (handle now id (url t) k e w)
      | _ => None
      end
  | _, _ => None
  end.

Fixpoint run (sched : list (nat * Z * input)) (w : world) : option world :=
  match sched with
  | [] => Some w
  | ev :: rest => match step w ev with
                  | Some w' => run rest w'
                  | None => None
                  end
  end.

Definition finished (p : pc) : bool :=
  match p with Returned _ | Raised _ => true | _ => false end.

(** The [session.get] calls and the back-off sleeps of one invocation. *)
Definition attempts_of (id : nat) (w : world) : nat :=
  length (List.filter (fun r => (fst r =? id)%nat) (requests w)).

Definition sleeps_of (id : nat) (w : world) : list Z :=
  List.map snd (List.filter (fun r => (fst r =? id)%nat) (sleeps w)).

(** The [session.get] calls for one URL, whoever made them. *)
Definition downloads_of (u : pystr) (w : world) : nat :=
  length (List.filter (fun r => bool_decide (snd r = u)) (requests w)).

(** The seconds slept after the failures of attempts 0 .. k-1. *)
Definition seqZ (k : nat) : list Z :=
  List.map (fun i => 1 * (Z.of_nat i + 1)) (List.seq 0 k).

(** What the place of an invocation says about its file name and about
    the map. *)
Definition pc_ok (m : gmap pystr pystr) (u : pystr) (p : pc) : Prop :=
  match p with
  | Returned None => True
  | Fetching _ f | Saving _ f _ => u <> [] /\ filename_of u = Ok f
  | Returned (Some f) => u <> [] /\ m !! u = Some f
  | _ => u <> []
  end.

(** Facts of every reachable world: the limiter keeps its limit of 20, the
    map only holds names of files that are on disk, and a returned file name
    is the one registered for the URL. *)
Record winv (w : world) : Prop := {
  winv_limit : max_calls (rate_limiter (md w)) = 20;
  winv_map : forall u f, url_to_filename (md w) !! u = Some f ->
               filename_of u = Ok f /\ is_Some (disk w !! f);
  winv_tasks : forall id t, tasks w !! id = Some t ->
               pc_ok (url_to_filename (md w)) (url t) (at_pc t)
}.

(** [w'] differs from [w] in nothing that invocation [id] can tell, except
    that files may have appeared. *)
Definition same_for (id : nat) (w w' : world) : Prop :=
  tasks w' !! id = tasks w !! id /\
  attempts_of id w' = attempts_of id w /\
  sleeps_of id w' = sleeps_of id w /\
  forall f, is_Some (disk w !! f) -> is_Some (disk w' !! f).

(** The book-keeping of one invocation, by where it stands. *)
Definition tinv (id : nat) (w : world) : Prop :=
  match tasks w !! id with
  | None => attempts_of id w = 0%nat /\ sleeps_of id w = []
  | Some t =>
      match at_pc t with
      | Queued => attempts_of id w = 0%nat /\ sleeps_of id w = []
      | Limited k _ =>
          attempts_of id w = k /\ sleeps_of id w = seqZ k /\ (k < 3)%nat
      | Fetching k f =>
          attempts_of id w = S k /\ sleeps_of id w = seqZ k /\ (k < 3)%nat
      | Saving k f c =>
          attempts_of id w = S k /\ sleeps_of id w = seqZ k /\ (k < 3)%nat /\
          filename_of (url t) = Ok f /\ is_Some (disk w !! f)
      | Backoff k _ =>
          attempts_of id w = S k /\ sleeps_of id w = seqZ (S k) /\ (k < 2)%nat
      | Returned None =>
          url t = [] \/ (attempts_of id w = 3%nat /\ sleeps_of id w = [1; 2])
      | Returned (Some f) =>
          filename_of (url t) = Ok f /\ is_Some (disk w !! f)
      | Raised e =>
          filename_of (url t) = Raise e \/
          exists f, filename_of (url t) = Ok f /\ is_Some (disk w !! f)
      end
  end.

(** An event that does not make invocation [id] fail outside the two
    exception classes its [except] clause names. *)
Definition good (id : nat) (ev : nat * Z * input) : Prop :=
  match ev with
  | (id', _, FetchFail e) => id' = id -> is_network_error e = true
  | _ => True
  end.

End Media.

(** ** The json module, as far as the cache uses it

    [json.dumps(obj, ensure_ascii=False)] and [json.loads(text)] on the
    values the scraper builds: None, booleans, strings, lists and dicts
    with string keys. A number is kept as its literal text. Characters
    are written by code point: 34 is the double quote, 92 the backslash. *)

Module Json.

#[local] Unset Elimination Schemes.
Inductive pyval : Type :=
| PNone
| PBool (b : bool)
| PNum (literal : pystr)
| PStr (s : pystr)
| PList (items : list pyval)
| PDict (pairs : list (pystr * pyval)).   (* insertion order, keys unique *)
#[local] Set Elimination Schemes.

(** [d[k] = v] on a dict: an existing key keeps its place. *)
Fixpoint dict_set {V : Type} (k : pystr) (v : V) (d : list (pystr * V))
  : list (pystr * V) :=
  match d with
  | [] => [(k, v)]
  | (k', v') :: rest =>
      if bool_decide (k' = k) then (k, v) :: rest
      else (k', v') :: dict_set k v rest
  end.

(** [bool(x)] *)
Definition truthy (v : pyval) : bool :=
  match v with
  | PNone => false
  | PBool b => b
  | PNum _ => true
  | PStr [] | PList [] | PDict [] => false
  | PStr _ | PList _ | PDict _ => true
  end.

(** *** dumps *)

Definition hex_digit (x : N) : N :=
  (if x <? 10 then 48 + x else 87 + x)%N.

(** json.encoder.py_encode_basestring: what replaces one character. *)
Definition escape_char (c : N) : pystr :=
  (if c =? 34 then [92; 34]
   else if c =? 92 then [92; 92]
   else if c =? 10 then [92; 110]          (* \n *)
   else if c =? 13 then [92; 114]          (* \r *)
   else if c =? 9 then [92; 116]           (* \t *)
   else if c =? 8 then [92; 98]            (* \b *)
   else if c =? 12 then [92; 102]          (* \f *)
   else if c <? 32 then
     [92; 117; 48; 48; hex_digit (c / 16); hex_digit (c mod 16)]
   else [c])%N.

Definition dump_str (s : pystr) : pystr :=
  [34%N] ++ List.flat_map escape_char s ++ [34%N].

(** The separators are the defaults, [", "] and [": "]. *)
Fixpoint dumps (v : pyval) : pystr :=
  match v with
  | PNone => lit "null"
  | PBool true => lit "true"
  | PBool false => lit "false"
  | PNum n => n
  | PStr s => dump_str s
  | PList items =>
      let fix join (l : list pyval) : pystr :=
        match l with
        | [] => []
        | [x] => dumps x
        | x :: rest => dumps x ++ lit ", " ++ join rest
        end in
      lit "[" ++ join items ++ lit "]"
  | PDict pairs =>
      let fix join (l : list (pystr * pyval)) : pystr :=
        match l with
        | [] => []
        | [(k, x)] => dump_str k ++ lit ": " ++ dumps x
        | (k, x) :: rest => dump_str k ++ lit ": " ++ dumps x ++ lit ", " ++ join rest
        end in
      lit "{" ++ join pairs ++ lit "}"
  end.

Fixpoint join_items (l : list pyval) : pystr :=
  match l with
  | [] => []
  | [x] => dumps x
  | x :: rest => dumps x ++ lit ", " ++ join_items rest
  end.

Fixpoint join_pairs (l : list (pystr * pyval)) : pystr :=
  match l with
  | [] => []
  | [(k, x)] => dump_str k ++ lit ": " ++ dumps x
  | (k, x) :: rest =>
      dump_str k ++ lit ": " ++ dumps x ++ lit ", " ++ join_pairs rest
  end.

(** *** loads *)

Definition is_ws (c : N) : bool :=
  ((c =? 32) || (c =? 9) || (c =? 10) || (c =? 13))%N.

Fixpoint skip_ws (s : pystr) : pystr :=
  match s with
  | c :: rest => if is_ws c then skip_ws rest else s
  | [] => []
  end.

Definition hex_val (c : N) : option N :=
  (if (48 <=? c) && (c <=? 57) then Some (c - 48)
   else if (97 <=? c) && (c <=? 102) then Some (c - 87)
   else if (65 <=? c) && (c <=? 70) then Some (c - 55)
   else None)%N.

Definition hex4 (a b c d : N) : option N :=
  match hex_val a, hex_val b, hex_val c, hex_val d with
  | Some x, Some y, Some z, Some t => Some (4096 * x + 256 * y + 16 * z + t)%N
  | _, _, _, _ => None
  end.

(** The character of a one-letter escape. *)
Definition unescape (c : N) : option N :=
  (if c =? 34 then Some 34 else if c =? 92 then Some 92
   else if c =? 47 then Some 47 else if c =? 98 then Some 8
   else if c =? 102 then Some 12 else if c =? 110 then Some 10
   else if c =? 114 then Some 13 else if c =? 116 then Some 9
   else None)%N.

(** A low surrogate escape right after a high one joins it into
    one character. *)
Definition low_surrogate (s : pystr) : option (N * pystr) :=
  match s with
  | 92%N :: 117%N :: a :: b :: c :: d :: rest =>
      match hex4 a b c d with
      | Some lo => if ((0xDC00 <=? lo) && (lo <=? 0xDFFF))%N
                   then Some (lo, rest) else None
      | None => None
      end
  | _ => None
  end.

(** json.decoder.scanstring (strict), from just after the opening quote:
    the string and what follows its closing quote. *)
Fixpoint scanstring (fuel : nat) (s : pystr) : option (pystr * pystr) :=
  match fuel with
  | O => None
  | S fuel' =>
      match s with
      | [] => None
      | c :: rest =>
          if (c =? 34)%N then Some ([], rest)
          else if (c =? 92)%N then
            match rest with
            | [] => None
            | e :: rest1 =>
                if (e =? 117)%N then
                  match rest1 with
                  | a :: b :: c' :: d :: rest2 =>
                      match hex4 a b c' d with
                      | None => None
                      | Some hi =>
                          let '(ch, rest3) :=
                            if ((0xD800 <=? hi) && (hi <=? 0xDBFF))%N then
                              match low_surrogate rest2 with
                              | Some (lo, r) =>
                                  ((0x10000 + (N.lor (N.shiftl (hi - 0xD800) 10)
                                                     (lo - 0xDC00)))%N, r)
                              | None => (hi, rest2)
                              end
                            else (hi, rest2) in
                          match scanstring fuel' rest3 with
                          | Some (str, r) => Some (ch :: str, r)
                          | None => None
                          end
                      end
                  | _ => None
                  end
                else
                  match unescape e with
                  | None => None
                  | Some ch =>
                      match scanstring fuel' rest1 with
                      | Some (str, r) => Some (ch :: str, r)
                      | None => None
                      end
                  end
            end
          else if (c <? 32)%N then None
          else match scanstring fuel' rest with
               | Some (str, r) => Some (c :: str, r)
               | None => None
               end
      end
  end.

Definition is_digit (c : N) : bool := ((48 <=? c) && (c <=? 57))%N.

Fixpoint digits (s : pystr) : pystr * pystr :=
  match s with
  | c :: rest => if is_digit c then let '(ds, r) := digits rest in (c :: ds, r)
                 else ([], s)
  | [] => ([], [])
  end.

(** NUMBER_RE: an optional minus sign; a zero, or a non-zero digit and
    more digits; optionally a point and digits; optionally e or E, a sign
    and digits. *)
Definition scan_number (s : pystr) : option (pystr * pystr) :=
  let '(sign, s1) := match s with 45%N :: r => ([45%N], r) | _ => ([], s) end in
  let int_part :=
    match s1 with
    | 48%N :: r => Some ([48%N], r)
    | c :: r => if is_digit c then let '(ds, r') := digits r in Some (c :: ds, r')
                else None
    | [] => None
    end in
  match int_part with
  | None => None
  | Some (ip, s2) =>
      let '(frac, s3) :=
        match s2 with
        | 46%N :: r => match digits r with
                       | ([], _) => ([], s2)
                       | (ds, r') => (46%N :: ds, r')
                       end
        | _ => ([], s2)
        end in
      let '(ex, s4) :=
        match s3 with
        | e :: r =>
            if ((e =? 101) || (e =? 69))%N then
              let '(sg, r1) :=
                match r with
                | c :: r' => if ((c =? 43) || (c =? 45))%N then ([c], r')
                             else ([], r)
                | [] => ([], r)
                end in
              match digits r1 with
              | ([], _) => ([], s3)
              | (ds, r2) => (e :: sg ++ ds, r2)
              end
            else ([], s3)
        | [] => ([], s3)
        end in
      Some (sign ++ ip ++ frac ++ ex, s4)
  end.

(** [s] starts with [p]: what follows. *)
Fixpoint strip_prefix (p s : pystr) : option pystr :=
  match p, s with
  | [], _ => Some s
  | a :: p', b :: s' => if (a =? b)%N then strip_prefix p' s' else None
  | _ :: _, [] => None
  end.

(** json.scanner scan_once, JSONArray and JSONObject. [fuel] bounds the
    nesting of calls; each call is made on a shorter text. *)
Fixpoint scan_once (fuel : nat) (s : pystr) : option (pyval * pystr) :=
  match fuel with
  | O => None
  | S fuel' =>
      match s with
      | 34%N :: rest =>
          match scanstring (S (length rest)) rest with
          | Some (str, r) => Some (PStr str, r)
          | None => None
          end
      | 123%N :: rest =>                                       (* { *)
          match skip_ws rest with
          | 125%N :: r => Some (PDict [], r)
          | 34%N :: r => scan_members fuel' r []
          | _ => None
          end
      | 91%N :: rest =>                                        (* [ *)
          match skip_ws rest with
          | c :: r => if (c =? 93)%N then Some (PList [], r)
                      else scan_items fuel' (c :: r) []
          | [] => None
          end
      | _ =>
          match strip_prefix (lit "null") s with
          | Some r => Some (PNone, r)
          | None =>
          match strip_prefix (lit "true") s with
          | Some r => Some (PBool true, r)
          | None =>
          match strip_prefix (lit "false") s with
          | Some r => Some (PBool false, r)
          | None =>
          match scan_number s with
          | Some (n, r) => Some (PNum n, r)
          | None =>
          match strip_prefix (lit "NaN") s with
          | Some r => Some (PNum (lit "NaN"), r)
          | None =>
          match strip_prefix (lit "Infinity") s with
          | Some r => Some (PNum (lit "Infinity"), r)
          | None =>
          match strip_prefix (lit "-Infinity") s with
          | Some r => Some (PNum (lit "-Infinity"), r)
          | None => None
          end end end end end end end
      end
  end

(** From the first item of a non-empty array; [acc] holds the items
    read so far, last first. *)
with scan_items (fuel : nat) (s : pystr) (acc : list pyval)
  : option (pyval * pystr) :=
  match fuel with
  | O => None
  | S fuel' =>
      match scan_once fuel' s with
      | None => None
      | Some (v, r) =>
          match skip_ws r with
          | 93%N :: r' => Some (PList (List.rev (v :: acc)), r')
          | 44%N :: r' => scan_items fuel' (skip_ws r') (v :: acc)
          | _ => None
          end
      end
  end

(** From just after the opening quote of a key; [acc] is the dict built
    so far. *)
with scan_members (fuel : nat) (s : pystr) (acc : list (pystr * pyval))
  : option (pyval * pystr) :=
  match fuel with
  | O => None
  | S fuel' =>
      match scanstring (S (length s)) s with
      | None => None
      | Some (key, r) =>
          match skip_ws r with
          | 58%N :: r1 =>                                      (* : *)
              match scan_once fuel' (skip_ws r1) with
              | None => None
              | Some (v, r2) =>
                  let acc' := dict_set key v acc in
                  match skip_ws r2 with
                  | 125%N :: r3 => Some (PDict acc', r3)
                  | 44%N :: r3 =>
                      match skip_ws r3 with
                      | 34%N :: r4 => scan_members fuel' r4 acc'
                      | _ => None
                      end
                  | _ => None
                  end
              end
          | _ => None
          end
      end
  end.

(** [json.loads(text)] *)
Definition loads (text : pystr) : result pyval :=
  match scan_once (S (length text)) (skip_ws text) with
  | Some (v, r) => match skip_ws r with
                   | [] => Ok v
                   | _ :: _ => Raise JSONDecodeError
                   end
  | None => Raise JSONDecodeError
  end.

(** The values for which [loads] undoes [dumps]: no numbers, and no key
    twice in a dict. *)
Fixpoint plain (v : pyval) : Prop :=
  match v with
  | PNone | PBool _ | PStr _ => True
  | PNum _ => False
  | PList items =>
      (fix all (l : list pyval) : Prop :=
         match l with [] => True | x :: r => plain x /\ all r end) items
  | PDict pairs =>
      NoDup (List.map fst pairs) /\
      (fix all (l : list (pystr * pyval)) : Prop :=
         match l with [] => True | (_, x) :: r => plain x /\ all r end) pairs
  end.

(** Nodes of a value; recursion on values goes by this measure. *)
Fixpoint size (v : pyval) : nat :=
  match v with
  | PList items =>
      S ((fix sum (l : list pyval) : nat :=
            match l with [] => 0 | x :: r => size x + sum r end) items)
  | PDict pairs =>
      S ((fix sum (l : list (pystr * pyval)) : nat :=
            match l with [] => 0 | (_, x) :: r => size x + sum r end) pairs)
  | _ => 1
  end%nat.

End Json.

(** ** str methods and the parsed page

    The methods of [str] the scraper calls, and BeautifulSoup's tree with the
    searches the scraper makes on it. [lower] and [upper] map the ASCII
    letters and leave every other character as it is. *)

Module Soup.

(** [str.isspace] for one character. *)
Definition isspace (c : N) : bool :=
  ((9 <=? c) && (c <=? 13) || (28 <=? c) && (c <=? 32) || (c =? 0x85)
   || (c =? 0xA0) || (c =? 0x1680) || (0x2000 <=? c) && (c <=? 0x200A)
   || (c =? 0x2028) || (c =? 0x2029) || (c =? 0x202F) || (c =? 0x205F)
   || (c =? 0x3000))%N.

Fixpoint lstrip (s : pystr) : pystr :=
  match s with
  | c :: rest => if isspace c then lstrip rest else s
  | [] => []
  end.

(** [s.strip()] *)
Definition strip (s : pystr) : pystr :=
  List.rev (lstrip (List.rev (lstrip s))).

Definition lower_char (c : N) : N :=
  (if (65 <=? c) && (c <=? 90) then c + 32 else c)%N.

Definition upper_char (c : N) : N :=
  (if (97 <=? c) && (c <=? 122) then c - 32 else c)%N.

Definition lower (s : pystr) : pystr := List.map lower_char s.
Definition upper (s : pystr) : pystr := List.map upper_char s.

(** [s.startswith(p)] *)
Fixpoint startswith (p s : pystr) : bool :=
  match p, s with
  | [], _ => true
  | a :: p', b :: s' => (a =? b)%N && startswith p' s'
  | _ :: _, [] => false
  end.

(** [s.split(sep)[-1]] for a one-character separator. *)
Fixpoint after_last (sep : N) (s : pystr) : pystr :=
  match s with
  | [] => []
  | c :: rest =>
      if (c =? sep)%N && negb (existsb (N.eqb sep) rest) then rest
      else if existsb (N.eqb sep) s then after_last sep rest
      else s
  end.

(** A node of the tree: a string, or a tag with its name, the values of
    its [class] attribute, its other attributes and its children. *)
#[local] Unset Elimination Schemes.
Inductive node : Type :=
| Text (s : pystr)
| Tag (name : pystr) (classes : list pystr) (attrs : list (pystr * pystr))
      (children : list node).
#[local] Set Elimination Schemes.

(** [tag.descendants], in document order. *)
Fixpoint descendants (n : node) : list node :=
  match n with
  | Text _ => []
  | Tag _ _ _ children =>
      (fix go (l : list node) : list node :=
         match l with
         | [] => []
         | c :: rest => c :: descendants c ++ go rest
         end) children
  end.

(** [tag.text]: the strings below the tag, concatenated. *)
Fixpoint text (n : node) : pystr :=
  match n with
  | Text s => s
  | Tag _ _ _ children =>
      (fix go (l : list node) : pystr :=
         match l with
         | [] => []
         | c :: rest => text c ++ go rest
         end) children
  end.

(** An element of a page is known by its place in document order; the
    page itself is at place 0. *)
Definition handle : Type := nat * node.

Definition root (doc : node) : handle := (0%nat, doc).

Definition number_from (start : nat) (l : list node) : list handle :=
  List.combine (List.seq start (length l)) l.

(** The elements below [h], and the elements after [h] in the page. *)
Definition below (h : handle) : list handle :=
  number_from (S (fst h)) (descendants (snd h)).

Definition following (doc : node) (h : handle) : list handle :=
  List.skipn (S (fst h)) (number_from 0 (doc :: descendants doc)).

(** The [class_] argument of a search. *)
Inductive class_filter : Type :=
| AnyClass
| HasClass (c : pystr)
| ClassStartsWith (p : pystr).

Definition matches (name : pystr) (f : class_filter) (h : handle) : bool :=
  match snd h with
  | Text _ => false
  | Tag nm cls _ _ =>
      bool_decide (nm = name) &&
      match f with
      | AnyClass => true
      | HasClass c => existsb (fun c' => bool_decide (c' = c)) cls
      | ClassStartsWith p => existsb (startswith p) cls
      end
  end.

(** [tag.find_all(name, class_=f)], [tag.find(name, class_=f)] and
    [tag.find_next(name, class_=f)] *)
Definition find_all (h : handle) (name : pystr) (f : class_filter)
  : list handle :=
  List.filter (matches name f) (below h).

Definition find (h : handle) (name : pystr) (f : class_filter)
  : option handle :=
  List.head (find_all h name f).

Definition find_next (doc : node) (h : handle) (name : pystr)
    (f : class_filter) : option handle :=
  List.head (List.filter (matches name f) (following doc h)).

(** [tag.get(key)] *)
Fixpoint get_attr (key : pystr) (attrs : list (pystr * pystr)) : option pystr :=
  match attrs with
  | [] => None
  | (k, v) :: rest => if bool_decide (k = key) then Some v else get_attr key rest
  end.

Definition attr (h : handle) (key : pystr) : option pystr :=
  match snd h with
  | Text _ => None
  | Tag _ _ attrs _ => get_attr key attrs
  end.

Definition classes_of (h : handle) : list pystr :=
  match snd h with
  | Text _ => []
  | Tag _ cls _ _ => cls
  end.

End Soup.

(** ** scrape/oald.py : Word *)

Module Oald.
Import Json Soup.

Definition BASE_URL : pystr :=
  lit "https://www.oxfordlearnersdictionaries.com/definition/english/".
Definition MAX_ENTRIES : nat := 5.
Definition CACHE_VERSION : pystr := lit "v1".

Definition HEADWORD_CLASS : pystr := lit "headword".
Definition POS_CLASS : pystr := lit "pos".
Definition PHONS_BR_CLASS : pystr := lit "phons_br".
Definition PHONS_NA_CLASS : pystr := lit "phons_n_am".
Definition PHON_CLASS : pystr := lit "phon".
Definition SOUND_CLASS : pystr := lit "sound".
Definition SENSE_CLASS : pystr := lit "sense".
Definition DEF_CLASS : pystr := lit "def".
Definition EXAMPLE_CLASS : pystr := lit "x".
Definition IDIOMS_CLASS : pystr := lit "idioms".
Definition IDM_CLASS : pystr := lit "idm".
Definition PHRASAL_VERBS_CLASS : pystr := lit "phrasal_verb_links".

(** What [session.get(url)] gives: an exception, or a response with its
    status and what [response.text()] parses to (or raises). *)
Inductive reply : Type :=
| NoReply (e : exn)
| Reply (status : Z) (body : result node).

(** What the file system does to the cache operations, besides storing. *)
Record faults : Type := mkFaults {
  read_raises : option exn;      (* open(path, "r") or f.read() *)
  mkdir_raises : option exn;     (* CACHE_DIR.mkdir *)
  open_raises : option exn;      (* open(path, "w") *)
  write_raises : option (nat * exn)
                                 (* f.write: characters stored, exception *)
}.

Definition no_faults : faults :=
  {| read_raises := None; mkdir_raises := None; open_raises := None;
     write_raises := None |}.

Record world : Type := mkWorld {
  home : pystr;                       (* Path.home() *)
  net : pystr -> reply;
  io : faults;
  fs : gmap pystr pystr;              (* path -> text of the file *)
  requests : list pystr               (* URLs requested, in order *)
}.

Record Word : Type := mkWord {
  word : pystr;
  entries : pyval
}.

(** [__init__] *)
Definition __init__ (w : pystr) : Word :=
  {| word := lower (strip w); entries := PList [] |}.

(** [x.text.strip()] as a value. *)
Definition stripped (h : handle) : pystr := strip (text (snd h)).

(** *** Parsing one page *)

Definition _extract_cefr_level (sense_element : handle) : pystr :=
  match find sense_element (lit "div") (HasClass (lit "symbols")) with
  | None => []
  | Some symbols_div =>
      match find symbols_div (lit "span") (ClassStartsWith (lit "ox3ksym_")) with
      | Some level_span =>
          upper (after_last 95 (List.last (classes_of level_span) []))
      | None => []
      end
  end.

Definition sense_dict (sense : handle) : pyval :=
  PDict
    [ (lit "definition",
       PStr match find sense (lit "span") (HasClass DEF_CLASS) with
            | Some d => stripped d
            | None => []
            end);
      (lit "examples",
       PList (List.map (fun ex => PStr (stripped ex))
                (find_all sense (lit "span") (HasClass EXAMPLE_CLASS))));
      (lit "level", PStr (_extract_cefr_level sense)) ].

Definition _parse_pv_sense (sense : handle) : pyval := sense_dict sense.
Definition _parse_sense (sense : handle) : pyval := sense_dict sense.

Definition _parse_pv_page (soup : node) : list pyval :=
  List.map _parse_pv_sense (find_all (root soup) (lit "li") (HasClass SENSE_CLASS)).

Definition _is_valid_entry (soup : option node) : bool :=
  match soup with
  | None => false
  | Some doc =>
      match find (root doc) (lit "h1") (HasClass HEADWORD_CLASS),
            find (root doc) (lit "span") (HasClass POS_CLASS) with
      | Some _, Some _ => true
      | _, _ => false
      end
  end.

Definition get_headword (soup : node) : pyval :=
  match find (root soup) (lit "h1") (HasClass HEADWORD_CLASS) with
  | Some headword => PStr (stripped headword)
  | None => PNone
  end.

Definition get_part_of_speech (soup : node) : pyval :=
  match find (root soup) (lit "span") (HasClass POS_CLASS) with
  | Some pos => PStr (stripped pos)
  | None => PNone
  end.

Definition get_pronunciation (soup : node) (region_class : pystr) : pyval :=
  match find (root soup) (lit "div") (HasClass region_class) with
  | None => PDict [(lit "ipa", PStr []); (lit "audio", PStr [])]
  | Some pron =>
      PDict
        [ (lit "ipa",
           PStr match find pron (lit "span") (HasClass PHON_CLASS) with
                | Some ipa => stripped ipa
                | None => []
                end);
          (lit "audio",
           PStr match find pron (lit "div") (HasClass SOUND_CLASS) with
                | Some audio =>
                    match attr audio (lit "data-src-mp3") with
                    | Some src => src
                    | None => []
                    end
                | None => []
                end) ]
  end.

Definition get_pronunciations (soup : node) : pyval :=
  PDict [ (lit "uk", get_pronunciation soup PHONS_BR_CLASS);
          (lit "us", get_pronunciation soup PHONS_NA_CLASS) ].

Definition get_meanings (soup : node) : list pyval :=
  match find (root soup) (lit "ol") AnyClass with
  | None => []
  | Some senses_container =>
      List.map _parse_sense
        (find_all senses_container (lit "li") (HasClass SENSE_CLASS))
  end.

(** [definition_section.find] on None and [def_text.text] on None raise
    AttributeError. *)
Definition _parse_idiom (soup : node) (idiom : handle) : result pyval :=
  let idiom_text := stripped idiom in
  match find_next soup idiom (lit "ol") (HasClass (lit "sense_single")) with
  | None => Raise AttributeError
  | Some definition_section =>
      match find definition_section (lit "span") (HasClass DEF_CLASS) with
      | None => Raise AttributeError
      | Some def_text =>
          Ok (PDict
                [ (lit "idiom", PStr idiom_text);
                  (lit "definition", PStr (stripped def_text));
                  (lit "examples",
                   PList (List.map (fun ex => PStr (stripped ex))
                            (find_all definition_section (lit "span")
                               (HasClass EXAMPLE_CLASS)))) ])
      end
  end.

(** A list comprehension whose element can raise: the first exception
    ends it. *)
Fixpoint map_result {A B} (f : A -> result B) (l : list A) : result (list B) :=
  match l with
  | [] => Ok []
  | x :: rest =>
      call y <~ f x ;;
      call ys <~ map_result f rest ;;
      Ok (y :: ys)
  end.

Definition get_idioms (soup : node) : result (list pyval) :=
  match find (root soup) (lit "div") (HasClass IDIOMS_CLASS) with
  | None => Ok []
  | Some idioms_section =>
      map_result (_parse_idiom soup)
        (find_all idioms_section (lit "span") (HasClass IDM_CLASS))
  end.

(** *** Fetching

    A coroutine that talks to the network returns the URLs it requested
    together with its result. [RATE_LIMITER.wait()] and [PV_SEMAPHORE] delay
    a request and do not change it; the limiter is built with
    [max_calls=100], for which [wait()] cannot fail. *)

(** [asyncio.gather] over a list of tasks: every task runs; the results in task order,
    or the exception of the first task that raised. *)
Definition gather {A} (tasks : list (list pystr * result A))
  : list pystr * result (list A) :=
  (List.flat_map fst tasks, map_result snd tasks).

Definition _fetch_variation (net : pystr -> reply) (url : pystr)
  : list pystr * result (option node) :=
  ([url],
   match net url with
   | NoReply e => if is_network_error e then Ok None else Raise e
   | Reply status body =>
       if status =? 200 then
         match body with
         | Ok soup => Ok (Some soup)
         | Raise e => if is_network_error e then Ok None else Raise e
         end
       else Ok None
   end).

(** The links of the phrasal-verb section, as the dict [pv_links]. *)
Definition pv_links (section : handle) : list (pystr * pystr) :=
  List.fold_left
    (fun links li =>
       match find li (lit "a") (HasClass (lit "Ref")) with
       | Some a_tag =>
           match find a_tag (lit "span") (HasClass (lit "xh")),
                 attr a_tag (lit "href") with
           | Some verb, Some (c :: href) =>
               dict_set (stripped verb) (c :: href) links
           | _, _ => links
           end
       | None => links
       end)
    (find_all section (lit "li") (HasClass (lit "li"))) [].

(** [raise_for_status()] raises from status 400 on; [except Exception]
    turns every failure into [(verb, None)]. *)
Definition _fetch_pv_data (net : pystr -> reply) (verb url : pystr)
  : list pystr * (pystr * option (list pyval)) :=
  ([url],
   (verb,
    match net url with
    | NoReply _ => None
    | Reply status body =>
        if 400 <=? status then None
        else match body with
             | Ok soup => Some (_parse_pv_page soup)
             | Raise _ => None
             end
    end)).

(** [{"phrasal_verb": verb, "senses": data} for verb, data in results
     if data] *)
Definition pv_entry (r : pystr * option (list pyval)) : list pyval :=
  match snd r with
  | Some (d :: ds) =>
      [PDict [ (lit "phrasal_verb", PStr (fst r));
               (lit "senses", PList (d :: ds)) ]]
  | _ => []
  end.

Definition get_phrasal_verbs (net : pystr -> reply) (soup : node)
  : list pystr * list pyval :=
  match find (root soup) (lit "aside") (HasClass PHRASAL_VERBS_CLASS) with
  | None => ([], [])
  | Some section =>
      let results :=
        List.map (fun l => _fetch_pv_data net (fst l) (snd l)) (pv_links section) in
      (List.flat_map fst results, List.flat_map (fun r => pv_entry (snd r)) results)
  end.

(** The dict is built key by key, so the phrasal verbs are fetched only
    when the idioms have been parsed; [except Exception] returns [{}]. *)
Definition _process_entry (net : pystr -> reply) (soup : node)
  : list pystr * pyval :=
  match get_idioms soup with
  | Raise _ => ([], PDict [])
  | Ok idioms =>
      let '(log, pvs) := get_phrasal_verbs net soup in
      (log,
       PDict [ (lit "headword", get_headword soup);
               (lit "part_of_speech", get_part_of_speech soup);
               (lit "pronunciations", get_pronunciations soup);
               (lit "meanings", PList (get_meanings soup));
               (lit "idioms", PList idioms);
               (lit "phrasal_verbs", PList pvs) ])
  end.

Fixpoint decimal (fuel n : nat) (acc : pystr) : pystr :=
  match fuel with
  | O => acc
  | S fuel' =>
      let acc' := N.of_nat (48 + n mod 10) :: acc in
      if (n / 10 =? 0)%nat then acc' else decimal fuel' (n / 10) acc'
  end.

(** [str(n)] *)
Definition str_of_nat (n : nat) : pystr := decimal (S n) n [].

Definition variation_urls (w : pystr) : list pystr :=
  List.map (fun i => BASE_URL ++ w ++ lit "_" ++ str_of_nat i)
    (List.seq 1 MAX_ENTRIES).

(** The pages [fetch_word] keeps: [if self._is_valid_entry(soup)]. *)
Definition valid_pages (results : list (option node)) : list node :=
  List.flat_map (fun r => if _is_valid_entry r then
                            match r with Some doc => [doc] | None => [] end
                          else []) results.

Definition fetch_word (net : pystr -> reply) (self : Word)
  : list pystr * Word * result unit :=
  let '(log1, gathered) :=
    gather (List.map (_fetch_variation net) (variation_urls (word self))) in
  match gathered with
  | Raise e => (log1, self, Raise e)
  | Ok results =>
      let processed := List.map (_process_entry net) (valid_pages results) in
      let es := List.map snd processed in
      (log1 ++ List.flat_map fst processed,
       {| word := word self; entries := PList es |},
       if truthy (PList es) then Ok tt else Raise WordNotFound)
  end.

(** The network [net], except that [url] is answered by [r]. *)
Definition override (net : pystr -> reply) (url : pystr) (r : reply)
  : pystr -> reply :=
  fun u => if bool_decide (u = url) then r else net u.

(** The senses [_fetch_pv_data] hands back for one link. *)
Definition pv_senses (net : pystr -> reply) (verb url : pystr)
  : option (list pyval) :=
  snd (snd (_fetch_pv_data net verb url)).

(** The page a variation URL yields, when it yields one. *)
Definition page_of (net : pystr -> reply) (url : pystr) : option node :=
  match net url with
  | Reply status (Ok soup) => if status =? 200 then Some soup else None
  | _ => None
  end.

(** The fetch of [url] fails, if it fails, with an exception that
    [_fetch_variation] catches. *)
Definition contained (net : pystr -> reply) (url : pystr) : Prop :=
  match net url with
  | NoReply e => is_network_error e = true
  | Reply status (Raise e) => status = 200 -> is_network_error e = true
  | Reply _ (Ok _) => True
  end.

(** *** The cache *)

Definition _get_cache_path (w : world) (self : Word) : result pystr :=
  call h <~ Hash.md5_hex (word self ++ lit "_" ++ CACHE_VERSION) ;;
  Ok (home w ++ lit "/.cache/book2anki/word_cache/" ++ h ++ lit ".json").

(** A file written with [encoding="utf-8"] is read back as the same text
    (the default encoding of the reader is taken to be UTF-8). *)
Definition _try_load_cached_data (w : world) (self : Word)
  : result (Word * bool) :=
  call cache_path <~ _get_cache_path w self ;;
  match fs w !! cache_path with
  | None => Ok (self, false)
  | Some content =>
      match read_raises (io w) with
      | Some _ => Ok (self, false)
      | None =>
          match loads content with
          | Ok v => Ok ({| word := word self; entries := v |}, true)
          | Raise _ => Ok (self, false)
          end
      end
  end.

Definition set_fs (m : gmap pystr pystr) (w : world) : world :=
  {| home := home w; net := net w; io := io w; fs := m;
     requests := requests w |}.

Definition add_requests (log : list pystr) (w : world) : world :=
  {| home := home w; net := net w; io := io w; fs := fs w;
     requests := requests w ++ log |}.

(** [open(path, "w")] creates or empties the file; [f.write(text)] then
    stores the text, unless the text cannot be encoded or the write
    fails. Every exception is caught and printed. *)
Definition _cache_processed_data (w : world) (self : Word) : result world :=
  call cache_path <~ _get_cache_path w self ;;
  match mkdir_raises (io w) with
  | Some _ => Ok w
  | None =>
      match open_raises (io w) with
      | Some _ => Ok w
      | None =>
          let opened := <[cache_path := []]> (fs w) in
          let content := dumps (entries self) in
          match Hash.encode content with
          | Raise _ => Ok (set_fs opened w)
          | Ok _ =>
              match write_raises (io w) with
              | Some (k, _) =>
                  Ok (set_fs (<[cache_path := List.firstn k content]> opened) w)
              | None => Ok (set_fs (<[cache_path := content]> opened) w)
              end
          end
      end
  end.

(** [initialize] *)
Definition initialize (w : world) (self : Word) : world * Word * result unit :=
  match _get_cache_path w self with
  | Raise e => (w, self, Raise e)
  | Ok _ =>
      match _try_load_cached_data w self with
      | Raise e => (w, self, Raise e)
      | Ok (self1, true) => (w, self1, Ok tt)
      | Ok (self1, false) =>
          let '(log, self2, r) := fetch_word (net w) self1 in
          let w1 := add_requests log w in
          match r with
          | Raise e => (w1, self2, Raise e)
          | Ok _ =>
              match _cache_processed_data w1 self2 with
              | Ok w2 => (w2, self2, Ok tt)
              | Raise e => (w1, self2, Raise e)
              end
          end
      end
  end.

End Oald.

(** ** Sample pages

    A small dictionary page for "run" in the structure the scraper looks
    for, the pages of its two phrasal-verb links, and a network that serves
    them. The concrete runs in the properties below use them. *)

Module Samples.
Import Json Soup Oald.

Definition el (name : string) (cls : list string) (kids : list node) : node :=
  Tag (lit name) (List.map lit cls) [] kids.

Definition link (href verb : string) : node :=
  el "li" ["li"%string]
    [ Tag (lit "a") [lit "Ref"] [(lit "href", lit href)]
        [ el "span" ["xh"%string] [Text (lit verb)] ] ].

(** The page of "run up": one sense. *)
Definition pv_page : node :=
  el "[document]" []
    [ el "li" ["sense"%string]
        [ el "span" ["def"%string] [Text (lit "to increase")] ] ].

(** A page without any sense: what "run in" is served as. *)
Definition empty_page : node :=
  el "[document]" [] [ el "p" [] [Text (lit "nothing")] ].

Definition page (idioms : list node) : node :=
  el "[document]" []
    [ el "h1" ["headword"%string] [Text (lit "run")];
      el "span" ["pos"%string] [Text (lit " verb ")];
      el "div" ["phons_n_am"%string]
        [ el "span" ["phon"%string] [Text [47%N; 114%N; 652%N; 110%N; 47%N]];
          Tag (lit "div") [lit "sound"]
            [(lit "data-src-mp3", lit "https://x/a.mp3")] [] ];
      el "ol" []
        [ el "li" ["sense"%string]
            [ el "span" ["def"%string] [Text (lit "to move fast")];
              el "span" ["x"%string] [Text (lit "He ran.")];
              el "div" ["symbols"%string] [ el "span" ["ox3ksym_a1"%string] [] ] ] ];
      el "div" ["idioms"%string] idioms;
      el "aside" ["phrasal_verb_links"%string]
        [ link "https://x/run-up" "run up"; link "https://x/run-in" "run in" ] ].

(** The idiom "run riot" with its definition list. *)
Definition good_page : node :=
  page [ el "span" ["idm"%string] [Text (lit "run riot")];
         el "ol" ["sense_single"%string]
           [ el "span" ["def"%string] [Text (lit "to behave wildly")] ] ].

(** The same page, but the idiom has no definition list after it. *)
Definition bad_page : node :=
  page [ el "span" ["idm"%string] [Text (lit "run riot")] ].

(** Serves [first] as variation 1 of "run", [second] as variation 2, the
    two phrasal-verb pages, and 404 for everything else. *)
Definition serve (first second : reply) (u : pystr) : reply :=
  if bool_decide (u = BASE_URL ++ lit "run_1") then first
  else if bool_decide (u = BASE_URL ++ lit "run_2") then second
  else if bool_decide (u = lit "https://x/run-up") then Reply 200 (Ok pv_page)
  else if bool_decide (u = lit "https://x/run-in") then Reply 200 (Ok empty_page)
  else Reply 404 (Ok empty_page).

Definition not_found : reply := Reply 404 (Ok empty_page).

Definition cold (n : pystr -> reply) (f : faults) : world :=
  {| home := lit "/home/u"; net := n; io := f; fs := ∅; requests := [] |}.

(** The write of the cache file fails after ten characters. *)
Definition short_write : faults :=
  {| read_raises := None; mkdir_raises := None; open_raises := None;
     write_raises := Some (10%nat, OSError) |}.

Definition run_cache_path : pystr :=
  lit "/home/u/.cache/book2anki/word_cache/db5a53c8bc6ade49e4a520d50265abef.json".

End Samples.

(** ** generate/anki.py : what the downloader keeps invariant *)

Module MediaInv.
Import RateLimiter Media.

(** Is an invocation inside [async with self.semaphore]? *)
Definition holding (p : pc) : bool :=
  match p with
  | Limited _ _ | Fetching _ _ | Saving _ _ _ | Backoff _ _ => true
  | Queued | Returned _ | Raised _ => false
  end.

Definition holds (kv : nat * task) : Prop := holding (at_pc (snd kv)) = true.

#[global] Instance holds_dec kv : Decision (holds kv).
Proof. unfold holds. apply _. Defined.

(** The invocations that hold a slot of the semaphore, and those among
    them that are not [id]. *)
Definition holders (w : world) : nat := size (filter holds (tasks w)).

Definition others (id : nat) (w : world) : nat :=
  size (filter holds (delete id (tasks w))).

(** The requests and sleeps of one invocation, by where it stands,
    whatever its fetches answered. *)
Definition ainv (id : nat) (w : world) : Prop :=
  match tasks w !! id with
  | None => attempts_of id w = 0%nat /\ sleeps_of id w = []
  | Some t =>
      match at_pc t with
      | Queued => attempts_of id w = 0%nat /\ sleeps_of id w = []
      | Limited k _ =>
          attempts_of id w = k /\ sleeps_of id w = seqZ k /\ (k < 3)%nat
      | Fetching k _ | Saving k _ _ =>
          attempts_of id w = S k /\ sleeps_of id w = seqZ k /\ (k < 3)%nat
      | Backoff k _ =>
          attempts_of id w = S k /\ sleeps_of id w = seqZ (S k) /\ (k < 2)%nat
      | Returned _ | Raised _ =>
          (attempts_of id w <= 3)%nat /\
          exists k, (k <= 2)%nat /\ sleeps_of id w = seqZ k
      end
  end.

(** An invocation of [u], whose file [f] is in the cache directory, has
    made no request and is waiting or has returned a name. *)
Definition hinv (id : nat) (u f : pystr) (w : world) : Prop :=
  is_Some (disk w !! f) /\
  match tasks w !! id with
  | None => attempts_of id w = 0%nat
  | Some t =>
      url t = u ->
      attempts_of id w = 0%nat /\
      match at_pc t with
      | Queued | Limited _ _ | Returned (Some _) => True
      | _ => False
      end
  end.

End MediaInv.

(** ** scrape/oald.py : a stale cache, and the shape of an entry *)

Module OaldShape.
Import Json Soup Oald Samples.

(** The world of [Samples.cold] with a cache file for "run" that does not
    hold JSON. *)
Definition stale : world :=
  set_fs {[ run_cache_path := lit "[{" ]}
    (cold (serve (Reply 200 (Ok good_page)) not_found) no_faults).

(** A page whose phrasal-verb section lists "run up" twice, with two
    URLs. *)
Definition twice_page : node :=
  el "[document]" []
    [ el "h1" ["headword"%string] [Text (lit "run")];
      el "span" ["pos"%string] [Text (lit "verb")];
      el "aside" ["phrasal_verb_links"%string]
        [ link "https://x/run-up" "run up";
          link "https://x/run-in" "run in";
          link "https://x/run-up-2" " run up " ] ].

(** The shape of what [_process_entry] returns, as checks on a value. *)

Definition is_str (v : pyval) : bool :=
  match v with PStr _ => true | _ => false end.

Definition has_key (k : string) (p : pystr * pyval) : bool :=
  bool_decide (fst p = lit k).

(** A sense: definition, examples and level, all strings. *)
Definition is_sense (v : pyval) : bool :=
  match v with
  | PDict [d; x; l] =>
      has_key "definition" d && is_str (snd d) &&
      has_key "examples" x &&
      match snd x with PList exs => forallb is_str exs | _ => false end &&
      has_key "level" l && is_str (snd l)
  | _ => false
  end.

Definition is_idiom (v : pyval) : bool :=
  match v with
  | PDict [i; d; x] =>
      has_key "idiom" i && is_str (snd i) &&
      has_key "definition" d && is_str (snd d) &&
      has_key "examples" x &&
      match snd x with PList exs => forallb is_str exs | _ => false end
  | _ => false
  end.

(** A phrasal verb: its name and at least one sense. *)
Definition is_phrasal_verb (v : pyval) : bool :=
  match v with
  | PDict [n; s] =>
      has_key "phrasal_verb" n && is_str (snd n) &&
      has_key "senses" s &&
      match snd s with
      | PList (d :: ds) => forallb is_sense (d :: ds)
      | _ => false
      end
  | _ => false
  end.

Definition is_pronunciation (v : pyval) : bool :=
  match v with
  | PDict [i; a] =>
      has_key "ipa" i && is_str (snd i) && has_key "audio" a && is_str (snd a)
  | _ => false
  end.

Definition is_entry (v : pyval) : bool :=
  match v with
  | PDict [h; p; pr; m; i; pv] =>
      has_key "headword" h && is_str (snd h) &&
      has_key "part_of_speech" p && is_str (snd p) &&
      has_key "pronunciations" pr &&
      match snd pr with
      | PDict [uk; us] =>
          has_key "uk" uk && is_pronunciation (snd uk) &&
          has_key "us" us && is_pronunciation (snd us)
      | _ => false
      end &&
      has_key "meanings" m &&
      match snd m with PList ms => forallb is_sense ms | _ => false end &&
      has_key "idioms" i &&
      match snd i with PList ids => forallb is_idiom ids | _ => false end &&
      has_key "phrasal_verbs" pv &&
      match snd pv with PList pvs => forallb is_phrasal_verb pvs | _ => false end
  | _ => false
  end.

(** What an element of [entries] is after a fetch: a full entry, or the
    empty dict of an entry whose processing raised. *)
Definition is_entry_or_empty (v : pyval) : bool :=
  match v with
  | PDict [] => true
  | _ => is_entry v
  end.

(** The name of a phrasal-verb record. *)
Definition pv_name (v : pyval) : pystr :=
  match v with
  | PDict ((_, PStr name) :: _) => name
  | _ => []
  end.

End OaldShape.

(** ** process/book.py : BookProcessor *)

Module Book.
Import Soup.

(** The exceptions [extract_words] raises itself or lets through from
    [process_book]. *)
Inductive error : Type :=
| FileNotFoundError
| ValueError.

Inductive outcome (A : Type) : Type :=
| Returns (a : A)
| Raises (e : error).
Arguments Returns {A} a.
Arguments Raises {A} e.

Definition CEFR_ORDER : list pystr :=
  [lit "A1"; lit "A2"; lit "B1"; lit "B2"; lit "C1"].

(** The part-of-speech codes given to [Word.lemmatize]: 'v', 'a', 'r', and
    the default, the noun. *)
Inductive pos : Type := Verb | Adjective | Adverb | Noun.

(** [l.index(x)] when [x in l] *)
Fixpoint index (x : pystr) (l : list pystr) : option nat :=
  match l with
  | [] => None
  | y :: rest =>
      if bool_decide (y = x) then Some 0%nat
      else match index x rest with
           | Some i => Some (S i)
           | None => None
           end
  end.

Record BookProcessor : Type := mkBookProcessor {
  default_stopwords : gset pystr;
  known_words : gset pystr;
  names : gset pystr;
  (* the lines of cefr/<level>.txt, when the file exists *)
  cefr_files : pystr -> option (list pystr)
}.

Section Processor.

(** [str.lower], [str.upper] and [str.isalpha], which follow the Unicode
    tables, and WordNet's lemmatizer behind [textblob.Word.lemmatize]. *)
Variable lower upper : pystr -> pystr.
Variable isalpha : pystr -> bool.
Variable lemmatize : pystr -> pos -> pystr.

(** [_load_stopwords], [_load_known_words] and [_load_names] on the lines
    of their file, or on no file. *)
Definition load_words (file : option (list pystr)) : gset pystr :=
  match file with
  | None => ∅
  | Some lines =>
      List.fold_left
        (fun words line =>
           match lower (strip line) with
           | [] => words
           | word => {[ word ]} ∪ words
           end)
        lines ∅
  end.

Definition __init__ (stopwords_file known_words_file names_file
                       : option (list pystr))
    (cefr : pystr -> option (list pystr)) : BookProcessor :=
  {| default_stopwords := load_words stopwords_file;
     known_words := load_words known_words_file;
     names := load_words names_file;
     cefr_files := cefr |}.

(** [_load_cefr_words] *)
Definition _load_cefr_words (self : BookProcessor) (levels : list pystr)
  : gset pystr :=
  List.fold_left
    (fun cefr_words level =>
       match cefr_files self level with
       | None => cefr_words
       | Some lines =>
           List.fold_left
             (fun words line =>
                match strip line with
                | [] => words
                | _ => {[ lower (strip line) ]} ∪ words
                end)
             lines cefr_words
       end)
    levels ∅.

(** [_lemmatize_word] *)
Definition _lemmatize_word (word : pystr) : pystr :=
  let word := lower (strip word) in
  match List.find (fun pos_code => negb (bool_decide (lemmatize word pos_code = word)))
          [Verb; Adjective; Adverb] with
  | Some pos_code => lemmatize word pos_code
  | None => lemmatize word Noun
  end.

(** The words that are left out, as [extract_words] collects them before
    its loop. A level that is not in [CEFR_ORDER] raises ValueError. *)
Definition excluded_words (self : BookProcessor) (exclude_up_to : option pystr)
    (exclude_names : bool) : outcome (gset pystr) :=
  let excluded := default_stopwords self ∪ known_words self in
  let with_names (s : gset pystr) :=
    if exclude_names then s ∪ names self else s in
  match exclude_up_to with
  | None | Some [] => Returns (with_names excluded)
  | Some level =>
      match index (upper level) CEFR_ORDER with
      | None => Raises ValueError
      | Some cutoff_index =>
          let levels_to_exclude := List.firstn (cutoff_index + 1) CEFR_ORDER in
          Returns (with_names (excluded ∪ _load_cefr_words self levels_to_exclude))
      end
  end.

(** One turn of the loop over [all_words], on [seen] and [words]. *)
Definition visit (lemmatize_flag : bool) (min_length : Z)
    (excluded : gset pystr) (st : gset pystr * list pystr) (word : pystr)
  : gset pystr * list pystr :=
  let lemma := if lemmatize_flag then _lemmatize_word word else lower word in
  if negb (isalpha lemma)
     || bool_decide (lemma ∈ excluded)
     || bool_decide (lemma ∈ fst st)
     || (Z.of_nat (length lemma) <? min_length)
  then st
  else ({[ lemma ]} ∪ fst st, snd st ++ [lemma]).

(** [extract_words]; [book] is what [TextBlob(self.process_book(file_path)).words]
    gives, the tokens of the text or the exception of [process_book]. *)
Definition extract_words (self : BookProcessor) (book : outcome (list pystr))
    (lemmatize_flag : bool) (min_length : Z) (exclude_up_to : option pystr)
    (exclude_names : bool) : outcome (list pystr * nat) :=
  match book with
  | Raises e => Raises e
  | Returns all_words =>
      match excluded_words self exclude_up_to exclude_names with
      | Raises e => Raises e
      | Returns excluded =>
          Returns
            (snd (List.fold_left (visit lemmatize_flag min_length excluded)
                    all_words (∅, [])),
             length all_words)
      end
  end.

(** The lemma the loop computes for a token. *)
Definition lemma_of (lemmatize_flag : bool) (word : pystr) : pystr :=
  if lemmatize_flag then _lemmatize_word word else lower word.

(** The test of the loop, without the [seen] part. *)
Definition kept (min_length : Z) (excluded : gset pystr) (lemma : pystr)
  : bool :=
  isalpha lemma && negb (bool_decide (lemma ∈ excluded))
  && negb (Z.of_nat (length lemma) <? min_length).

End Processor.

(** Concrete instances for running the definitions: ASCII letters, and a
    lemmatizer that only knows the verb form "ran". *)
Definition ascii_isalpha (s : pystr) : bool :=
  match s with
  | [] => false
  | _ => forallb (fun c => ((65 <=? c) && (c <=? 90)
                            || (97 <=? c) && (c <=? 122))%N) s
  end.

Definition toy_lemmatize (word : pystr) (p : pos) : pystr :=
  match p with
  | Verb => if bool_decide (word = lit "ran") then lit "run" else word
  | _ => word
  end.

Definition toy_processor : BookProcessor :=
  __init__ Soup.lower (Some [lit "the"; lit " A "; []]) None (Some [lit "Tom"])
    (fun level =>
       if bool_decide (level = lit "A1") then Some [lit "run"; lit " "]
       else if bool_decide (level = lit "B1") then Some [lit "wild"]
       else None).

Definition toy_tokens : list pystr :=
  [lit "The"; lit "dog"; lit "ran"; lit "wild"; lit "Tom"; lit "x2";
   lit "dog"; lit "is"; lit "Dog"].

Definition toy_book : outcome (list pystr) := Returns toy_tokens.

Definition toy_extract (exclude_up_to : option pystr)
  : outcome (list pystr * nat) :=
  extract_words Soup.lower Soup.upper ascii_isalpha toy_lemmatize
    toy_processor toy_book true 3 exclude_up_to true.

End Book.

(** ** book2anki.py : update_known_words *)

Module Main.
Import Oald.

(** The characters [str.splitlines] breaks a line at. *)
Definition is_linebreak (c : N) : bool :=
  ((c =? 10) || (c =? 13) || (c =? 11) || (c =? 12) || (c =? 28) || (c =? 29)
   || (c =? 30) || (c =? 0x85) || (c =? 0x2028) || (c =? 0x2029))%N.

(** [s.splitlines()]; [cur] is the line begun, backwards. A carriage
    return followed by a line feed is one break, and a break at the end of
    the text begins no further line. *)
Fixpoint splitlines_from (cur : pystr) (s : pystr) : list pystr :=
  match s with
  | [] => match cur with [] => [] | _ => [List.rev cur] end
  | c :: rest =>
      if is_linebreak c then
        List.rev cur ::
        match rest with
        | c' :: rest' =>
            if ((c =? 13) && (c' =? 10))%N then splitlines_from [] rest'
            else splitlines_from [] rest
        | [] => splitlines_from [] rest
        end
      else splitlines_from (c :: cur) rest
  end.

Definition splitlines (s : pystr) : list pystr := splitlines_from [] s.

(** [sep.join(items)] *)
Fixpoint join (sep : pystr) (items : list pystr) : pystr :=
  match items with
  | [] => []
  | [x] => x
  | x :: rest => x ++ sep ++ join sep rest
  end.

Section Update.

(** The order in which Python iterates over a set of strings. *)
Variable order : gset pystr -> list pystr.

(** [update_known_words] on config/known_words.txt, which holds
    [file], or is not there. Every exception is caught and printed; what
    the file holds afterwards is returned. *)
Definition update_known_words (io : faults) (file : option pystr)
    (new_words : list pystr) : option pystr :=
  match mkdir_raises io with
  | Some _ => file
  | None =>
      let existing : result (gset pystr) :=
        match file with
        | None => Ok ∅
        | Some content =>
            match read_raises io with
            | Some e => Raise e
            | None => Ok (list_to_set (splitlines content))
            end
        end in
      match existing with
      | Raise _ => file
      | Ok existing =>
          let new_unique : gset pystr := list_to_set new_words ∖ existing in
          if bool_decide (new_unique = ∅) then file
          else
            match open_raises io with
            | Some _ => file
            | None =>
                let opened := default [] file in
                let text := join [10%N] (order new_unique) ++ [10%N] in
                match Hash.encode text with
                | Raise _ => Some opened
                | Ok _ =>
                    match write_raises io with
                    | Some (k, _) => Some (opened ++ List.firstn k text)
                    | None => Some (opened ++ text)
                    end
                end
            end
      end
  end.

End Update.

(** A word that can be one line of the file: no line break in it, and
    every character can be encoded. *)
Definition line_safe (w : pystr) : bool :=
  forallb (fun c => negb (is_linebreak c)
                    && match Hash.encode_char c with
                       | Some _ => true
                       | None => false
                       end) w.

(** The file is empty or ends with a line feed. *)
Definition ends_with_newline (content : pystr) : bool :=
  match List.rev content with
  | [] => true
  | c :: _ => (c =? 10)%N
  end.

(** The lines of the file, as the set [existing]. *)
Definition lines_of (file : option pystr) : gset pystr :=
  list_to_set (splitlines (default [] file)).

(** An order to run the definition with. *)
Definition sorted_order (s : gset pystr) : list pystr := elements s.

End Main.

(** ** generate/anki.py : AnkiGenerator *)

Module Anki.
Import Json.

(** The exceptions of this part: those of [Py.exn], and three more
    built-in ones. *)
Inductive error : Type :=
| Builtin (e : exn)
| KeyError
| TypeError
| ValueError.

Inductive outcome (A : Type) : Type :=
| Done (a : A)
| Fails (e : error).
Arguments Done {A} a.
Arguments Fails {A} e.

Definition and_then {A B} (r : outcome A) (k : A -> outcome B) : outcome B :=
  match r with Done a => k a | Fails e => Fails e end.

(** *** Deck ids *)

(** The value of a hexadecimal digit. *)
Definition hex_value (c : N) : option Z :=
  (if (48 <=? c) && (c <=? 57) then Some (Z.of_N c - 48)%Z
   else if (97 <=? c) && (c <=? 102) then Some (Z.of_N c - 87)%Z
   else if (65 <=? c) && (c <=? 70) then Some (Z.of_N c - 55)%Z
   else None)%N.

(** [int(s, 16)] on a string of hexadecimal digits, which is all that is
    cut out of a hexdigest; on other strings ValueError. *)
Fixpoint int16_from (acc : Z) (s : pystr) : outcome Z :=
  match s with
  | [] => Done acc
  | c :: rest =>
      match hex_value c with
      | Some v => int16_from (16 * acc + v) rest
      | None => Fails ValueError
      end
  end.

Definition int16 (s : pystr) : outcome Z :=
  match s with
  | [] => Fails ValueError
  | _ => int16_from 0 s
  end.

(** [_generate_deck_id] *)
Definition _generate_deck_id (name : pystr) : outcome Z :=
  match Hash.md5_hex name with
  | Raise e => Fails (Builtin e)
  | Ok digest =>
      and_then (int16 (List.firstn 8 digest)) (fun n => Done (n mod 10 ^ 10))
  end.

(** [_create_decks]: the ids of the main deck and of its three parts. *)
Definition _create_decks (base_name : pystr) : outcome (Z * Z * Z * Z) :=
  and_then (_generate_deck_id base_name) (fun main_id =>
  and_then (_generate_deck_id (base_name ++ lit "::Words")) (fun words_id =>
  and_then (_generate_deck_id (base_name ++ lit "::Idioms")) (fun idioms_id =>
  and_then (_generate_deck_id (base_name ++ lit "::Phrasal Verbs"))
    (fun phrasal_id => Done (main_id, words_id, idioms_id, phrasal_id))))).

(** *** Values *)

Fixpoint dict_get (k : pystr) (d : list (pystr * pyval)) : option pyval :=
  match d with
  | [] => None
  | (k', v) :: rest => if bool_decide (k' = k) then Some v else dict_get k rest
  end.

(** [d.get(k, default)]: only a dict has [get]. *)
Definition get (d : pyval) (k : string) (default : pyval) : outcome pyval :=
  match d with
  | PDict pairs =>
      Done match dict_get (lit k) pairs with
           | Some v => v
           | None => default
           end
  | _ => Fails (Builtin AttributeError)
  end.

(** [d[k]] for a string [k] *)
Definition getitem (d : pyval) (k : string) : outcome pyval :=
  match d with
  | PDict pairs =>
      match dict_get (lit k) pairs with
      | Some v => Done v
      | None => Fails KeyError
      end
  | _ => Fails TypeError
  end.

(** [for x in v] *)
Definition iterate (v : pyval) : outcome (list pyval) :=
  match v with
  | PList items => Done items
  | PStr s => Done (List.map (fun c => PStr [c]) s)
  | PDict pairs => Done (List.map (fun p => PStr (fst p)) pairs)
  | PNone | PBool _ | PNum _ => Fails TypeError
  end.

Fixpoint map_outcome {A B} (f : A -> outcome B) (l : list A)
  : outcome (list B) :=
  match l with
  | [] => Done []
  | x :: rest =>
      and_then (f x) (fun y =>
      and_then (map_outcome f rest) (fun ys => Done (y :: ys)))
  end.

Definition q : pystr := [34%N].
Definition nl (indent : nat) : pystr := 10%N :: List.repeat 32%N indent.

Record AnkiGenerator : Type := mkAnkiGenerator {
  words_deck : list (list pyval);     (* the fields of the notes, in order *)
  idioms_deck : list (list pyval);
  phrasal_deck : list (list pyval);
  media_files : list pystr;
  valid_words : nat
}.

Definition add_word_note (note : list pyval) (self : AnkiGenerator)
  : AnkiGenerator :=
  {| words_deck := words_deck self ++ [note];
     idioms_deck := idioms_deck self; phrasal_deck := phrasal_deck self;
     media_files := media_files self; valid_words := valid_words self |}.

Definition add_idiom_note (note : list pyval) (self : AnkiGenerator)
  : AnkiGenerator :=
  {| words_deck := words_deck self;
     idioms_deck := idioms_deck self ++ [note];
     phrasal_deck := phrasal_deck self;
     media_files := media_files self; valid_words := valid_words self |}.

Definition add_phrasal_note (note : list pyval) (self : AnkiGenerator)
  : AnkiGenerator :=
  {| words_deck := words_deck self; idioms_deck := idioms_deck self;
     phrasal_deck := phrasal_deck self ++ [note];
     media_files := media_files self; valid_words := valid_words self |}.

Definition add_media (path : pystr) (self : AnkiGenerator) : AnkiGenerator :=
  {| words_deck := words_deck self; idioms_deck := idioms_deck self;
     phrasal_deck := phrasal_deck self;
     media_files := media_files self ++ [path];
     valid_words := valid_words self |}.

Definition count_word (self : AnkiGenerator) : AnkiGenerator :=
  {| words_deck := words_deck self; idioms_deck := idioms_deck self;
     phrasal_deck := phrasal_deck self; media_files := media_files self;
     valid_words := S (valid_words self) |}.

Section Runtime.

(** [str(v)] for a value that is not a string, the truth value of a
    number given by its literal, [str(cache_dir / filename)], and what
    awaiting [download_audio(url)] gives for a string. *)
Variable repr : pyval -> pystr.
Variable number_truth : pystr -> bool.
Variable media_path : pystr -> pystr.
Variable download_audio : pystr -> result (option pystr).

(** [bool(v)] *)
Definition truth (v : pyval) : bool :=
  match v with
  | PNum literal => number_truth literal
  | _ => truthy v
  end.

(** [{v}] in an f-string *)
Definition format_value (v : pyval) : pystr :=
  match v with
  | PStr s => s
  | _ => repr v
  end.

(** *** Formatting *)

(** The [li] items of the examples, joined without a separator. *)
Definition example_items (examples : pyval) : outcome pystr :=
  and_then (iterate examples) (fun items =>
  Done (List.flat_map
          (fun ex => lit "<li class=" ++ q ++ lit "example" ++ q ++ lit ">"
                     ++ format_value ex ++ lit "</li>")
          items)).

(** The [ul] element around the items, or nothing when [examples] is
    false. *)
Definition examples_list (examples : pyval) (examples_html : pystr) : pystr :=
  if truth examples then
    lit "<ul class=" ++ q ++ lit "examples-list" ++ q ++ lit ">"
    ++ examples_html ++ lit "</ul>"
  else [].

Definition format_meaning (meaning : pyval) : outcome pystr :=
  and_then (get meaning "definition" (PStr [])) (fun definition =>
  and_then (get meaning "examples" (PList [])) (fun examples =>
  and_then (get meaning "level" (PStr [])) (fun level =>
  and_then (if truth examples then example_items examples else Done [])
    (fun examples_html =>
  Done (nl 16 ++ lit "<div class=" ++ q ++ lit "meaning-container" ++ q ++ lit ">"
        ++ nl 20 ++ lit "<div class=" ++ q ++ lit "meaning-header" ++ q ++ lit ">"
        ++ nl 24 ++ lit "<span class=" ++ q ++ lit "meaning-text definition-text"
        ++ q ++ lit ">" ++ format_value definition ++ lit "</span>"
        ++ nl 20 ++ lit "</div>"
        ++ nl 20 ++ examples_list examples examples_html
        ++ nl 16 ++ lit "</div>"
        ++ nl 12))))).

(** [_format_meanings] *)
Definition _format_meanings (meanings : pyval) : outcome pystr :=
  and_then (iterate meanings) (fun items =>
  and_then (map_outcome format_meaning items) (fun html =>
  Done (List.concat html))).

Definition format_sense (sense : pyval) : outcome pystr :=
  and_then (get sense "definition" (PStr [])) (fun definition =>
  and_then (get sense "examples" (PList [])) (fun examples =>
  and_then (get sense "level" (PStr [])) (fun level =>
  and_then (if truth examples then example_items examples else Done [])
    (fun examples_html =>
  Done (nl 16 ++ lit "<div class=" ++ q ++ lit "meaning-container" ++ q ++ lit ">"
        ++ nl 20 ++ lit "<div class=" ++ q ++ lit "sense-header" ++ q ++ lit ">"
        ++ nl 24 ++ lit "<span class=" ++ q
        ++ lit "sense-definition definition-text" ++ q ++ lit ">"
        ++ format_value definition ++ lit "</span>"
        ++ nl 24 ++ (if truth level then
                       lit "<span class=" ++ q ++ lit "cefr" ++ q ++ lit ">"
                       ++ format_value level ++ lit "</span>"
                     else [])
        ++ nl 20 ++ lit "</div>"
        ++ nl 20 ++ examples_list examples examples_html
        ++ nl 16 ++ lit "</div>"
        ++ nl 12))))).

(** [_format_phrasal_definitions] *)
Definition _format_phrasal_definitions (senses : pyval) : outcome pystr :=
  and_then (iterate senses) (fun items =>
  and_then (map_outcome format_sense items) (fun html =>
  Done (List.concat html))).

(** [_format_idiom_examples] *)
Definition _format_idiom_examples (examples : pyval) : outcome pystr :=
  if truth examples then
    and_then (example_items examples) (fun items =>
    Done (lit "<ul class='examples-list'>" ++ items ++ lit "</ul>"))
  else Done [].

(** *** Notes *)

(** [_safe_download]: a value that is not a string makes [download_audio]
    raise, TypeError when it cannot be hashed and AttributeError at
    [url.encode()] otherwise, and every exception gives the empty
    string. *)
Definition _safe_download (self : AnkiGenerator) (url : pyval)
  : AnkiGenerator * pystr :=
  if truth url then
    match url with
    | PStr u =>
        match download_audio u with
        | Ok (Some (c :: filename)) =>
            (add_media (media_path (c :: filename)) self, c :: filename)
        | _ => (self, [])
        end
    | _ => (self, [])
    end
  else (self, []).

(** [_process_main_entry]; the media file of a download stays recorded
    when building the note fails afterwards. *)
Definition _process_main_entry (self : AnkiGenerator) (entry : pyval)
  : AnkiGenerator :=
  match and_then (get entry "pronunciations" (PDict [])) (fun pronunciations =>
        and_then (get pronunciations "us" (PDict [])) (fun us_pron =>
        and_then (get us_pron "audio" PNone) (fun audio =>
        Done (us_pron, audio)))) with
  | Fails _ => self
  | Done (us_pron, audio) =>
      let '(self1, us_audio) := _safe_download self audio in
      match and_then (get entry "headword" (PStr [])) (fun headword =>
            and_then (get entry "part_of_speech" (PStr [])) (fun part =>
            and_then (get entry "meanings" (PList [])) (fun meanings =>
            and_then (_format_meanings meanings) (fun meanings_html =>
            and_then (get us_pron "ipa" (PStr [])) (fun ipa =>
            Done [ headword; part; PStr meanings_html; ipa;
                   PStr match us_audio with
                        | [] => []
                        | _ => lit "[sound:" ++ us_audio ++ lit "]"
                        end ]))))) with
      | Fails _ => self1
      | Done note_fields => add_word_note note_fields self1
      end
  end.

(** A loop that adds a note for every item and stops at the first
    exception, keeping the notes added before. *)
Fixpoint add_notes (note_of : pyval -> outcome (list pyval))
    (add : list pyval -> AnkiGenerator -> AnkiGenerator)
    (self : AnkiGenerator) (items : list pyval)
  : AnkiGenerator * outcome unit :=
  match items with
  | [] => (self, Done tt)
  | item :: rest =>
      match note_of item with
      | Fails e => (self, Fails e)
      | Done note => add_notes note_of add (add note self) rest
      end
  end.

Definition idiom_note (idiom : pyval) : outcome (list pyval) :=
  and_then (getitem idiom "idiom") (fun name =>
  and_then (getitem idiom "definition") (fun definition =>
  and_then (getitem idiom "examples") (fun examples =>
  and_then (_format_idiom_examples examples) (fun examples_html =>
  Done [name; definition; PStr examples_html])))).

(** [_process_idioms] *)
Definition _process_idioms (self : AnkiGenerator) (idioms : pyval)
  : AnkiGenerator * outcome unit :=
  match iterate idioms with
  | Fails e => (self, Fails e)
  | Done items => add_notes idiom_note add_idiom_note self items
  end.

Definition phrasal_note (pv : pyval) : outcome (list pyval) :=
  and_then (getitem pv "phrasal_verb") (fun name =>
  and_then (getitem pv "senses") (fun senses =>
  and_then (_format_phrasal_definitions senses) (fun definitions =>
  Done [name; PStr definitions]))).

(** [_process_phrasal_verbs] *)
Definition _process_phrasal_verbs (self : AnkiGenerator) (phrasal_verbs : pyval)
  : AnkiGenerator * outcome unit :=
  match iterate phrasal_verbs with
  | Fails e => (self, Fails e)
  | Done items => add_notes phrasal_note add_phrasal_note self items
  end.

(** [_process_entry] *)
Definition _process_entry (self : AnkiGenerator) (entry : pyval)
  : AnkiGenerator * outcome unit :=
  let self1 := _process_main_entry self entry in
  match get entry "idioms" (PList []) with
  | Fails e => (self1, Fails e)
  | Done idioms =>
      match _process_idioms self1 idioms with
      | (self2, Fails e) => (self2, Fails e)
      | (self2, Done _) =>
          match get entry "phrasal_verbs" (PList []) with
          | Fails e => (self2, Fails e)
          | Done phrasal_verbs => _process_phrasal_verbs self2 phrasal_verbs
          end
      end
  end.

(** [_process_word], on the world of the scraper. *)
Definition _process_word (w : Oald.world) (self : AnkiGenerator)
    (word_str : pystr) : Oald.world * AnkiGenerator * option pyval :=
  let '(w', word, r) := Oald.initialize w (Oald.__init__ word_str) in
  match r with
  | Ok _ => (w', count_word self, Some (Oald.entries word))
  | Raise _ => (w', self, None)
  end.

End Runtime.

(** A note of [n] fields that are all strings. *)
Definition text_note (n : nat) (note : list pyval) : Prop :=
  length note = n /\ forallb OaldShape.is_str note = true.

Definition empty_generator : AnkiGenerator :=
  {| words_deck := []; idioms_deck := []; phrasal_deck := [];
     media_files := []; valid_words := 0 |}.

(** Instances to run the definitions with: no value but a string is
    printed, every number is true, and every download succeeds with the
    name [a.mp3]. *)
Definition toy_repr (v : pyval) : pystr := lit "?".
Definition toy_truth (literal : pystr) : bool := true.
Definition toy_path (filename : pystr) : pystr := lit "/media/" ++ filename.
Definition toy_download (url : pystr) : result (option pystr) :=
  Ok (Some (lit "a.mp3")).

End Anki.

(* ================================================================== *)
(** * Properties *)
(* ================================================================== *)

(** ** hashlib.md5: test vectors *)

Module HashFacts.
Import Hash.

Example md5_empty :
  md5_hex (lit "") = Ok (lit "d41d8cd98f00b204e9800998ecf8427e").
Proof. vm_compute. reflexivity. Qed.

Example md5_abc :
  md5_hex (lit "abc") = Ok (lit "900150983cd24fb0d6963f7d28e17f72").
Proof. vm_compute. reflexivity. Qed.

(** 56 bytes: the padding spills into a second block. *)
Example md5_two_blocks :
  md5_hex (lit "aaaaaaaaaaaaaaaaaaaaaaaaaaaaaaaaaaaaaaaaaaaaaaaaaaaaaaaa")
  = Ok (lit "3b0c8ac703f828b04c6c197006d17218").
Proof. vm_compute. reflexivity. Qed.

(** U+00E9 is encoded on two bytes. *)
Example md5_non_ascii :
  md5_hex [233%N] = Ok (lit "66ddcd97cfdeabb2f6fb8a999b4bc76f").
Proof. vm_compute. reflexivity. Qed.

Example md5_lone_surrogate : md5_hex [0xD800%N] = Raise UnicodeEncodeError.
Proof. reflexivity. Qed.

(** The cache key of the word "run". *)
Example md5_run_v1 :
  md5_hex (lit "run_v1") = Ok (lit "db5a53c8bc6ade49e4a520d50265abef").
Proof. vm_compute. reflexivity. Qed.

End HashFacts.

(** ** The rate limiter *)

Module RateLimiterFacts.
Import RateLimiter.

Lemma purge_young now p ts :
  StronglySorted Z.le ts -> purge now p ts = young now p ts.
Proof.
  induction 1 as [|t ts Hs IH Hall]; [reflexivity|].
  cbn [purge]. unfold young. cbn [List.filter].
  destruct (Z.leb_spec t (now - p)) as [Hle|Hgt].
  - assert ((now - p <? t) = false) as -> by lia. apply IH.
  - assert ((now - p <? t) = true) as -> by lia. f_equal.
    symmetry. apply forallb_filter_id. apply forallb_forall.
    intros x Hx. rewrite Forall_forall in Hall.
    assert (t <= x) by (apply Hall; apply list_elem_of_In; exact Hx). lia.
Qed.

Lemma young_old now p old :
  Forall (fun t => t <= now - p) old -> young now p old = [].
Proof.
  induction 1 as [|t old Ht _ IH]; [reflexivity|].
  unfold young in *. cbn [List.filter].
  assert ((now - p <? t) = false) as -> by lia. exact IH.
Qed.

Lemma sorted_app_r (l1 l2 : list Z) :
  StronglySorted Z.le (l1 ++ l2) -> StronglySorted Z.le l2.
Proof.
  induction l1 as [|x l1 IH]; [trivial|].
  cbn. intros H. inversion H; subst. auto.
Qed.

Lemma sorted_snoc (l : list Z) x :
  StronglySorted Z.le l -> Forall (fun t => t <= x) l ->
  StronglySorted Z.le (l ++ [x]).
Proof.
  induction 1 as [|t l Hs IH Hall]; intros Hx; cbn.
  - constructor; constructor.
  - inversion Hx; subst. constructor; [auto|].
    apply Forall_app. split; [exact Hall|]. constructor; [lia|constructor].
Qed.

(** In a reachable state the purged deque is exactly the granted times
    younger than a period. *)
Lemma purge_reachable s now :
  inv s -> clock s <= now ->
  purge now (period (lim s)) (timestamps (lim s))
  = young now (period (lim s)) (List.map snd (granted s)).
Proof.
  intros [(old & Hsplit & Hold) Hsorted _] Hnow.
  rewrite Hsplit in *.
  rewrite purge_young by (eapply sorted_app_r; eauto).
  unfold young at 2. rewrite List.filter_app.
  fold (young now (period (lim s)) old).
  rewrite (young_old now _ old) by (eapply Forall_impl; [exact Hold|]; cbn; intros; lia).
  reflexivity.
Qed.

Lemma purge_suffix now p ts :
  exists gone, ts = gone ++ purge now p ts /\ Forall (fun t => t <= now - p) gone.
Proof.
  induction ts as [|t ts IH]; cbn.
  - exists []. split; [reflexivity|constructor].
  - destruct (Z.leb_spec t (now - p)) as [Hle|Hgt].
    + destruct IH as (gone & Heq & Hall).
      exists (t :: gone). split; [cbn; f_equal; exact Heq|].
      constructor; assumption.
    + exists []. split; [reflexivity|constructor].
Qed.

Lemma wait_config now l :
  max_calls (fst (wait now l)) = max_calls l /\
  period (fst (wait now l)) = period l.
Proof.
  unfold wait.
  destruct (_ <? _); [split; reflexivity|].
  destruct (purge _ _ _); split; reflexivity.
Qed.

Lemma step_inv s ev s' : inv s -> step s ev = Some s' -> inv s'.
Proof.
  intros Hinv. destruct ev as [c now]. unfold step.
  destruct (runnable s c now) eqn:Hr; [|discriminate].
  assert (Hnow : clock s <= now).
  { unfold runnable in Hr. apply andb_true_iff in Hr. lia. }
  pose proof (purge_suffix now (period (lim s)) (timestamps (lim s)))
    as (gone & Hgone & Hgold).
  destruct Hinv as [(old & Hsplit & Hold) Hsorted Hclock].
  assert (Hold' : Forall (fun t => t <= now - period (lim s)) (old ++ gone)).
  { apply Forall_app. split; [|exact Hgold].
    eapply Forall_impl; [exact Hold|]. cbn. intros; lia. }
  assert (Hclock' : Forall (fun t => t <= now) (List.map snd (granted s))).
  { eapply Forall_impl; [exact Hclock|]. cbn. intros; lia. }
  unfold wait.
  set (ts := purge now (period (lim s)) (timestamps (lim s))) in *.
  assert (Hsp : List.map snd (granted s) = (old ++ gone) ++ ts).
  { rewrite Hsplit, Hgone at 1. now rewrite <- app_assoc. }
  destruct (Z.of_nat (length ts) <? max_calls (lim s)).
  - intros [= <-]. split; cbn.
    + exists (old ++ gone). split; [|exact Hold'].
      rewrite List.map_app. cbn. rewrite Hsp. now rewrite <- !app_assoc.
    + rewrite List.map_app. cbn. apply sorted_snoc; assumption.
    + rewrite List.map_app. apply Forall_app. split; [exact Hclock'|].
      constructor; [cbn; lia|constructor].
  - destruct ts eqn:Hts; intros [= <-]; (split; cbn;
      [ exists (old ++ gone); split; [rewrite Hsp; reflexivity|exact Hold']
      | exact Hsorted | exact Hclock' ]).
Qed.

Lemma start_inv mc p : inv (start mc p).
Proof.
  split; cbn.
  - exists []. split; [reflexivity|constructor].
  - constructor.
  - constructor.
Qed.

Lemma run_inv sched : forall s s', inv s -> run sched s = Some s' -> inv s'.
Proof.
  induction sched as [|ev sched IH]; cbn; intros s s' Hinv.
  - intros [= <-]. exact Hinv.
  - destruct (step s ev) as [s1|] eqn:Hstep; [|discriminate].
    apply IH. eapply step_inv; eauto.
Qed.

Lemma step_config s ev s' :
  step s ev = Some s' ->
  max_calls (lim s') = max_calls (lim s) /\ period (lim s') = period (lim s).
Proof.
  destruct ev as [c now]. unfold step.
  destruct (runnable s c now); [|discriminate].
  pose proof (wait_config now (lim s)) as Hc.
  destruct (wait now (lim s)) as [l' o]. cbn in Hc.
  destruct o; intros [= <-]; exact Hc.
Qed.

Lemma run_config sched : forall s s',
  run sched s = Some s' ->
  max_calls (lim s') = max_calls (lim s) /\ period (lim s') = period (lim s).
Proof.
  induction sched as [|ev sched IH]; cbn; intros s s'.
  - intros [= <-]. split; reflexivity.
  - destruct (step s ev) as [s1|] eqn:Hstep; [|discriminate].
    intros Hrun. apply IH in Hrun. apply step_config in Hstep.
    destruct Hrun, Hstep. split; congruence.
Qed.

Lemma filter_length_le {A} (f g : A -> bool) (l : list A) :
  (forall x, f x = true -> g x = true) ->
  (length (List.filter f l) <= length (List.filter g l))%nat.
Proof.
  intros Hfg. induction l as [|x l IH]; cbn; [lia|].
  destruct (f x) eqn:Hf.
  - rewrite (Hfg x Hf). cbn. lia.
  - destruct (g x); cbn; lia.
Qed.

Lemma young_map now p (g : list (nat * Z)) :
  length (young now p (List.map snd g))
  = length (List.filter (fun e => now - p <? snd e) g).
Proof.
  unfold young. induction g as [|e g IH]; cbn; [reflexivity|].
  destruct (now - p <? snd e); cbn; congruence.
Qed.

(** What a step that grants a permit does, in a reachable state. *)
Lemma step_grants s c now s' :
  inv s -> step s (c, now) = Some s' -> tasks s' !! c = Some (Granted now) ->
  Z.of_nat (length (young now (period (lim s)) (List.map snd (granted s))))
    < max_calls (lim s) /\
  timestamps (lim s')
    = young now (period (lim s)) (List.map snd (granted s)) ++ [now] /\
  granted s' = granted s ++ [(c, now)].
Proof.
  intros Hinv. unfold step.
  destruct (runnable s c now) eqn:Hr; [|discriminate].
  assert (Hnow : clock s <= now).
  { unfold runnable in Hr. apply andb_true_iff in Hr. lia. }
  unfold wait. rewrite (purge_reachable s now Hinv Hnow).
  set (ys := young now (period (lim s)) (List.map snd (granted s))).
  destruct (Z.ltb_spec (Z.of_nat (length ys)) (max_calls (lim s))) as [Hlt|Hge].
  - intros [= <-] _. cbn. auto.
  - destruct ys; intros [= <-]; cbn; rewrite lookup_insert_eq; discriminate.
Qed.

Lemma step_keeps_grants s c now s' :
  step s (c, now) = Some s' -> tasks s' !! c <> Some (Granted now) ->
  granted s' = granted s.
Proof.
  unfold step. destruct (runnable s c now); [|discriminate].
  destruct (wait now (lim s)) as [l' o].
  destruct o; intros [= <-]; cbn; [|reflexivity..].
  rewrite lookup_insert_eq. congruence.
Qed.

Lemma step_bounded s ev s' :
  inv s -> bounded s -> step s ev = Some s' -> bounded s'.
Proof.
  intros Hinv Hb Hstep. destruct ev as [c now].
  destruct (step_config _ _ _ Hstep) as [Hmc Hp].
  unfold bounded. rewrite Hmc, Hp. intros a.
  destruct (decide (tasks s' !! c = Some (Granted now))) as [Hg|Hg].
  - destruct (step_grants _ _ _ _ Hinv Hstep Hg) as (Hlt & _ & ->).
    unfold in_window. rewrite List.filter_app, length_app. cbn [List.filter snd].
    destruct ((a <? now) && (now <=? a + period (lim s))) eqn:Hin.
    + apply andb_true_iff in Hin. destruct Hin as [Ha Hb'].
      rewrite young_map in Hlt.
      pose proof (filter_length_le
        (fun e : nat * Z => (a <? snd e) && (snd e <=? a + period (lim s)))
        (fun e : nat * Z => now - period (lim s) <? snd e) (granted s)) as Hle.
      cbn [length]. 
      assert (Hfg : forall x : nat * Z,
        (a <? snd x) && (snd x <=? a + period (lim s)) = true ->
        (now - period (lim s) <? snd x) = true).
      { intros x Hx. apply andb_true_iff in Hx. lia. }
      specialize (Hle Hfg). lia.
    + cbn [length]. specialize (Hb a). unfold in_window in Hb. lia.
  - rewrite (step_keeps_grants _ _ _ _ Hstep Hg). apply Hb.
Qed.

Lemma run_bounded sched : forall s s',
  inv s -> bounded s -> run sched s = Some s' -> bounded s'.
Proof.
  induction sched as [|ev sched IH]; cbn; intros s s' Hinv Hb.
  - intros [= <-]. exact Hb.
  - destruct (step s ev) as [s1|] eqn:Hstep; [|discriminate].
    apply IH; [eapply step_inv|eapply step_bounded]; eauto.
Qed.

Lemma start_bounded mc p : bounded (start mc p).
Proof. intros a. cbn. lia. Qed.

Lemma step_all_failed s ev s' :
  max_calls (lim s) <= 0 -> all_failed s -> step s ev = Some s' ->
  all_failed s'.
Proof.
  intros Hmc (Hts & Hg & Ht). destruct ev as [c now]. unfold step.
  destruct (runnable s c now); [|discriminate].
  unfold wait. rewrite Hts. cbn [purge length].
  destruct (Z.ltb_spec (Z.of_nat 0) (max_calls (lim s))) as [Hlt|_]; [lia|].
  intros [= <-]. repeat split; cbn; [exact Hg|].
  intros c' t. destruct (decide (c = c')) as [->|Hne].
  - rewrite lookup_insert_eq. congruence.
  - rewrite lookup_insert_ne by exact Hne. apply Ht.
Qed.

Lemma run_all_failed sched : forall s s',
  max_calls (lim s) <= 0 -> all_failed s -> run sched s = Some s' ->
  all_failed s'.
Proof.
  induction sched as [|ev sched IH]; cbn; intros s s' Hmc Hall.
  - intros [= <-]. exact Hall.
  - destruct (step s ev) as [s1|] eqn:Hstep; [|discriminate].
    apply IH; [|eapply step_all_failed; eauto].
    destruct (step_config _ _ _ Hstep) as [-> _]. exact Hmc.
Qed.

Lemma young_reachable s now :
  inv s -> clock s <= now ->
  young now (period (lim s)) (timestamps (lim s))
  = young now (period (lim s)) (List.map snd (granted s)).
Proof.
  intros Hinv Hnow. rewrite <- purge_reachable by assumption.
  symmetry. apply purge_young.
  destruct Hinv as [(old & Hsplit & _) Hsorted _].
  rewrite Hsplit in Hsorted. eapply sorted_app_r; eauto.
Qed.



(** C9, as the code has it. The constructor checks nothing: it returns a
    limiter for every [max_calls], and one built with a zero or negative
    limit never grants a permit, because each [wait()] on it fails with
    IndexError at [self.timestamps[0]] on the empty deque. *)
Theorem nonpositive_limit_accepted (mc p : Z) :
  mc <= 0 ->
  __init__ mc p = Ok (fresh mc p) /\
  forall sched s, run sched (start mc p) = Some s ->
    granted s = [] /\
    forall c t, tasks s !! c = Some t -> t = Failed IndexError.
Proof.
  intros Hmc. split; [reflexivity|]. intros sched s Hrun.
  assert (Hall : all_failed (start mc p)).
  { repeat split; cbn; try reflexivity. intros c t. rewrite lookup_empty. discriminate. }
  pose proof (run_all_failed sched (start mc p) s Hmc Hall Hrun) as (_ & Hg & Ht).
  split; assumption.
Qed.

Lemma nonpositive_limit_accepted_witness :
  __init__ 0 1000 = Ok (fresh 0 1000) /\
  exists s, run [(0%nat, 5)] (start 0 1000) = Some s /\
            tasks s !! 0%nat = Some (Failed IndexError) /\ granted s = [].
Proof.
  destruct (nonpositive_limit_accepted 0 1000 ltac:(lia)) as [Hinit Hrun].
  split; [exact Hinit|].
  destruct (run [(0%nat, 5)] (start 0 1000)) as [s|] eqn:E;
    [|vm_compute in E; discriminate E].
  exists s. split; [reflexivity|].
  destruct (Hrun _ _ E) as [Hg _]. split; [|exact Hg].
  vm_compute in E. injection E as <-. reflexivity.
Defined.

(** C9 as stated fails: [AsyncRateLimiter(0, 1.0)] is constructed without
    any error. *)
Lemma zero_limit_not_rejected :
  ~ (exists e, __init__ 0 1000 = Raise e).
Proof. intros [e He]. discriminate He. Qed.

End RateLimiterFacts.

(** ** The media downloader *)

Module MediaFacts.
Import RateLimiter Media.

Lemma encode_raises s e : Hash.encode s = Raise e -> e = UnicodeEncodeError.
Proof.
  induction s as [|c s IH]; cbn; [discriminate|].
  destruct (Hash.encode_char c); [|congruence].
  destruct (Hash.encode s); cbn; [discriminate|].
  intros [= <-]. apply IH. reflexivity.
Qed.

Lemma filename_of_raises u e : filename_of u = Raise e -> e = UnicodeEncodeError.
Proof.
  unfold filename_of, Hash.md5_hex.
  destruct (Hash.encode u) eqn:E; cbn; [discriminate|].
  intros [= <-]. eapply encode_raises; eauto.
Qed.

Lemma wait_never_fails now l e :
  0 < max_calls l -> snd (wait now l) <> Fails e.
Proof.
  intros Hmc. unfold wait.
  destruct (Z.ltb_spec (Z.of_nat (length (purge now (period l) (timestamps l))))
              (max_calls l)) as [Hlt|Hge]; [discriminate|].
  destruct (purge now (period l) (timestamps l)); cbn in *; [lia|discriminate].
Qed.

Lemma wait_max_calls now l :
  max_calls (fst (wait now l)) = max_calls l.
Proof. apply RateLimiterFacts.wait_config. Qed.

Lemma seqZ_S k : seqZ (S k) = seqZ k ++ [1 * (Z.of_nat k + 1)].
Proof. unfold seqZ. rewrite List.seq_S, List.map_app. reflexivity. Qed.

Lemma attempts_log_request id id' u w :
  attempts_of id (log_request id' u w)
  = (attempts_of id w + if (id' =? id)%nat then 1 else 0)%nat.
Proof.
  unfold attempts_of. cbn. rewrite List.filter_app, length_app. cbn.
  destruct (id' =? id)%nat; reflexivity.
Qed.

Lemma sleeps_log_sleep id id' secs w :
  sleeps_of id (log_sleep id' secs w)
  = sleeps_of id w ++ if (id' =? id)%nat then [secs] else [].
Proof.
  unfold sleeps_of. cbn. rewrite List.filter_app, List.map_app. cbn.
  destruct (id' =? id)%nat; reflexivity.
Qed.

(** *** The facts of every reachable world *)

Lemma pc_ok_register m u' f' u p :
  (forall f, m !! u' = Some f -> filename_of u' = Ok f) ->
  filename_of u' = Ok f' ->
  pc_ok m u p -> pc_ok (<[u' := f']> m) u p.
Proof.
  intros Hm Hf'. destruct p as [| | | | |[f|]|]; cbn; auto.
  intros [Hnil Hu]. split; [exact Hnil|].
  destruct (decide (u' = u)) as [->|Hne].
  - rewrite lookup_insert_eq. specialize (Hm f Hu). congruence.
  - rewrite lookup_insert_ne by exact Hne. exact Hu.
Qed.

Lemma winv_set_task id u p w :
  winv w -> pc_ok (url_to_filename (md w)) u p -> winv (set_task id u p w).
Proof.
  intros [Hl Hm Ht] Hp. split; cbn; [exact Hl|exact Hm|].
  intros id' t. destruct (decide (id = id')) as [->|Hne].
  - rewrite lookup_insert_eq. intros [= <-]. exact Hp.
  - rewrite lookup_insert_ne by exact Hne. apply Ht.
Qed.

Lemma winv_release w : winv w -> winv (release w).
Proof. intros [Hl Hm Ht]. split; cbn; assumption. Qed.

Lemma winv_acquire w : winv w -> winv (acquire w).
Proof. intros [Hl Hm Ht]. split; cbn; assumption. Qed.

Lemma winv_set_clock now w : winv w -> winv (set_clock now w).
Proof. intros [Hl Hm Ht]. split; cbn; assumption. Qed.

Lemma winv_log_sleep id secs w : winv w -> winv (log_sleep id secs w).
Proof. intros [Hl Hm Ht]. split; cbn; assumption. Qed.

Lemma winv_log_request id u w : winv w -> winv (log_request id u w).
Proof. intros [Hl Hm Ht]. split; cbn; assumption. Qed.

Lemma winv_write_file f c w : winv w -> winv (write_file f c w).
Proof.
  intros [Hl Hm Ht]. split; cbn; [exact Hl| |exact Ht].
  intros u f' Hu. destruct (Hm u f' Hu) as [Hf Hd]. split; [exact Hf|].
  destruct (decide (f = f')) as [->|Hne].
  - rewrite lookup_insert_eq. eauto.
  - rewrite lookup_insert_ne by exact Hne. exact Hd.
Qed.

Lemma winv_register u f w :
  winv w -> filename_of u = Ok f -> is_Some (disk w !! f) ->
  winv (register u f w).
Proof.
  intros [Hl Hm Ht] Hf Hd. split; cbn; [exact Hl| |].
  - intros u' f'. destruct (decide (u = u')) as [->|Hne].
    + rewrite lookup_insert_eq. intros [= <-]. auto.
    + rewrite lookup_insert_ne by exact Hne. apply Hm.
  - intros id t Hid. apply pc_ok_register; [|exact Hf|apply (Ht id t Hid)].
    intros f0 H0. apply (Hm u f0 H0).
Qed.

Lemma winv_handle now id u k e w :
  winv w -> u <> [] -> winv (handle now id u k e w).
Proof.
  intros Hw Hu. unfold handle.
  destruct (is_network_error e); [destruct (k =? 2)%nat|];
    (apply winv_set_task; [|first [exact I|exact Hu]]);
    auto using winv_release, winv_log_sleep.
Qed.

Lemma winv_begin_attempt now id u k w :
  winv w -> u <> [] -> winv (begin_attempt now id u k w).
Proof.
  intros Hw Hu. unfold begin_attempt.
  pose proof (wait_max_calls now (rate_limiter (md w))) as Hmc.
  destruct (wait now (rate_limiter (md w))) as [l' o]. cbn in Hmc.
  assert (Hw1 : winv (set_limiter l' w)).
  { destruct Hw as [Hl Hm Ht]. split; cbn; [congruence|exact Hm|exact Ht]. }
  destruct o as [|d|e].
  - destruct (filename_of u) as [f|e] eqn:Hf; [|apply winv_handle; assumption].
    case_decide as Hd.
    + apply winv_set_task.
      * apply winv_release, winv_register; assumption.
      * cbn. split; [exact Hu|apply lookup_insert_eq].
    + apply winv_set_task; [apply winv_log_request; exact Hw1|].
      split; assumption.
  - apply winv_set_task; [exact Hw1|exact Hu].
  - apply winv_handle; assumption.
Qed.

Lemma winv_download_audio now id u w : winv w -> winv (download_audio now id u w).
Proof.
  intros Hw. unfold download_audio. destruct u as [|c u].
  - apply winv_set_task; [exact Hw|exact I].
  - case_match eqn:Hm.
    + apply winv_set_task; [exact Hw|split; [discriminate|exact Hm]].
    + destruct (0 <? semaphore (md w))%nat.
      * apply winv_begin_attempt; [apply winv_acquire, Hw|discriminate].
      * apply winv_set_task; [exact Hw|discriminate].
Qed.

Lemma step_winv w ev w' : winv w -> step w ev = Some w' -> winv w'.
Proof.
  intros Hw0. destruct ev as [[id now] inp]. unfold step.
  destruct (now <? clock w); [discriminate|].
  pose proof (winv_set_clock now w Hw0) as Hw.
  destruct (tasks (set_clock now w) !! id) as [t|] eqn:Ht.
  - pose proof (winv_tasks _ Hw _ _ Ht) as Hpc.
    destruct inp; try discriminate; destruct (at_pc t) eqn:Hat; try discriminate;
      cbn in Hpc.
    + destruct (0 <? semaphore (md (set_clock now w)))%nat; [|discriminate].
      intros [= <-]. apply winv_begin_attempt; [apply winv_acquire, Hw|exact Hpc].
    + destruct (wake <=? now); [|discriminate].
      intros [= <-]. apply winv_begin_attempt; assumption.
    + destruct (wake <=? now); [|discriminate].
      destruct (S attempt <? 3)%nat; intros [= <-].
      * apply winv_begin_attempt; assumption.
      * apply winv_set_task; [apply winv_release, Hw|exact I].
    + intros [= <-]. apply winv_set_task; [apply winv_write_file, Hw|exact Hpc].
    + intros [= <-]. apply winv_handle; [exact Hw|apply Hpc].
    + intros [= <-]. destruct Hpc as [Hu Hf]. apply winv_set_task.
      * apply winv_release, winv_register;
          [apply winv_write_file, Hw|exact Hf|].
        cbn. rewrite lookup_insert_eq. eauto.
      * cbn. split; [exact Hu|apply lookup_insert_eq].
    + intros [= <-]. apply winv_handle; [exact Hw|apply Hpc].
  - destruct inp; try discriminate.
    intros [= <-]. apply winv_download_audio, Hw.
Qed.

Lemma initial_winv n files : winv (initial n files).
Proof.
  split; cbn; [reflexivity| |]; intros ? ?; rewrite lookup_empty; discriminate.
Qed.

Lemma run_winv sched : forall w w', winv w -> run sched w = Some w' -> winv w'.
Proof.
  induction sched as [|ev sched IH]; cbn; intros w w' Hw.
  - intros [= <-]. exact Hw.
  - destruct (step w ev) as [w1|] eqn:Hstep; [|discriminate].
    apply IH. eapply step_winv; eauto.
Qed.

(** *** The book-keeping of one invocation *)

Lemma tinv_frame id w w' : same_for id w w' -> tinv id w -> tinv id w'.
Proof.
  intros (Ht & Ha & Hs & Hd). unfold tinv. rewrite Ht, Ha, Hs.
  destruct (tasks w !! id) as [t|]; [|trivial].
  destruct (at_pc t) as [| | | | |[f|]|]; try tauto.
  - intros (? & ? & ? & ? & ?). auto 10.
  - intros [? ?]. auto.
  - intros [?|(f & ? & ?)]; [left; assumption|right; exists f; auto].
Qed.

Lemma same_for_refl id w : same_for id w w.
Proof. repeat split; auto. Qed.

Lemma same_for_trans id w1 w2 w3 :
  same_for id w1 w2 -> same_for id w2 w3 -> same_for id w1 w3.
Proof.
  intros (Ht & Ha & Hs & Hd) (Ht' & Ha' & Hs' & Hd').
  repeat split; [congruence..|auto].
Qed.

Lemma same_for_set_task id id' u p w :
  id' <> id -> same_for id w (set_task id' u p w).
Proof.
  intros Hne. repeat split; auto. cbn. apply lookup_insert_ne. exact Hne.
Qed.

Lemma same_for_handle id now id' u k e w :
  id' <> id -> same_for id w (handle now id' u k e w).
Proof.
  intros Hne. unfold handle.
  destruct (is_network_error e); [destruct (k =? 2)%nat|];
    (eapply same_for_trans; [|apply same_for_set_task; exact Hne]).
  - repeat split; auto.
  - split; [reflexivity|]. split; [reflexivity|]. split; [|auto].
    rewrite sleeps_log_sleep.
    destruct (Nat.eqb_spec id' id); [contradiction|apply app_nil_r].
  - repeat split; auto.
Qed.

Lemma same_for_begin_attempt id now id' u k w :
  id' <> id -> same_for id w (begin_attempt now id' u k w).
Proof.
  intros Hne. unfold begin_attempt.
  destruct (wait now (rate_limiter (md w))) as [l' o].
  assert (H0 : same_for id w (set_limiter l' w)) by (repeat split; auto).
  destruct o as [|d|e].
  - destruct (filename_of u) as [f|e].
    + case_decide; (eapply same_for_trans; [|apply same_for_set_task; exact Hne]).
      * repeat split; auto.
      * split; [reflexivity|]. split; [|split; [reflexivity|auto]].
        rewrite attempts_log_request.
        destruct (Nat.eqb_spec id' id); [contradiction|].
        unfold attempts_of. cbn. lia.
    + eapply same_for_trans; [exact H0|apply same_for_handle; exact Hne].
  - eapply same_for_trans; [exact H0|apply same_for_set_task; exact Hne].
  - eapply same_for_trans; [exact H0|apply same_for_handle; exact Hne].
Qed.

Lemma same_for_download_audio id now id' u w :
  id' <> id -> same_for id w (download_audio now id' u w).
Proof.
  intros Hne. unfold download_audio. destruct u as [|c u].
  - apply same_for_set_task; exact Hne.
  - case_match.
    + apply same_for_set_task; exact Hne.
    + destruct (0 <? semaphore (md w))%nat.
      * eapply same_for_trans; [|apply same_for_begin_attempt; exact Hne].
        repeat split; auto.
      * apply same_for_set_task; exact Hne.
Qed.

Lemma same_for_write_file id f c w : same_for id w (write_file f c w).
Proof.
  repeat split; auto. intros f' Hf'. cbn.
  destruct (decide (f = f')) as [->|Hne].
  - rewrite lookup_insert_eq. eauto.
  - rewrite lookup_insert_ne by exact Hne. exact Hf'.
Qed.

(** A segment of another invocation changes nothing for [id]. *)
Lemma step_same_for id w id' now inp w' :
  id' <> id -> step w (id', now, inp) = Some w' -> same_for id w w'.
Proof.
  intros Hne. unfold step.
  destruct (now <? clock w); [discriminate|].
  assert (H0 : same_for id w (set_clock now w)) by (repeat split; auto).
  destruct (tasks (set_clock now w) !! id') as [t|].
  - destruct inp; try discriminate; destruct (at_pc t); try discriminate.
    + destruct (0 <? semaphore (md (set_clock now w)))%nat; [|discriminate].
      intros [= <-].
      eapply same_for_trans; [|apply same_for_begin_attempt; exact Hne].
      repeat split; auto.
    + destruct (wake <=? now); [|discriminate]. intros [= <-].
      eapply same_for_trans; [exact H0|apply same_for_begin_attempt; exact Hne].
    + destruct (wake <=? now); [|discriminate].
      destruct (S attempt <? 3)%nat; intros [= <-].
      * eapply same_for_trans; [exact H0|apply same_for_begin_attempt; exact Hne].
      * eapply same_for_trans; [|apply same_for_set_task; exact Hne].
        repeat split; auto.
    + intros [= <-].
      eapply same_for_trans; [|apply same_for_set_task; exact Hne].
      eapply same_for_trans; [exact H0|apply same_for_write_file].
    + intros [= <-].
      eapply same_for_trans; [exact H0|apply same_for_handle; exact Hne].
    + intros [= <-].
      eapply same_for_trans; [|apply same_for_set_task; exact Hne].
      eapply same_for_trans; [exact H0|].
      eapply same_for_trans; [apply (same_for_write_file id filename content)|].
      repeat split; auto.
    + intros [= <-].
      eapply same_for_trans; [exact H0|apply same_for_handle; exact Hne].
  - destruct inp; try discriminate. intros [= <-].
    eapply same_for_trans; [exact H0|apply same_for_download_audio; exact Hne].
Qed.

Lemma tinv_handle_net now id u k e w :
  is_network_error e = true ->
  attempts_of id w = S k -> sleeps_of id w = seqZ k -> (k < 3)%nat ->
  tinv id (handle now id u k e w).
Proof.
  intros He Ha Hs Hk. unfold handle. rewrite He.
  destruct (Nat.eqb_spec k 2) as [->|Hk2].
  - unfold tinv. cbn [tasks set_task]. rewrite lookup_insert_eq. cbn [at_pc].
    right. split; [exact Ha|exact Hs].
  - unfold tinv. cbn [tasks set_task]. rewrite lookup_insert_eq. cbn [at_pc].
    split; [exact Ha|]. split; [|lia].
    change (sleeps_of id (set_task id u (Backoff k (now + second * (Z.of_nat k + 1)))
                           (log_sleep id (1 * (Z.of_nat k + 1)) w)))
      with (sleeps_of id (log_sleep id (1 * (Z.of_nat k + 1)) w)).
    rewrite sleeps_log_sleep, Nat.eqb_refl, Hs, seqZ_S. reflexivity.
Qed.

Lemma tinv_handle_other now id u k e w :
  is_network_error e = false ->
  (filename_of u = Raise e \/
   exists f, filename_of u = Ok f /\ is_Some (disk w !! f)) ->
  tinv id (handle now id u k e w).
Proof.
  intros He Hc. unfold handle. rewrite He.
  unfold tinv. cbn [tasks set_task]. rewrite lookup_insert_eq. exact Hc.
Qed.

Lemma tinv_begin_attempt now id u k w :
  winv w ->
  attempts_of id w = k -> sleeps_of id w = seqZ k -> (k < 3)%nat ->
  tinv id (begin_attempt now id u k w).
Proof.
  intros Hw Ha Hs Hk. unfold begin_attempt.
  pose proof (wait_never_fails now (rate_limiter (md w))) as Hnf.
  destruct (wait now (rate_limiter (md w))) as [l' o]. cbn in Hnf.
  destruct o as [|d|e].
  - destruct (filename_of u) as [f|e] eqn:Hf.
    + case_decide as Hd.
      * unfold tinv. cbn [tasks set_task]. rewrite lookup_insert_eq.
        cbn [at_pc url]. split; [exact Hf|exact Hd].
      * unfold tinv. cbn [tasks set_task]. rewrite lookup_insert_eq.
        cbn [at_pc]. split; [|split; [exact Hs|exact Hk]].
        change (attempts_of id (set_task id u (Fetching k f)
                                  (log_request id u (set_limiter l' w))))
          with (attempts_of id (log_request id u (set_limiter l' w))).
        rewrite attempts_log_request, Nat.eqb_refl.
        change (attempts_of id (set_limiter l' w)) with (attempts_of id w). lia.
    + apply tinv_handle_other; [|left; exact Hf].
      rewrite (filename_of_raises u e Hf). reflexivity.
  - unfold tinv. cbn [tasks set_task]. rewrite lookup_insert_eq. cbn [at_pc].
    split; [exact Ha|split; [exact Hs|exact Hk]].
  - exfalso. apply (Hnf e); [|reflexivity].
    rewrite (winv_limit _ Hw). lia.
Qed.

Lemma tinv_download_audio now id u w :
  winv w -> attempts_of id w = 0%nat -> sleeps_of id w = [] ->
  tinv id (download_audio now id u w).
Proof.
  intros Hw Ha Hs. unfold download_audio. destruct u as [|c u].
  - unfold tinv. cbn [tasks set_task]. rewrite lookup_insert_eq. left. reflexivity.
  - case_match eqn:Hm.
    + unfold tinv. cbn [tasks set_task]. rewrite lookup_insert_eq.
      cbn [at_pc url]. apply (winv_map _ Hw). exact Hm.
    + destruct (0 <? semaphore (md w))%nat.
      * apply tinv_begin_attempt; [|exact Ha|exact Hs|lia].
        destruct Hw as [Hl Hmap Ht]. split; cbn; assumption.
      * unfold tinv. cbn [tasks set_task]. rewrite lookup_insert_eq.
        split; [exact Ha|exact Hs].
Qed.

(** A segment of invocation [id] itself keeps its book-keeping right, as
    long as its fetches fail only with the exceptions it catches. *)
Lemma step_tinv_own id w now inp w' :
  winv w -> tinv id w -> good id (id, now, inp) ->
  step w (id, now, inp) = Some w' -> tinv id w'.
Proof.
  intros Hw0 Hti Hgood. unfold step.
  destruct (now <? clock w); [discriminate|].
  assert (Hw : winv (set_clock now w)).
  { destruct Hw0 as [Hl Hm Ht]. split; cbn; assumption. }
  unfold tinv in Hti.
  change (tasks (set_clock now w) !! id) with (tasks w !! id).
  destruct (tasks w !! id) as [t|] eqn:Ht.
  - destruct inp; try discriminate; destruct (at_pc t) eqn:Hat; try discriminate.
    + destruct (0 <? semaphore (md (set_clock now w)))%nat; [|discriminate].
      intros [= <-]. destruct Hti as [Ha Hs].
      apply tinv_begin_attempt; [|exact Ha|exact Hs|lia].
      destruct Hw as [Hl Hmap Ht']. split; cbn; assumption.
    + destruct (wake <=? now); [|discriminate]. intros [= <-].
      destruct Hti as (Ha & Hs & Hk).
      apply tinv_begin_attempt; assumption.
    + destruct (wake <=? now); [|discriminate].
      destruct Hti as (Ha & Hs & Hk).
      destruct (Nat.ltb_spec (S attempt) 3) as [Hlt|Hge]; [|lia].
      intros [= <-]. apply tinv_begin_attempt; [exact Hw| | |exact Hlt].
      * exact Ha.
      * exact Hs.
    + intros [= <-]. destruct Hti as (Ha & Hs & Hk).
      unfold tinv. cbn [tasks set_task]. rewrite lookup_insert_eq.
      cbn [at_pc url]. split; [exact Ha|]. split; [exact Hs|]. split; [exact Hk|].
      split; [pose proof (winv_tasks _ Hw0 _ _ Ht) as Hpc;
              rewrite Hat in Hpc; apply Hpc|].
      cbn. rewrite lookup_insert_eq. eauto.
    + intros [= <-]. destruct Hti as (Ha & Hs & Hk).
      apply tinv_handle_net; try assumption. apply Hgood. reflexivity.
    + intros [= <-]. destruct Hti as (Ha & Hs & Hk & Hf & Hd).
      unfold tinv. cbn [tasks set_task]. rewrite lookup_insert_eq.
      cbn [at_pc url]. split; [exact Hf|]. cbn. rewrite lookup_insert_eq. eauto.
    + intros [= <-]. destruct Hti as (Ha & Hs & Hk & Hf & Hd).
      destruct (is_network_error e) eqn:He.
      * apply tinv_handle_net; assumption.
      * apply tinv_handle_other; [exact He|]. right. eauto.
  - destruct inp; try discriminate. intros [= <-].
    destruct Hti as [Ha Hs]. apply tinv_download_audio; assumption.
Qed.

Lemma step_tinv id w ev w' :
  winv w -> tinv id w -> good id ev -> step w ev = Some w' -> tinv id w'.
Proof.
  intros Hw Hti Hgood Hstep. destruct ev as [[id' now] inp].
  destruct (decide (id' = id)) as [->|Hne].
  - eapply step_tinv_own; eauto.
  - eapply tinv_frame; [|exact Hti]. eapply step_same_for; eauto.
Qed.

Lemma run_tinv id sched : forall w w',
  winv w -> tinv id w -> Forall (good id) sched -> run sched w = Some w' ->
  tinv id w'.
Proof.
  induction sched as [|ev sched IH]; cbn; intros w w' Hw Hti Hgood.
  - intros [= <-]. exact Hti.
  - destruct (step w ev) as [w1|] eqn:Hstep; [|discriminate].
    inversion Hgood; subst.
    apply IH; [eapply step_winv|eapply step_tinv|]; eauto.
Qed.

Lemma initial_tinv id n files : tinv id (initial n files).
Proof. unfold tinv. cbn. rewrite lookup_empty. split; reflexivity. Qed.



(** C2 as stated fails: two invocations of [download_audio(u)] that both
    start before either has finished each call [session.get(u)]. The map
    is filled only when a download has completed, and the file is not yet on
    disk when the second invocation looks for it. *)
Lemma concurrent_invocations_download_twice :
  exists w,
    run [ (0%nat, 0, Invoke (lit "https://x/a.mp3"));
          (1%nat, 0, Invoke (lit "https://x/a.mp3"));
          (0%nat, 40, FetchDone [1%N]); (0%nat, 41, SaveDone);
          (1%nat, 50, FetchDone [1%N]); (1%nat, 51, SaveDone) ]
        (initial 10 ∅) = Some w /\
    downloads_of (lit "https://x/a.mp3") w = 2%nat /\
    requests w = [ (0%nat, lit "https://x/a.mp3");
                   (1%nat, lit "https://x/a.mp3") ].
Proof.
  pose (res := run [ (0%nat, 0, Invoke (lit "https://x/a.mp3"));
                     (1%nat, 0, Invoke (lit "https://x/a.mp3"));
                     (0%nat, 40, FetchDone [1%N]); (0%nat, 41, SaveDone);
                     (1%nat, 50, FetchDone [1%N]); (1%nat, 51, SaveDone) ]
                   (initial 10 ∅)).
  exists (default (initial 10 ∅) res).
  split; [vm_compute; reflexivity|]. split; vm_compute; reflexivity.
Qed.

(** C2, as the code has it. Once an invocation of [download_audio(u)] has
    returned a file name, that name is the hex MD5 of [u] followed by
    ".mp3", and every invocation of [u] that starts afterwards returns the
    same name at once: no [session.get], no change on disk. *)
Theorem dedup_after_return (n : nat) (files : gmap pystr (list N))
    (sched : list (nat * Z * input)) (w : world) (id : nat) (t : task)
    (f : pystr) :
  run sched (initial n files) = Some w ->
  tasks w !! id = Some t -> at_pc t = Returned (Some f) ->
  filename_of (url t) = Ok f /\
  forall id' now w',
    step w (id', now, Invoke (url t)) = Some w' ->
    tasks w' !! id' = Some (mkTask (url t) (Returned (Some f))) /\
    requests w' = requests w /\ disk w' = disk w.
Proof.
  intros Hrun Ht Hpc.
  pose proof (run_winv sched _ _ (initial_winv n files) Hrun) as Hw.
  pose proof (winv_tasks _ Hw _ _ Ht) as Hok. rewrite Hpc in Hok.
  destruct Hok as [Hu Hm].
  destruct (winv_map _ Hw _ _ Hm) as [Hf _]. split; [exact Hf|].
  intros id' now w'. unfold step.
  destruct (now <? clock w); [discriminate|].
  destruct (tasks (set_clock now w) !! id'); [discriminate|].
  unfold download_audio. destruct (url t) as [|c u] eqn:Hurl; [contradiction|].
  change (url_to_filename (md (set_clock now w))) with (url_to_filename (md w)).
  rewrite Hm. intros [= <-]. cbn.
  rewrite lookup_insert_eq. auto.
Qed.

Lemma dedup_after_return_witness :
  exists w w',
    run [ (0%nat, 0, Invoke (lit "https://x/a.mp3"));
          (0%nat, 40, FetchDone [1%N]); (0%nat, 41, SaveDone) ]
        (initial 10 ∅) = Some w /\
    step w (1%nat, 50, Invoke (lit "https://x/a.mp3")) = Some w' /\
    tasks w' !! 1%nat
    = Some (mkTask (lit "https://x/a.mp3")
              (Returned (Some (lit "29f8f1fcfd92f7eba6eb49c51b73b9b6.mp3")))) /\
    requests w' = requests w.
Proof.
  pose (sched := [ (0%nat, 0, Invoke (lit "https://x/a.mp3"));
                   (0%nat, 40, FetchDone [1%N]); (0%nat, 41, SaveDone) ]).
  pose (w := default (initial 10 ∅) (run sched (initial 10 ∅))).
  pose (w' := default w (step w (1%nat, 50, Invoke (lit "https://x/a.mp3")))).
  assert (E : run sched (initial 10 ∅) = Some w) by (vm_compute; reflexivity).
  assert (E' : step w (1%nat, 50, Invoke (lit "https://x/a.mp3")) = Some w')
    by (vm_compute; reflexivity).
  assert (Ht : tasks w !! 0%nat
               = Some (mkTask (lit "https://x/a.mp3")
                   (Returned (Some (lit "29f8f1fcfd92f7eba6eb49c51b73b9b6.mp3")))))
    by (vm_compute; reflexivity).
  exists w, w'. split; [exact E|]. split; [exact E'|].
  destruct (dedup_after_return 10 ∅ sched w 0%nat _ _ E Ht eq_refl) as [_ Hnext].
  destruct (Hnext 1%nat 50 w' E') as (H1 & H2 & _). split; assumption.
Defined.

End MediaFacts.

(** ** The cache format: loads after dumps *)

Module JsonFacts.
Import Json.

Lemma dumps_list items :
  dumps (PList items) = lit "[" ++ join_items items ++ lit "]".
Proof. reflexivity. Qed.

Lemma dumps_dict pairs :
  dumps (PDict pairs) = lit "{" ++ join_pairs pairs ++ lit "}".
Proof. reflexivity. Qed.

Lemma plain_list items : plain (PList items) <-> Forall plain items.
Proof.
  cbn [plain]. induction items as [|x rest IH].
  - split; [constructor|trivial].
  - rewrite Forall_cons, <- IH. reflexivity.
Qed.

Lemma plain_dict pairs :
  plain (PDict pairs) <->
  NoDup (List.map fst pairs) /\ Forall (fun kv => plain (snd kv)) pairs.
Proof.
  cbn [plain]. apply and_iff_compat_l.
  induction pairs as [|[k x] rest IH].
  - split; [constructor|trivial].
  - rewrite Forall_cons, <- IH. reflexivity.
Qed.

(** *** Strings *)

Lemma hex4_control c :
  (c < 32)%N -> hex4 48 48 (hex_digit (c / 16)) (hex_digit (c mod 16)) = Some c.
Proof.
  intros Hc.
  assert (Hall : forallb
            (fun n => match hex4 48 48 (hex_digit (n / 16)) (hex_digit (n mod 16)) with
                      | Some x => (x =? n)%N
                      | None => false
                      end)
            (List.map N.of_nat (List.seq 0 32)) = true) by (vm_compute; reflexivity).
  rewrite forallb_forall in Hall.
  specialize (Hall c).
  destruct (hex4 48 48 (hex_digit (c / 16)) (hex_digit (c mod 16))) as [x|].
  - f_equal. apply N.eqb_eq. apply Hall.
    apply List.in_map_iff. exists (N.to_nat c). split; [lia|].
    apply List.in_seq. lia.
  - exfalso. enough (false = true) by discriminate. apply Hall.
    apply List.in_map_iff. exists (N.to_nat c). split; [lia|].
    apply List.in_seq. lia.
Qed.

(** Reading back the escape of one character. *)
Lemma scanstring_escape c fuel tl :
  scanstring (S fuel) (escape_char c ++ tl)
  = match scanstring fuel tl with
    | Some (str, r) => Some (c :: str, r)
    | None => None
    end.
Proof.
  unfold escape_char.
  destruct (N.eqb_spec c 34) as [->|H34]; [reflexivity|].
  destruct (N.eqb_spec c 92) as [->|H92]; [reflexivity|].
  destruct (N.eqb_spec c 10) as [->|H10]; [reflexivity|].
  destruct (N.eqb_spec c 13) as [->|H13]; [reflexivity|].
  destruct (N.eqb_spec c 9) as [->|H9]; [reflexivity|].
  destruct (N.eqb_spec c 8) as [->|H8]; [reflexivity|].
  destruct (N.eqb_spec c 12) as [->|H12]; [reflexivity|].
  destruct (N.ltb_spec c 32) as [Hlt|Hge].
  - cbn [app scanstring]. cbn [N.eqb Pos.eqb].
    rewrite (hex4_control c Hlt).
    assert (((0xD800 <=? c) && (c <=? 0xDBFF))%N = false) as ->.
    { apply andb_false_iff. left. apply N.leb_gt. lia. }
    reflexivity.
  - cbn [app scanstring].
    assert ((c =? 34)%N = false) as -> by (apply N.eqb_neq; exact H34).
    assert ((c =? 92)%N = false) as -> by (apply N.eqb_neq; exact H92).
    assert ((c <? 32)%N = false) as -> by (apply N.ltb_ge; exact Hge).
    reflexivity.
Qed.

Lemma scanstring_dump s : forall fuel tl,
  (length s < fuel)%nat ->
  scanstring fuel (List.flat_map escape_char s ++ 34%N :: tl) = Some (s, tl).
Proof.
  induction s as [|c s IH]; intros fuel tl Hf.
  - destruct fuel; [lia|]. reflexivity.
  - destruct fuel as [|fuel]; [cbn in Hf; lia|].
    cbn [List.flat_map]. rewrite <- app_assoc, scanstring_escape.
    rewrite IH by (cbn in Hf; lia). reflexivity.
Qed.

Lemma escape_char_length c : (1 <= length (escape_char c))%nat.
Proof.
  unfold escape_char.
  repeat match goal with |- context [if ?b then _ else _] => destruct b end;
    cbn; lia.
Qed.

Lemma escaped_length s : (length s <= length (List.flat_map escape_char s))%nat.
Proof.
  induction s as [|c s IH]; cbn; [lia|].
  rewrite length_app. pose proof (escape_char_length c). lia.
Qed.

(** *** Values *)

Lemma scan_items_eq f s acc :
  scan_items (S f) s acc
  = match scan_once f s with
    | None => None
    | Some (v, r) =>
        match skip_ws r with
        | 93%N :: r' => Some (PList (List.rev (v :: acc)), r')
        | 44%N :: r' => scan_items f (skip_ws r') (v :: acc)
        | _ => None
        end
    end.
Proof. reflexivity. Qed.

Lemma scan_members_eq f s acc :
  scan_members (S f) s acc
  = match scanstring (S (length s)) s with
    | None => None
    | Some (key, r) =>
        match skip_ws r with
        | 58%N :: r1 =>
            match scan_once f (skip_ws r1) with
            | None => None
            | Some (v, r2) =>
                match skip_ws r2 with
                | 125%N :: r3 => Some (PDict (dict_set key v acc), r3)
                | 44%N :: r3 =>
                    match skip_ws r3 with
                    | 34%N :: r4 => scan_members f r4 (dict_set key v acc)
                    | _ => None
                    end
                | _ => None
                end
            end
        | _ => None
        end
    end.
Proof. reflexivity. Qed.

Lemma scan_once_string f rest :
  scan_once (S f) (34%N :: rest)
  = match scanstring (S (length rest)) rest with
    | Some (str, r) => Some (PStr str, r)
    | None => None
    end.
Proof. reflexivity. Qed.

Lemma scan_once_list f rest :
  scan_once (S f) (91%N :: rest)
  = match skip_ws rest with
    | c :: r => if (c =? 93)%N then Some (PList [], r)
                else scan_items f (c :: r) []
    | [] => None
    end.
Proof. reflexivity. Qed.

Lemma scan_once_dict f rest :
  scan_once (S f) (123%N :: rest)
  = match skip_ws rest with
    | 125%N :: r => Some (PDict [], r)
    | 34%N :: r => scan_members f r []
    | _ => None
    end.
Proof. reflexivity. Qed.

(** A serialized plain value starts with a character that is neither
    white space nor a closing bracket. *)
Lemma dumps_head v :
  plain v ->
  exists c tl, dumps v = c :: tl /\ is_ws c = false /\ (c =? 93)%N = false.
Proof.
  destruct v as [|[|]|n|s|items|pairs]; cbn [plain]; intros Hp;
    try contradiction; try (eexists _, _; split; [reflexivity|split; reflexivity]).
Qed.

Lemma skip_ws_head c tl : is_ws c = false -> skip_ws (c :: tl) = c :: tl.
Proof. intros H. cbn. rewrite H. reflexivity. Qed.

Lemma skip_ws_dumps v tl : plain v -> skip_ws (dumps v ++ tl) = dumps v ++ tl.
Proof.
  intros Hp. destruct (dumps_head v Hp) as (c & r & -> & Hws & _).
  cbn [app]. apply skip_ws_head. exact Hws.
Qed.

Lemma dict_set_fresh {V} k (v : V) acc :
  ~ In k (List.map fst acc) -> dict_set k v acc = acc ++ [(k, v)].
Proof.
  induction acc as [|[k' v'] acc IH]; cbn; [reflexivity|].
  intros Hn. rewrite bool_decide_eq_false_2 by tauto.
  rewrite IH by tauto. reflexivity.
Qed.

Lemma size_list_bound n items :
  (size (PList items) <= S n)%nat -> Forall (fun x => (size x <= n)%nat) items.
Proof.
  cbn [size]. intros H. apply le_S_n in H. revert H.
  induction items as [|x rest IH]; intros H; constructor; [lia|].
  apply IH. lia.
Qed.

Lemma size_dict_bound n pairs :
  (size (PDict pairs) <= S n)%nat ->
  Forall (fun kv => (size (snd kv) <= n)%nat) pairs.
Proof.
  cbn [size]. intros H. apply le_S_n in H. revert H.
  induction pairs as [|[k x] rest IH]; intros H; constructor; [cbn; lia|].
  apply IH. lia.
Qed.

(** The text of a dict from just after the opening quote of a key. *)
Lemma join_pairs_cons k x rest tl :
  join_pairs ((k, x) :: rest) ++ 125%N :: tl
  = 34%N :: List.flat_map escape_char k ++ 34%N :: 58%N :: 32%N :: dumps x ++
      match rest with
      | [] => 125%N :: tl
      | _ :: _ => 44%N :: 32%N :: join_pairs rest ++ 125%N :: tl
      end.
Proof.
  destruct rest as [|[k' y] rest].
  - cbn [join_pairs]. unfold dump_str. change (lit ": ") with [58%N; 32%N].
    repeat first [rewrite <- app_assoc | progress cbn [app]]. reflexivity.
  - change (join_pairs ((k, x) :: (k', y) :: rest))
      with (dump_str k ++ lit ": " ++ dumps x ++ lit ", "
            ++ join_pairs ((k', y) :: rest)).
    unfold dump_str. change (lit ": ") with [58%N; 32%N].
    change (lit ", ") with [44%N; 32%N].
    repeat first [rewrite <- app_assoc | progress cbn [app]]. reflexivity.
Qed.

Section Step.
Variable n : nat.
Hypothesis IH : forall v, (size v <= n)%nat -> plain v ->
  forall fuel tl, (length (dumps v) < fuel)%nat ->
  scan_once fuel (dumps v ++ tl) = Some (v, tl).

Lemma scan_items_dumps : forall items,
  items <> [] ->
  Forall (fun x => (size x <= n)%nat) items -> Forall plain items ->
  forall fuel tl acc,
  (length (join_items items) + 1 < fuel)%nat ->
  scan_items fuel (join_items items ++ 93%N :: tl) acc
  = Some (PList (List.rev acc ++ items), tl).
Proof.
  induction items as [|x rest IHl]; [congruence|].
  intros _ Hsz Hpl fuel tl acc Hf.
  inversion Hsz as [|? ? Hx Hrest]; subst.
  inversion Hpl as [|? ? Px Prest]; subst.
  destruct fuel as [|f]; [lia|]. rewrite scan_items_eq.
  destruct rest as [|y rest'].
  - cbn [join_items] in *. rewrite IH by (assumption || lia).
    cbn [skip_ws is_ws N.eqb Pos.eqb orb]. reflexivity.
  - change (join_items (x :: y :: rest'))
      with (dumps x ++ lit ", " ++ join_items (y :: rest')) in *.
    change (lit ", ") with [44%N; 32%N] in *.
    rewrite !length_app in Hf. cbn [length] in Hf.
    rewrite <- !app_assoc. rewrite IH by (assumption || lia).
    cbn [app skip_ws is_ws N.eqb Pos.eqb orb].
    assert (Hskip : skip_ws (join_items (y :: rest') ++ 93%N :: tl)
                    = join_items (y :: rest') ++ 93%N :: tl).
    { inversion Prest as [|? ? Py _]; subst.
      destruct (dumps_head y Py) as (c & r & Hd & Hws & _).
      destruct rest'; cbn [join_items]; rewrite Hd; cbn [app];
        apply skip_ws_head; exact Hws. }
    rewrite Hskip.
    rewrite IHl by (congruence || assumption || lia).
    cbn [List.rev]. rewrite <- app_assoc. reflexivity.
Qed.

Lemma scan_members_dumps : forall rest k x acc fuel tl,
  Forall (fun kv => (size (snd kv) <= n)%nat) ((k, x) :: rest) ->
  Forall (fun kv => plain (snd kv)) ((k, x) :: rest) ->
  NoDup (List.map fst (acc ++ (k, x) :: rest)) ->
  (length (join_pairs ((k, x) :: rest)) + 1 < fuel)%nat ->
  scan_members fuel
    (List.flat_map escape_char k ++ 34%N :: 58%N :: 32%N :: dumps x ++
       match rest with
       | [] => 125%N :: tl
       | _ :: _ => 44%N :: 32%N :: join_pairs rest ++ 125%N :: tl
       end) acc
  = Some (PDict (acc ++ (k, x) :: rest), tl).
Proof.
  induction rest as [|[k' y] rest' IHl]; intros k x acc fuel tl Hsz Hpl Hnd Hf.
  - destruct fuel as [|f]; [lia|]. rewrite scan_members_eq.
    rewrite scanstring_dump
      by (rewrite length_app; pose proof (escaped_length k); cbn; lia).
    cbn [skip_ws is_ws N.eqb Pos.eqb orb].
    inversion Hsz; subst. inversion Hpl; subst. cbn [snd] in *.
    rewrite (skip_ws_dumps x) by assumption.
    cbn [join_pairs] in Hf. unfold dump_str in Hf.
    rewrite !length_app in Hf. cbn [length] in Hf.
    rewrite IH by (assumption || lia).
    cbn [skip_ws is_ws N.eqb Pos.eqb orb].
    rewrite dict_set_fresh; [reflexivity|].
    rewrite List.map_app in Hnd. cbn in Hnd.
    apply NoDup_ListNoDup in Hnd. apply List.NoDup_remove_2 in Hnd.
    rewrite app_nil_r in Hnd. exact Hnd.
  - destruct fuel as [|f]; [lia|]. rewrite scan_members_eq.
    rewrite scanstring_dump
      by (rewrite length_app; pose proof (escaped_length k); cbn; lia).
    cbn [skip_ws is_ws N.eqb Pos.eqb orb].
    inversion Hsz as [|? ? Hx Hrest]; subst.
    inversion Hpl as [|? ? Px Prest]; subst. cbn [snd] in *.
    rewrite (skip_ws_dumps x) by assumption.
    assert (Hlen : (length (dumps x) + length (join_pairs ((k', y) :: rest')) + 2
                    < f)%nat).
    { change (join_pairs ((k, x) :: (k', y) :: rest'))
        with (dump_str k ++ lit ": " ++ dumps x ++ lit ", "
              ++ join_pairs ((k', y) :: rest')) in Hf.
      unfold dump_str in Hf. rewrite !length_app in Hf. cbn [length] in Hf.
      change (length (lit ": ")) with 2%nat in Hf.
      change (length (lit ", ")) with 2%nat in Hf. lia. }
    rewrite IH by (assumption || lia).
    cbn [skip_ws is_ws N.eqb Pos.eqb orb].
    rewrite join_pairs_cons.
    cbn [skip_ws is_ws N.eqb Pos.eqb orb].
    assert (Hfresh : ~ In k (List.map fst acc)).
    { rewrite List.map_app in Hnd. cbn in Hnd.
      apply NoDup_ListNoDup in Hnd. apply List.NoDup_remove_2 in Hnd.
      intros Hin. apply Hnd. apply List.in_or_app. left. exact Hin. }
    rewrite dict_set_fresh by exact Hfresh.
    rewrite IHl; [rewrite <- app_assoc; reflexivity|assumption|assumption| |lia].
    rewrite <- app_assoc. exact Hnd.
Qed.

End Step.

Lemma scan_once_dumps n : forall v,
  (size v <= n)%nat -> plain v ->
  forall fuel tl, (length (dumps v) < fuel)%nat ->
  scan_once fuel (dumps v ++ tl) = Some (v, tl).
Proof.
  induction n as [|n IHn]; intros v Hsz Hp fuel tl Hf.
  - destruct v; cbn in Hsz; lia.
  - destruct fuel as [|f]; [lia|].
    destruct v as [|[|]|lit0|s|items|pairs]; try reflexivity.
    + contradiction.
    + cbn [dumps]. unfold dump_str. cbn [app]. rewrite <- app_assoc. cbn [app].
      rewrite scan_once_string.
      rewrite scanstring_dump; [reflexivity|].
      rewrite length_app. pose proof (escaped_length s). cbn. lia.
    + rewrite dumps_list in *. change (lit "[") with [91%N] in *.
      change (lit "]") with [93%N] in *. cbn [app] in *.
      rewrite <- app_assoc. cbn [app]. rewrite scan_once_list.
      destruct items as [|x rest]; [reflexivity|].
      apply plain_list in Hp. apply size_list_bound in Hsz.
      assert (Hhead : exists c r, join_items (x :: rest) ++ 93%N :: tl = c :: r
                        /\ is_ws c = false /\ (c =? 93)%N = false).
      { inversion Hp as [|? ? Px _]; subst.
        destruct (dumps_head x Px) as (c & r & Hd & Hws & H93).
        destruct rest; cbn [join_items]; rewrite Hd; cbn [app]; eauto. }
      destruct Hhead as (c & r & Heq & Hws & H93).
      rewrite Heq, (skip_ws_head c r Hws), H93, <- Heq.
      rewrite (scan_items_dumps n IHn); [reflexivity|congruence|assumption..|].
      cbn [length] in Hf. rewrite length_app in Hf. cbn [length] in Hf. lia.
    + rewrite dumps_dict in *. change (lit "{") with [123%N] in *.
      change (lit "}") with [125%N] in *. cbn [app] in *.
      rewrite <- app_assoc. cbn [app]. rewrite scan_once_dict.
      destruct pairs as [|[k x] rest]; [reflexivity|].
      apply plain_dict in Hp. destruct Hp as [Hnd Hpl].
      apply size_dict_bound in Hsz.
      rewrite join_pairs_cons. cbn [skip_ws is_ws N.eqb Pos.eqb orb].
      rewrite (scan_members_dumps n IHn); [reflexivity|assumption..|].
      cbn [length] in Hf. rewrite length_app in Hf. cbn [length] in Hf. lia.
Qed.

(** [json.loads(json.dumps(v, ensure_ascii=False)) == v] for every value made
    of None, booleans, strings, lists and dicts with distinct keys. *)
Lemma loads_dumps v : plain v -> loads (dumps v) = Ok v.
Proof.
  intros Hp. unfold loads.
  pose proof (skip_ws_dumps v [] Hp) as Hskip.
  pose proof (scan_once_dumps (size v) v (le_n _) Hp
                (S (length (dumps v))) [] (Nat.lt_succ_diag_r _)) as Hscan.
  rewrite app_nil_r in Hskip, Hscan. rewrite Hskip, Hscan. reflexivity.
Qed.

Example loads_dumps_sample :
  loads (dumps (PList [PDict [(lit "headword", PStr (lit "run"));
                              (lit "idioms", PList [PStr [34%N; 10%N; 1%N; 92%N; 601%N]]);
                              (lit "part_of_speech", PNone)];
                       PDict []]))
  = Ok (PList [PDict [(lit "headword", PStr (lit "run"));
                      (lit "idioms", PList [PStr [34%N; 10%N; 1%N; 92%N; 601%N]]);
                      (lit "part_of_speech", PNone)];
               PDict []]).
Proof. vm_compute. reflexivity. Qed.

End JsonFacts.

(** ** The scraper *)

Module OaldFacts.
Import Json Soup Oald Samples.

(** *** One entry *)

Lemma process_entry_raises net soup e :
  get_idioms soup = Raise e -> _process_entry net soup = ([], PDict []).
Proof. intros H. unfold _process_entry. rewrite H. reflexivity. Qed.

Lemma process_entry_ok net soup idioms :
  get_idioms soup = Ok idioms ->
  _process_entry net soup
  = (fst (get_phrasal_verbs net soup),
     PDict [ (lit "headword", get_headword soup);
             (lit "part_of_speech", get_part_of_speech soup);
             (lit "pronunciations", get_pronunciations soup);
             (lit "meanings", PList (get_meanings soup));
             (lit "idioms", PList idioms);
             (lit "phrasal_verbs", PList (snd (get_phrasal_verbs net soup))) ]).
Proof.
  intros H. unfold _process_entry. rewrite H.
  destruct (get_phrasal_verbs net soup). reflexivity.
Qed.

(** C3: the code at the failing input. [bad_page] is a valid page (it has
    its headword and its part of speech) with one idiom whose definition
    list is missing. Parsing that idiom raises AttributeError, and
    [_process_entry] answers with the empty dict: the headword, the part of
    speech, the pronunciations and the meanings of the page are lost, and
    [fetch_word] keeps that empty dict as the word's only entry. *)
Theorem idiom_failure_empties_entry :
  _is_valid_entry (Some bad_page) = true /\
  get_headword bad_page = PStr (lit "run") /\
  get_part_of_speech bad_page = PStr (lit "verb") /\
  get_idioms bad_page = Raise AttributeError /\
  _process_entry (serve (Reply 200 (Ok bad_page)) not_found) bad_page
    = ([], PDict []) /\
  snd (fst (fetch_word (serve (Reply 200 (Ok bad_page)) not_found)
              (__init__ (lit "run"))))
    = {| word := lit "run"; entries := PList [PDict []] |}.
Proof. vm_compute. repeat split; reflexivity. Qed.

(** *** Phrasal verbs *)

Lemma flat_map_map {A B C} (f : B -> list C) (g : A -> B) (l : list A) :
  List.flat_map f (List.map g l) = List.flat_map (fun x => f (g x)) l.
Proof. induction l as [|x l IH]; cbn; [reflexivity|]. rewrite IH. reflexivity. Qed.

Lemma phrasal_verbs_of_links net soup section :
  find (root soup) (lit "aside") (HasClass PHRASAL_VERBS_CLASS) = Some section ->
  snd (get_phrasal_verbs net soup)
  = List.flat_map
      (fun l => pv_entry (fst l, pv_senses net (fst l) (snd l)))
      (pv_links section).
Proof.
  intros H. unfold get_phrasal_verbs. rewrite H. cbn [snd].
  rewrite flat_map_map. reflexivity.
Qed.

Lemma pv_entry_in verb senses e :
  In e (pv_entry (verb, senses)) <->
  exists d ds, senses = Some (d :: ds) /\
    e = PDict [ (lit "phrasal_verb", PStr verb);
                (lit "senses", PList (d :: ds)) ].
Proof.
  unfold pv_entry. cbn [fst snd]. destruct senses as [[|d ds]|].
  - split; [intros []|intros (? & ? & ? & _); discriminate].
  - split.
    + intros [<-|[]]. eauto.
    + intros (d' & ds' & [= <- <-] & ->). left. reflexivity.
  - split; [intros []|intros (? & ? & ? & _); discriminate].
Qed.

Lemma pv_senses_override_empty net url status page verb url' :
  net url = Reply status (Ok page) -> _parse_pv_page page = [] ->
  pv_entry (verb, pv_senses (override net url (NoReply ClientError)) verb url')
  = pv_entry (verb, pv_senses net verb url').
Proof.
  intros Hnet Hparse. unfold pv_senses, _fetch_pv_data, override. cbn [snd].
  case_bool_decide as Hu; [subst url'|reflexivity].
  rewrite Hnet. destruct (400 <=? status); [reflexivity|].
  rewrite Hparse. reflexivity.
Qed.

(** C10. The phrasal verbs of an entry are exactly the links of the page
    whose fetch gave a non-empty list of senses; and a link whose page is
    fetched but has no sense leaves the list as it would be had the fetch
    of that link failed. *)
Theorem empty_phrasal_verb_omitted (net : pystr -> reply) (soup : node) :
  (forall e, In e (snd (get_phrasal_verbs net soup)) <->
     exists section verb url d ds,
       find (root soup) (lit "aside") (HasClass PHRASAL_VERBS_CLASS)
         = Some section /\
       In (verb, url) (pv_links section) /\
       pv_senses net verb url = Some (d :: ds) /\
       e = PDict [ (lit "phrasal_verb", PStr verb);
                   (lit "senses", PList (d :: ds)) ]) /\
  (forall url status page,
     net url = Reply status (Ok page) -> _parse_pv_page page = [] ->
     snd (get_phrasal_verbs (override net url (NoReply ClientError)) soup)
     = snd (get_phrasal_verbs net soup)).
Proof.
  split.
  - intros e.
    destruct (find (root soup) (lit "aside") (HasClass PHRASAL_VERBS_CLASS))
      as [section|] eqn:Hs.
    + rewrite (phrasal_verbs_of_links net soup section Hs), List.in_flat_map.
      split.
      * intros ([verb url] & Hin & He). apply pv_entry_in in He.
        destruct He as (d & ds & Hsenses & ->). cbn [fst snd] in *.
        exists section, verb, url, d, ds. auto.
      * intros (section' & verb & url & d & ds & [= <-] & Hin & Hsenses & ->).
        exists (verb, url). split; [exact Hin|].
        apply pv_entry_in. cbn [fst snd]. eauto.
    + unfold get_phrasal_verbs. rewrite Hs. cbn [snd]. split; [intros []|].
      intros (? & ? & ? & ? & ? & ? & _). discriminate.
  - intros url status page Hnet Hparse.
    destruct (find (root soup) (lit "aside") (HasClass PHRASAL_VERBS_CLASS))
      as [section|] eqn:Hs.
    + rewrite !(phrasal_verbs_of_links _ soup section Hs).
      apply List.flat_map_ext. intros [verb url']. cbn [fst snd].
      eapply pv_senses_override_empty; eauto.
    + unfold get_phrasal_verbs. rewrite Hs. reflexivity.
Qed.

Lemma empty_phrasal_verb_omitted_witness :
  snd (get_phrasal_verbs (serve not_found not_found) good_page)
    = [ PDict [ (lit "phrasal_verb", PStr (lit "run up"));
                (lit "senses",
                 PList [ PDict [ (lit "definition", PStr (lit "to increase"));
                                 (lit "examples", PList []);
                                 (lit "level", PStr []) ] ]) ] ] /\
  snd (get_phrasal_verbs
         (override (serve not_found not_found) (lit "https://x/run-in")
            (NoReply ClientError)) good_page)
  = snd (get_phrasal_verbs (serve not_found not_found) good_page).
Proof.
  split; [vm_compute; reflexivity|].
  apply (proj2 (empty_phrasal_verb_omitted (serve not_found not_found) good_page)
           (lit "https://x/run-in") 200 empty_page);
    vm_compute; reflexivity.
Defined.

(** *** The variations of a word *)

Lemma map_result_length {A B} (f : A -> result B) l ys :
  map_result f l = Ok ys -> length ys = length l.
Proof.
  revert ys. induction l as [|x l IH]; cbn; intros ys.
  - intros [= <-]. reflexivity.
  - destruct (f x); cbn; [|discriminate].
    destruct (map_result f l); cbn; [|discriminate].
    intros [= <-]. cbn. f_equal. apply IH. reflexivity.
Qed.

Lemma map_result_all_ok {A B} (f : A -> result B) (g : A -> B) l :
  (forall x, In x l -> f x = Ok (g x)) -> map_result f l = Ok (List.map g l).
Proof.
  induction l as [|x l IH]; cbn; intros H; [reflexivity|].
  rewrite (H x) by auto. cbn. rewrite IH by auto. reflexivity.
Qed.

Lemma map_result_raises {A B} (f : A -> result B) l x e :
  In x l -> f x = Raise e ->
  exists x' e', In x' l /\ f x' = Raise e' /\ map_result f l = Raise e'.
Proof.
  induction l as [|y l IH]; cbn; [intros []|].
  intros Hin Hx. destruct (f y) as [b|e0] eqn:Hy.
  - destruct Hin as [->|Hin]; [congruence|].
    destruct (IH Hin Hx) as (x' & e' & Hin' & Hx' & Hm).
    exists x', e'. rewrite Hm. cbn. auto.
  - exists y, e0. cbn. auto.
Qed.

Lemma gather_log {A} (f : pystr -> list pystr * result A) urls :
  (forall u, fst (f u) = [u]) ->
  fst (gather (List.map f urls)) = urls.
Proof.
  intros Hf. unfold gather. cbn [fst]. rewrite flat_map_map.
  induction urls as [|u urls IH]; cbn; [reflexivity|].
  rewrite Hf, IH. reflexivity.
Qed.

Lemma gather_result {A} (f : pystr -> list pystr * result A) urls :
  snd (gather (List.map f urls)) = map_result (fun u => snd (f u)) urls.
Proof.
  unfold gather. cbn [snd].
  induction urls as [|u urls IH]; cbn; [reflexivity|]. rewrite IH. reflexivity.
Qed.

Lemma fetch_variation_contained net url :
  contained net url -> snd (_fetch_variation net url) = Ok (page_of net url).
Proof.
  unfold contained, _fetch_variation, page_of. cbn [snd].
  destruct (net url) as [e|status [soup|e]].
  - intros ->. reflexivity.
  - intros _. destruct (status =? 200); reflexivity.
  - intros H. destruct (Z.eqb_spec status 200) as [->|Hne]; [|reflexivity].
    rewrite H by reflexivity. reflexivity.
Qed.

Lemma fetch_variation_raises net url e :
  snd (_fetch_variation net url) = Raise e -> is_network_error e = false.
Proof.
  unfold _fetch_variation. cbn [snd].
  destruct (net url) as [e0|status [soup|e0]].
  - destruct (is_network_error e0) eqn:He; [discriminate|]. congruence.
  - destruct (status =? 200); discriminate.
  - destruct (status =? 200); [|discriminate].
    destruct (is_network_error e0) eqn:He; [discriminate|]. congruence.
Qed.

Lemma valid_pages_nil results :
  valid_pages results = [] <->
  forall page, In page results -> _is_valid_entry page = false.
Proof.
  unfold valid_pages. induction results as [|r results IH]; cbn.
  - split; [intros _ ? []|reflexivity].
  - destruct (_is_valid_entry r) eqn:Hv.
    + destruct r as [doc|]; [|discriminate Hv]. cbn. split; [discriminate|].
      intros H. specialize (H (Some doc) (or_introl eq_refl)). congruence.
    + cbn. rewrite IH. split.
      * intros H page [<-|Hin]; auto.
      * intros H page Hin. apply H. auto.
Qed.

(** What [fetch_word] does once the five fetches have returned. *)
Lemma fetch_word_gathered net self results :
  snd (gather (List.map (_fetch_variation net) (variation_urls (word self))))
    = Ok results ->
  fetch_word net self
  = (variation_urls (word self)
       ++ List.flat_map fst (List.map (_process_entry net) (valid_pages results)),
     {| word := word self;
        entries := PList (List.map snd (List.map (_process_entry net)
                                          (valid_pages results))) |},
     if truthy (PList (List.map snd (List.map (_process_entry net)
                                       (valid_pages results))))
     then Ok tt else Raise WordNotFound).
Proof.
  intros H. unfold fetch_word.
  pose proof (gather_log (_fetch_variation net) (variation_urls (word self))
                (fun u => eq_refl)) as Hlog.
  destruct (gather (List.map (_fetch_variation net) (variation_urls (word self))))
    as [log1 gathered].
  cbn [fst snd] in *. subst. reflexivity.
Qed.

Lemma fetch_word_raised net self e :
  snd (gather (List.map (_fetch_variation net) (variation_urls (word self))))
    = Raise e ->
  fetch_word net self = (variation_urls (word self), self, Raise e).
Proof.
  intros H. unfold fetch_word.
  pose proof (gather_log (_fetch_variation net) (variation_urls (word self))
                (fun u => eq_refl)) as Hlog.
  destruct (gather (List.map (_fetch_variation net) (variation_urls (word self))))
    as [log1 gathered].
  cbn [fst snd] in *. subst. reflexivity.
Qed.

Lemma find_some_iff h name f :
  (exists x, find h name f = Some x) <->
  (exists x, In x (below h) /\ matches name f x = true).
Proof.
  unfold find, find_all. split.
  - intros [x Hx].
    destruct (List.filter (matches name f) (below h)) as [|y l] eqn:Hf;
      [discriminate|].
    injection Hx as ->. exists x.
    apply List.filter_In. rewrite Hf. left. reflexivity.
  - intros (x & Hin & Hm).
    destruct (List.filter (matches name f) (below h)) as [|y l] eqn:Hf.
    + exfalso. assert (Hx : In x (List.filter (matches name f) (below h)))
        by (apply List.filter_In; auto).
      rewrite Hf in Hx. destruct Hx.
    + exists y. reflexivity.
Qed.

Lemma valid_entry_iff soup :
  _is_valid_entry (Some soup) = true <->
  (exists h, In h (below (root soup)) /\
             matches (lit "h1") (HasClass HEADWORD_CLASS) h = true) /\
  (exists p, In p (below (root soup)) /\
             matches (lit "span") (HasClass POS_CLASS) p = true).
Proof.
  rewrite <- !find_some_iff. unfold _is_valid_entry.
  destruct (find (root soup) (lit "h1") (HasClass HEADWORD_CLASS)) as [h|];
    destruct (find (root soup) (lit "span") (HasClass POS_CLASS)) as [p|];
    split; try discriminate; eauto;
    intros [[? ?] [? ?]]; discriminate.
Qed.

Lemma entries_nonempty {A} (f : A -> list pystr * pyval) pages :
  truthy (PList (List.map snd (List.map f pages))) = true <-> pages <> [].
Proof. destruct pages; cbn; split; congruence. Qed.



(** C4 as stated fails: variation 1 of "run" is a valid page, the body of
    variation 2 cannot be decoded. UnicodeDecodeError is not one of the two
    exception classes [_fetch_variation] catches, so it leaves
    [asyncio.gather] and [fetch_word]: the word has no entry at all. *)
Lemma undecodable_variation_fails_word :
  _is_valid_entry
    (page_of (serve (Reply 200 (Ok good_page))
                    (Reply 200 (Raise UnicodeDecodeError)))
       (BASE_URL ++ lit "run_1")) = true /\
  fetch_word (serve (Reply 200 (Ok good_page))
                    (Reply 200 (Raise UnicodeDecodeError)))
    (__init__ (lit "run"))
  = (variation_urls (lit "run"), __init__ (lit "run"), Raise UnicodeDecodeError).
Proof. vm_compute. split; reflexivity. Qed.

(** C4, as the code has it. When every failing fetch of a variation fails
    with aiohttp.ClientError or asyncio.TimeoutError, [fetch_word] requests
    all five variations and does not fail for any of them: a failed or
    non-200 variation counts as absent, and the entries are those of the
    valid pages among the others, in order. An exception of any other class
    raised by the fetch of a variation leaves [fetch_word] as it is. *)
Theorem network_errors_contained (net : pystr -> reply) (self : Word)
    (log : list pystr) (self' : Word) (r : result unit) :
  fetch_word net self = (log, self', r) ->
  ((forall url, In url (variation_urls (word self)) -> contained net url) ->
   (r = Ok tt \/ r = Raise WordNotFound) /\
   List.firstn MAX_ENTRIES log = variation_urls (word self) /\
   entries self'
   = PList (List.map (fun soup => snd (_process_entry net soup))
              (valid_pages (List.map (page_of net)
                              (variation_urls (word self)))))) /\
  (forall url e,
     In url (variation_urls (word self)) ->
     snd (_fetch_variation net url) = Raise e ->
     exists e', r = Raise e' /\ is_network_error e' = false /\ self' = self).
Proof.
  intros Hf. split.
  - intros Hall.
    assert (Hg : snd (gather (List.map (_fetch_variation net)
                                (variation_urls (word self))))
                 = Ok (List.map (page_of net) (variation_urls (word self)))).
    { rewrite gather_result. apply map_result_all_ok.
      intros u Hu. apply fetch_variation_contained, Hall, Hu. }
    rewrite (fetch_word_gathered net self _ Hg) in Hf.
    apply pair_equal_spec in Hf as [Hf Hr]; apply pair_equal_spec in Hf as [Hlog Hself]; subst log self' r. split; [|split].
    + destruct (truthy _); auto.
    + assert (Hlen : length (variation_urls (word self)) = MAX_ENTRIES).
      { unfold variation_urls. rewrite length_map, length_seq. reflexivity. }
      rewrite <- Hlen, List.firstn_app, Nat.sub_diag, List.firstn_all.
      rewrite List.firstn_O. apply app_nil_r.
    + cbn [entries]. rewrite List.map_map. reflexivity.
  - intros url e Hin Hraise.
    destruct (map_result_raises (fun u => snd (_fetch_variation net u))
                (variation_urls (word self)) url e Hin Hraise)
      as (u' & e' & _ & Hu' & Hm).
    rewrite <- gather_result in Hm.
    rewrite (fetch_word_raised net self e' Hm) in Hf.
    apply pair_equal_spec in Hf as [Hf Hr]; apply pair_equal_spec in Hf as [Hlog Hself]; subst log self' r.
    exists e'. split; [reflexivity|].
    split; [|reflexivity]. eapply fetch_variation_raises; eauto.
Qed.

Lemma network_errors_contained_witness :
  fetch_word (serve (NoReply TimeoutError) (Reply 200 (Ok good_page)))
    (__init__ (lit "run"))
  = (variation_urls (lit "run") ++ [lit "https://x/run-up"; lit "https://x/run-in"],
     {| word := lit "run";
        entries := PList [snd (_process_entry
                                 (serve (NoReply TimeoutError)
                                        (Reply 200 (Ok good_page)))
                                 good_page)] |},
     Ok tt) /\
  ((Ok tt : result unit) = Ok tt \/ Ok tt = Raise WordNotFound).
Proof.
  assert (E : fetch_word (serve (NoReply TimeoutError) (Reply 200 (Ok good_page)))
                (__init__ (lit "run"))
              = (variation_urls (lit "run")
                   ++ [lit "https://x/run-up"; lit "https://x/run-in"],
                 {| word := lit "run";
                    entries := PList [snd (_process_entry
                                 (serve (NoReply TimeoutError)
                                        (Reply 200 (Ok good_page)))
                                 good_page)] |},
                 Ok tt)) by (vm_compute; reflexivity).
  split; [exact E|].
  apply (proj1 (network_errors_contained _ _ _ _ _ E)).
  intros url Hin. cbn in Hin.
  repeat (destruct Hin as [<-|Hin]; [vm_compute; try reflexivity; exact I|]).
  contradiction.
Defined.

(** *** What the scraper builds can be cached *)

Ltac each_value :=
  repeat first [apply List.Forall_nil | apply List.Forall_cons]; cbn [snd].

Ltac distinct_keys :=
  cbn [List.map fst]; apply (bool_decide_unpack _); vm_compute; reflexivity.

Lemma strings_plain {A} (f : A -> pystr) l :
  Forall plain (List.map (fun x => PStr (f x)) l).
Proof. induction l; cbn; constructor; [exact I|assumption]. Qed.

Lemma sense_dict_plain h : plain (sense_dict h).
Proof.
  unfold sense_dict. apply JsonFacts.plain_dict. split; [distinct_keys|].
  repeat constructor. cbn [snd]. apply JsonFacts.plain_list, strings_plain.
Qed.

Lemma senses_plain l : Forall plain (List.map sense_dict l).
Proof. induction l; cbn; constructor; [apply sense_dict_plain|assumption]. Qed.

Lemma get_pronunciation_plain soup region :
  plain (get_pronunciation soup region).
Proof.
  unfold get_pronunciation.
  destruct (find (root soup) (lit "div") (HasClass region));
    (apply JsonFacts.plain_dict; split; [distinct_keys|repeat constructor]).
Qed.

Lemma parse_idiom_plain soup h v : _parse_idiom soup h = Ok v -> plain v.
Proof.
  unfold _parse_idiom.
  destruct (find_next soup h (lit "ol") (HasClass (lit "sense_single")));
    [|discriminate].
  destruct (find h0 (lit "span") (HasClass DEF_CLASS)); [|discriminate].
  intros [= <-]. apply JsonFacts.plain_dict. split; [distinct_keys|].
  repeat constructor. cbn [snd]. apply JsonFacts.plain_list, strings_plain.
Qed.

Lemma map_result_forall {A B} (f : A -> result B) (P : B -> Prop) l ys :
  (forall x y, f x = Ok y -> P y) -> map_result f l = Ok ys -> Forall P ys.
Proof.
  intros Hf. revert ys. induction l as [|x l IH]; cbn; intros ys.
  - intros [= <-]. constructor.
  - destruct (f x) as [y|] eqn:Hx; cbn; [|discriminate].
    destruct (map_result f l) as [ys'|]; cbn; [|discriminate].
    intros [= <-]. constructor; eauto.
Qed.

Lemma get_idioms_plain soup idioms :
  get_idioms soup = Ok idioms -> Forall plain idioms.
Proof.
  unfold get_idioms.
  destruct (find (root soup) (lit "div") (HasClass IDIOMS_CLASS)).
  - apply map_result_forall. apply parse_idiom_plain.
  - intros [= <-]. constructor.
Qed.

Lemma pv_entry_plain verb senses :
  (forall l, senses = Some l -> Forall plain l) ->
  Forall plain (pv_entry (verb, senses)).
Proof.
  intros H. unfold pv_entry. cbn [fst snd].
  destruct senses as [[|d ds]|]; constructor; [|constructor].
  apply JsonFacts.plain_dict. split; [distinct_keys|].
  constructor; [exact I|]. constructor; [|constructor].
  cbn [snd]. apply JsonFacts.plain_list. apply H. reflexivity.
Qed.

Lemma pv_senses_plain net verb url l :
  pv_senses net verb url = Some l -> Forall plain l.
Proof.
  unfold pv_senses, _fetch_pv_data. cbn [snd].
  destruct (net url) as [|status [soup|]]; try discriminate.
  - destruct (400 <=? status); [discriminate|]. intros [= <-].
    apply senses_plain.
  - destruct (400 <=? status); discriminate.
Qed.

Lemma get_phrasal_verbs_plain net soup :
  Forall plain (snd (get_phrasal_verbs net soup)).
Proof.
  destruct (find (root soup) (lit "aside") (HasClass PHRASAL_VERBS_CLASS))
    as [section|] eqn:Hs.
  - rewrite (phrasal_verbs_of_links net soup section Hs).
    induction (pv_links section) as [|[verb url] l IH]; cbn; [constructor|].
    apply Forall_app. split; [|exact IH].
    apply pv_entry_plain. cbn [fst snd]. apply (pv_senses_plain net verb url).
  - unfold get_phrasal_verbs. rewrite Hs. constructor.
Qed.

Lemma process_entry_plain net soup : plain (snd (_process_entry net soup)).
Proof.
  destruct (get_idioms soup) as [idioms|e] eqn:Hi.
  - rewrite (process_entry_ok net soup idioms Hi). cbn [snd].
    apply JsonFacts.plain_dict. split; [distinct_keys|]. each_value.
    + unfold get_headword. destruct (find _ _ _); exact I.
    + unfold get_part_of_speech. destruct (find _ _ _); exact I.
    + unfold get_pronunciations. apply JsonFacts.plain_dict.
      split; [distinct_keys|]. each_value; apply get_pronunciation_plain.
    + apply JsonFacts.plain_list. unfold get_meanings.
      destruct (find _ _ _); [apply senses_plain|constructor].
    + apply JsonFacts.plain_list. eapply get_idioms_plain; eauto.
    + apply JsonFacts.plain_list. apply get_phrasal_verbs_plain.
  - rewrite (process_entry_raises net soup e Hi). cbn.
    split; [constructor|exact I].
Qed.

Lemma fetch_word_word net self log self' r :
  fetch_word net self = (log, self', r) -> word self' = word self.
Proof.
  intros Hf.
  destruct (snd (gather (List.map (_fetch_variation net)
                           (variation_urls (word self))))) as [results|e] eqn:Hg.
  - rewrite (fetch_word_gathered net self results Hg) in Hf.
    apply pair_equal_spec in Hf as [Hf Hr];
      apply pair_equal_spec in Hf as [Hlog Hself]; subst self'. reflexivity.
  - rewrite (fetch_word_raised net self e Hg) in Hf.
    apply pair_equal_spec in Hf as [Hf Hr];
      apply pair_equal_spec in Hf as [Hlog Hself]; subst self'. reflexivity.
Qed.

(** The entry list of a successful [fetch_word] is made of None, strings,
    lists and dicts with distinct keys. *)
Lemma fetch_word_plain net self log self' :
  fetch_word net self = (log, self', Ok tt) -> plain (entries self').
Proof.
  intros Hf.
  destruct (snd (gather (List.map (_fetch_variation net)
                           (variation_urls (word self))))) as [results|e] eqn:Hg.
  - rewrite (fetch_word_gathered net self results Hg) in Hf.
    apply pair_equal_spec in Hf as [Hf Hr];
      apply pair_equal_spec in Hf as [Hlog Hself]; subst self'.
    cbn [entries]. apply JsonFacts.plain_list. clear Hr Hlog.
    induction (valid_pages results) as [|doc l IH]; cbn; [constructor|].
    constructor; [apply process_entry_plain|exact IH].
  - rewrite (fetch_word_raised net self e Hg) in Hf.
    apply pair_equal_spec in Hf as [Hf Hr]. discriminate Hr.
Qed.

(** *** The cache *)

Lemma cache_path_same w w' self self' :
  home w' = home w -> word self' = word self ->
  _get_cache_path w' self' = _get_cache_path w self.
Proof. intros Hh Hw. unfold _get_cache_path. rewrite Hh, Hw. reflexivity. Qed.

(** What [_cache_processed_data] leaves behind. *)
Lemma cache_write_cases w self path :
  _get_cache_path w self = Ok path ->
  exists w', _cache_processed_data w self = Ok w' /\
    home w' = home w /\ requests w' = requests w /\
    (fs w' = fs w \/
     exists k, fs w' = <[path := List.firstn k (dumps (entries self))]> (fs w)) /\
    (mkdir_raises (io w) = None -> open_raises (io w) = None ->
     write_raises (io w) = None ->
     (exists bytes, Hash.encode (dumps (entries self)) = Ok bytes) ->
     fs w' = <[path := dumps (entries self)]> (fs w)).
Proof.
  intros Hp. unfold _cache_processed_data. rewrite Hp. cbn [bind].
  destruct (mkdir_raises (io w)) as [e1|].
  { exists w. repeat split; auto; discriminate. }
  destruct (open_raises (io w)) as [e2|].
  { exists w. repeat split; auto; discriminate. }
  destruct (Hash.encode (dumps (entries self))) as [bytes|e3].
  - destruct (write_raises (io w)) as [[k e4]|]; eexists; (split; [reflexivity|]);
      cbn [home requests fs set_fs]; rewrite insert_insert_eq;
      (split; [reflexivity|]); (split; [reflexivity|]).
    + split; [right; eauto|discriminate].
    + split; [right; exists (length (dumps (entries self)));
              rewrite List.firstn_all; reflexivity|auto].
  - eexists. split; [reflexivity|]. cbn [home requests fs set_fs].
    split; [reflexivity|]. split; [reflexivity|]. split.
    + right. exists 0%nat. reflexivity.
    + intros _ _ _ [bytes Hb]. discriminate Hb.
Qed.

(** The two ways [initialize] runs after a miss. *)
Lemma initialize_miss w self path log self' r :
  _get_cache_path w self = Ok path ->
  _try_load_cached_data w self = Ok (self, false) ->
  fetch_word (net w) self = (log, self', r) ->
  match r with
  | Raise e => initialize w self = (add_requests log w, self', Raise e)
  | Ok _ =>
      exists w', _cache_processed_data (add_requests log w) self' = Ok w' /\
                 initialize w self = (w', self', Ok tt)
  end.
Proof.
  intros Hp Hl Hf. unfold initialize. rewrite Hp, Hl, Hf.
  destruct r as [[]|e]; [|reflexivity].
  assert (Hp' : _get_cache_path (add_requests log w) self' = Ok path).
  { rewrite <- Hp. apply cache_path_same; [reflexivity|].
    eapply fetch_word_word; eauto. }
  destruct (cache_write_cases _ _ _ Hp') as (w' & Hw' & _).
  exists w'. rewrite Hw'. auto.
Qed.

Lemma try_load_miss w self s :
  _try_load_cached_data w self = Ok (s, false) -> s = self.
Proof.
  unfold _try_load_cached_data.
  destruct (_get_cache_path w self) as [path|]; cbn [bind]; [|discriminate].
  destruct (fs w !! path); [|congruence].
  destruct (read_raises (io w)); [congruence|].
  destruct (loads p); [discriminate|congruence].
Qed.

Lemma try_load_total w self path :
  _get_cache_path w self = Ok path ->
  exists s b, _try_load_cached_data w self = Ok (s, b).
Proof.
  intros Hp. unfold _try_load_cached_data. rewrite Hp. cbn [bind].
  destruct (fs w !! path); [|eauto].
  destruct (read_raises (io w)); [eauto|].
  destruct (loads p); eauto.
Qed.






End OaldFacts.

(** ** More on the rate limiter *)

Module RateLimiterMore.
Import RateLimiter.

Lemma purge_head now p ts t0 r : purge now p ts = t0 :: r -> now - p < t0.
Proof.
  induction ts as [|t ts IH]; cbn; [discriminate|].
  destruct (Z.leb_spec t (now - p)) as [Hle|Hgt]; [exact IH|].
  intros [= <- _]. exact Hgt.
Qed.

Lemma purge_length now p ts : (length (purge now p ts) <= length ts)%nat.
Proof.
  destruct (RateLimiterFacts.purge_suffix now p ts) as (gone & Heq & _).
  rewrite Heq at 2. rewrite length_app. lia.
Qed.

Lemma purge_drops_head now p t0 r :
  t0 <= now - p -> (length (purge now p (t0 :: r)) <= length r)%nat.
Proof.
  intros H. cbn. destruct (Z.leb_spec t0 (now - p)); [|lia].
  apply purge_length.
Qed.

Lemma wait_length now l :
  Z.of_nat (length (timestamps l)) <= Z.max 0 (max_calls l) ->
  Z.of_nat (length (timestamps (fst (wait now l)))) <= Z.max 0 (max_calls l).
Proof.
  intros H. unfold wait.
  pose proof (purge_length now (period l) (timestamps l)) as Hp.
  destruct (Z.ltb_spec (Z.of_nat (length (purge now (period l) (timestamps l))))
              (max_calls l)) as [Hlt|Hge].
  - cbn. rewrite length_app. cbn. lia.
  - destruct (purge now (period l) (timestamps l)) eqn:E; cbn in *; lia.
Qed.

Lemma step_length s ev s' :
  Z.of_nat (length (timestamps (lim s))) <= Z.max 0 (max_calls (lim s)) ->
  step s ev = Some s' ->
  Z.of_nat (length (timestamps (lim s'))) <= Z.max 0 (max_calls (lim s')).
Proof.
  intros H Hstep.
  destruct (RateLimiterFacts.step_config _ _ _ Hstep) as [Hmc _]. rewrite Hmc.
  destruct ev as [c now]. unfold step in Hstep.
  destruct (runnable s c now); [|discriminate].
  pose proof (wait_length now (lim s) H) as Hw.
  destruct (wait now (lim s)) as [l' o]. cbn in Hw.
  destruct o; injection Hstep as <-; exact Hw.
Qed.

Lemma run_length sched : forall s s',
  Z.of_nat (length (timestamps (lim s))) <= Z.max 0 (max_calls (lim s)) ->
  run sched s = Some s' ->
  Z.of_nat (length (timestamps (lim s'))) <= Z.max 0 (max_calls (lim s')).
Proof.
  induction sched as [|ev sched IH]; cbn; intros s s' H.
  - intros [= <-]. exact H.
  - destruct (step s ev) as [s1|] eqn:Hstep; [|discriminate].
    apply IH. eapply step_length; eauto.
Qed.

Lemma timestamps_past s :
  inv s -> Forall (fun t => t <= clock s) (timestamps (lim s)).
Proof.
  intros [(old & Hsplit & _) Hsorted Hclock]. rewrite Hsplit in Hclock.
  apply Forall_app in Hclock. apply Hclock.
Qed.

(** The deque in every reachable state: sorted, nothing from the future,
    and never longer than [max_calls]. *)
Theorem deque_invariant (mc p : Z) (sched : list (nat * Z)) (s : sys) :
  run sched (start mc p) = Some s ->
  StronglySorted Z.le (timestamps (lim s)) /\
  Forall (fun t => t <= clock s) (timestamps (lim s)) /\
  Z.of_nat (length (timestamps (lim s))) <= Z.max 0 mc.
Proof.
  intros Hrun.
  pose proof (RateLimiterFacts.run_inv _ _ _ (RateLimiterFacts.start_inv mc p) Hrun)
    as Hinv.
  split; [|split].
  - destruct Hinv as [(old & Hsplit & _) Hsorted _]. rewrite Hsplit in Hsorted.
    eapply RateLimiterFacts.sorted_app_r; eauto.
  - apply timestamps_past, Hinv.
  - destruct (RateLimiterFacts.run_config _ _ _ Hrun) as [Hmc _]. cbn in Hmc.
    rewrite <- Hmc. eapply run_length; [|exact Hrun]. cbn. lia.
Qed.

Lemma deque_invariant_witness :
  exists s, run [(0%nat, 0); (1%nat, 1); (2%nat, 2); (2%nat, 10)] (start 2 10)
            = Some s /\
    timestamps (lim s) = [1; 10] /\
    Z.of_nat (length (timestamps (lim s))) <= Z.max 0 2.
Proof.
  eexists. split; [vm_compute; reflexivity|]. split; [reflexivity|].
  apply (deque_invariant 2 10 [(0%nat, 0); (1%nat, 1); (2%nat, 2); (2%nat, 10)]).
  vm_compute. reflexivity.
Defined.





End RateLimiterMore.

(** ** More on the media downloader *)

Module MediaMore.
Import RateLimiter Media MediaInv.

(** *** The semaphore *)

Lemma holders_set_task id u p w :
  holders (set_task id u p w)
  = (others id w + if holding p then 1 else 0)%nat.
Proof.
  unfold holders, others. cbn [tasks set_task].
  rewrite map_filter_insert. case_decide as Hd; unfold holds in Hd;
    cbn [snd at_pc] in Hd.
  - rewrite Hd. rewrite <- insert_delete_eq, <- map_filter_delete.
    rewrite map_size_insert_None; [lia|].
    rewrite map_filter_delete. apply lookup_delete_eq.
  - destruct (holding p); [congruence|]. lia.
Qed.

Lemma holders_split id w :
  holders w
  = (others id w + match tasks w !! id with
                   | Some t => if holding (at_pc t) then 1 else 0
                   | None => 0
                   end)%nat.
Proof.
  destruct (tasks w !! id) as [t|] eqn:Ht.
  - rewrite <- (holders_set_task id (url t) (at_pc t) w).
    unfold holders. cbn [tasks set_task]. destruct t as [u p]. cbn.
    rewrite insert_id by exact Ht. reflexivity.
  - unfold holders, others. rewrite delete_id by exact Ht. lia.
Qed.

Lemma handle_slots now id u k e w :
  (semaphore (md (handle now id u k e w)) + holders (handle now id u k e w)
   = semaphore (md w) + others id w + 1)%nat.
Proof.
  unfold handle.
  destruct (is_network_error e); [destruct (k =? 2)%nat|];
    rewrite holders_set_task; cbn; unfold others; cbn; lia.
Qed.

Lemma begin_attempt_slots now id u k w :
  (semaphore (md (begin_attempt now id u k w))
   + holders (begin_attempt now id u k w)
   = semaphore (md w) + others id w + 1)%nat.
Proof.
  unfold begin_attempt.
  destruct (wait now (rate_limiter (md w))) as [l' o].
  destruct o as [|d|e].
  - destruct (filename_of u) as [f|e].
    + case_decide; rewrite holders_set_task; cbn; unfold others; cbn; lia.
    + rewrite handle_slots. unfold others. cbn. lia.
  - rewrite holders_set_task. cbn. unfold others. cbn. lia.
  - rewrite handle_slots. unfold others. cbn. lia.
Qed.

Lemma step_slots w ev w' :
  step w ev = Some w' ->
  (semaphore (md w') + holders w' = semaphore (md w) + holders w)%nat.
Proof.
  destruct ev as [[id now] inp]. unfold step.
  destruct (now <? clock w); [discriminate|].
  rewrite (holders_split id w).
  change (tasks (set_clock now w) !! id) with (tasks w !! id).
  destruct (tasks w !! id) as [t|] eqn:Ht.
  - destruct inp; try discriminate; destruct (at_pc t) eqn:Hat; try discriminate;
      cbn [holding].
    + destruct (Nat.ltb_spec 0 (semaphore (md (set_clock now w)))) as [Hs|];
        [|discriminate].
      intros [= <-]. rewrite begin_attempt_slots. unfold others. cbn in *. lia.
    + destruct (wake <=? now); [|discriminate]. intros [= <-].
      rewrite begin_attempt_slots. unfold others. cbn. lia.
    + destruct (wake <=? now); [|discriminate].
      destruct (S attempt <? 3)%nat; intros [= <-].
      * rewrite begin_attempt_slots. unfold others. cbn. lia.
      * rewrite holders_set_task. cbn. unfold others. cbn. lia.
    + intros [= <-]. rewrite holders_set_task. cbn. unfold others. cbn. lia.
    + intros [= <-]. rewrite handle_slots. unfold others. cbn. lia.
    + intros [= <-]. rewrite holders_set_task. cbn. unfold others. cbn. lia.
    + intros [= <-]. rewrite handle_slots. unfold others. cbn. lia.
  - destruct inp; try discriminate. intros [= <-].
    unfold download_audio. destruct u as [|c u].
    { rewrite holders_set_task. cbn. unfold others. cbn. lia. }
    case_match.
    { rewrite holders_set_task. cbn. unfold others. cbn. lia. }
    destruct (Nat.ltb_spec 0 (semaphore (md (set_clock now w)))) as [Hs|].
    + rewrite begin_attempt_slots. unfold others. cbn in *. lia.
    + rewrite holders_set_task. cbn. unfold others. cbn. lia.
Qed.

(** The free slots of the semaphore and the invocations inside
    [async with self.semaphore] always add up to [max_concurrent]: never more
    than [max_concurrent] invocations are past the semaphore, and every way
    out of the block (a result, None, an exception) gives the slot back. *)
Theorem semaphore_accounting (n : nat) (files : gmap pystr (list N))
    (sched : list (nat * Z * input)) (w : world) :
  run sched (initial n files) = Some w ->
  (semaphore (md w) + holders w = n)%nat.
Proof.
  assert (H : forall sched w0 w1, run sched w0 = Some w1 ->
            (semaphore (md w1) + holders w1
             = semaphore (md w0) + holders w0)%nat).
  { clear. induction sched as [|ev sched IH]; cbn; intros w0 w1.
    - intros [= <-]. reflexivity.
    - destruct (step w0 ev) as [w'|] eqn:Hstep; [|discriminate].
      intros Hrun. rewrite (IH _ _ Hrun). eapply step_slots; eauto. }
  intros Hrun. rewrite (H _ _ _ Hrun). unfold holders. cbn.
  rewrite map_filter_empty, map_size_empty. lia.
Qed.

Lemma semaphore_accounting_witness :
  exists w,
    run [ (0%nat, 0, Invoke (lit "https://x/a.mp3"));
          (1%nat, 0, Invoke (lit "https://x/b.mp3"));
          (2%nat, 1, Invoke (lit "https://x/c.mp3"));
          (0%nat, 5, FetchFail OSError) ] (initial 2 ∅) = Some w /\
    semaphore (md w) = 1%nat /\ holders w = 1%nat.
Proof.
  pose (sched := [ (0%nat, 0, Invoke (lit "https://x/a.mp3"));
                   (1%nat, 0, Invoke (lit "https://x/b.mp3"));
                   (2%nat, 1, Invoke (lit "https://x/c.mp3"));
                   (0%nat, 5, FetchFail OSError) ]).
  pose (w := default (initial 2 ∅) (run sched (initial 2 ∅))).
  assert (E : run sched (initial 2 ∅) = Some w) by (vm_compute; reflexivity).
  assert (Hs : semaphore (md w) = 1%nat) by (vm_compute; reflexivity).
  exists w. split; [exact E|]. split; [exact Hs|].
  pose proof (semaphore_accounting 2 ∅ sched w E) as H. lia.
Defined.

(** *** At most three requests *)

Lemma ainv_frame id w w' : same_for id w w' -> ainv id w -> ainv id w'.
Proof.
  intros (Ht & Ha & Hs & _). unfold ainv. rewrite Ht, Ha, Hs. trivial.
Qed.

Lemma ainv_handle now id u k e w :
  attempts_of id w = S k -> sleeps_of id w = seqZ k -> (k < 3)%nat ->
  ainv id (handle now id u k e w).
Proof.
  intros Ha Hs Hk. unfold handle.
  destruct (is_network_error e); [destruct (Nat.eqb_spec k 2) as [->|Hk2]|];
    unfold ainv; cbn [tasks set_task]; rewrite lookup_insert_eq; cbn [at_pc].
  - split; [change (attempts_of id w <= 3)%nat; lia|]. exists 2%nat. auto.
  - split; [exact Ha|]. split; [|lia].
    change (sleeps_of id (log_sleep id (1 * (Z.of_nat k + 1)) w)
            = seqZ (S k)).
    rewrite MediaFacts.sleeps_log_sleep, Nat.eqb_refl, Hs, MediaFacts.seqZ_S.
    reflexivity.
  - split; [change (attempts_of id w <= 3)%nat; lia|]. exists k.
    split; [lia|exact Hs].
Qed.

Lemma ainv_begin_attempt now id u k w :
  winv w ->
  attempts_of id w = k -> sleeps_of id w = seqZ k -> (k < 3)%nat ->
  ainv id (begin_attempt now id u k w).
Proof.
  intros Hw Ha Hs Hk. unfold begin_attempt.
  pose proof (MediaFacts.wait_never_fails now (rate_limiter (md w))) as Hnf.
  destruct (wait now (rate_limiter (md w))) as [l' o]. cbn in Hnf.
  destruct o as [|d|e].
  - destruct (filename_of u) as [f|e] eqn:Hf.
    + case_decide as Hd; unfold ainv; cbn [tasks set_task];
        rewrite lookup_insert_eq; cbn [at_pc].
      * split; [change (attempts_of id w <= 3)%nat; lia|]. exists k.
        split; [lia|exact Hs].
      * split; [|split; [exact Hs|exact Hk]].
        change (attempts_of id (log_request id u (set_limiter l' w)) = S k).
        rewrite MediaFacts.attempts_log_request, Nat.eqb_refl.
        change (attempts_of id (set_limiter l' w)) with (attempts_of id w). lia.
    + unfold handle. rewrite (MediaFacts.filename_of_raises u e Hf).
      cbn [is_network_error]. unfold ainv. cbn [tasks set_task].
      rewrite lookup_insert_eq. cbn [at_pc].
      split; [change (attempts_of id w <= 3)%nat; lia|]. exists k.
      split; [lia|exact Hs].
  - unfold ainv. cbn [tasks set_task]. rewrite lookup_insert_eq. cbn [at_pc].
    auto.
  - exfalso. apply (Hnf e); [|reflexivity]. rewrite (winv_limit _ Hw). lia.
Qed.

Lemma step_ainv_own id w now inp w' :
  winv w -> ainv id w -> step w (id, now, inp) = Some w' -> ainv id w'.
Proof.
  intros Hw0 Hai. unfold step.
  destruct (now <? clock w); [discriminate|].
  pose proof (MediaFacts.winv_set_clock now w Hw0) as Hw.
  unfold ainv in Hai.
  change (tasks (set_clock now w) !! id) with (tasks w !! id).
  destruct (tasks w !! id) as [t|] eqn:Ht.
  - destruct inp; try discriminate; destruct (at_pc t) eqn:Hat; try discriminate.
    + destruct (0 <? semaphore (md (set_clock now w)))%nat; [|discriminate].
      intros [= <-]. destruct Hai as [Ha Hs].
      apply ainv_begin_attempt; [|exact Ha|exact Hs|lia].
      apply MediaFacts.winv_acquire, Hw.
    + destruct (wake <=? now); [|discriminate]. intros [= <-].
      destruct Hai as (Ha & Hs & Hk). apply ainv_begin_attempt; assumption.
    + destruct (wake <=? now); [|discriminate].
      destruct Hai as (Ha & Hs & Hk).
      destruct (Nat.ltb_spec (S attempt) 3) as [Hlt|Hge]; [|lia].
      intros [= <-]. apply ainv_begin_attempt; assumption.
    + intros [= <-]. unfold ainv. cbn [tasks set_task].
      rewrite lookup_insert_eq. exact Hai.
    + intros [= <-]. destruct Hai as (Ha & Hs & Hk).
      apply ainv_handle; assumption.
    + intros [= <-]. destruct Hai as (Ha & Hs & Hk).
      unfold ainv. cbn [tasks set_task]. rewrite lookup_insert_eq. cbn [at_pc].
      split; [change (attempts_of id w <= 3)%nat; lia|]. exists attempt.
      split; [lia|exact Hs].
    + intros [= <-]. destruct Hai as (Ha & Hs & Hk).
      apply ainv_handle; assumption.
  - destruct inp; try discriminate. intros [= <-]. destruct Hai as [Ha Hs].
    unfold download_audio. destruct u as [|c u].
    { unfold ainv. cbn [tasks set_task]. rewrite lookup_insert_eq. cbn [at_pc].
      split; [change (attempts_of id w <= 3)%nat; lia|]. exists 0%nat.
      split; [lia|exact Hs]. }
    case_match.
    { unfold ainv. cbn [tasks set_task]. rewrite lookup_insert_eq. cbn [at_pc].
      split; [change (attempts_of id w <= 3)%nat; lia|]. exists 0%nat.
      split; [lia|exact Hs]. }
    destruct (0 <? semaphore (md (set_clock now w)))%nat.
    + apply ainv_begin_attempt; [|exact Ha|exact Hs|lia].
      apply MediaFacts.winv_acquire, Hw.
    + unfold ainv. cbn [tasks set_task]. rewrite lookup_insert_eq. cbn [at_pc].
      auto.
Qed.

Lemma run_ainv id sched : forall w w',
  winv w -> ainv id w -> run sched w = Some w' -> ainv id w'.
Proof.
  induction sched as [|ev sched IH]; cbn; intros w w' Hw Hai.
  - intros [= <-]. exact Hai.
  - destruct (step w ev) as [w1|] eqn:Hstep; [|discriminate].
    apply IH; [eapply MediaFacts.step_winv; eauto|].
    destruct ev as [[id' now] inp].
    destruct (decide (id' = id)) as [->|Hne].
    + eapply step_ainv_own; eauto.
    + eapply ainv_frame; [|exact Hai]. eapply MediaFacts.step_same_for; eauto.
Qed.

(** Whatever the network and the disk answer, one invocation of
    [download_audio] calls [session.get] at most three times and backs off at
    most twice, for 1 second and then 2 seconds. *)
Theorem at_most_three_attempts (n : nat) (files : gmap pystr (list N))
    (sched : list (nat * Z * input)) (w : world) (id : nat) :
  run sched (initial n files) = Some w ->
  (attempts_of id w <= 3)%nat /\
  (sleeps_of id w = [] \/ sleeps_of id w = [1] \/ sleeps_of id w = [1; 2]).
Proof.
  intros Hrun.
  assert (Hinit : ainv id (initial n files)).
  { unfold ainv. cbn. rewrite lookup_empty. auto. }
  pose proof (run_ainv id sched _ _ (MediaFacts.initial_winv n files) Hinit Hrun)
    as Hai.
  assert (Hseq : forall k, (k <= 2)%nat ->
            seqZ k = [] \/ seqZ k = [1] \/ seqZ k = [1; 2]).
  { intros k Hk. destruct k as [|[|[|k]]]; [auto..|lia]. }
  unfold ainv in Hai. destruct (tasks w !! id) as [t|].
  - destruct (at_pc t).
    + destruct Hai as [-> ->]. split; [lia|auto].
    + destruct Hai as (-> & -> & Hk). split; [lia|apply Hseq; lia].
    + destruct Hai as (-> & -> & Hk). split; [lia|apply Hseq; lia].
    + destruct Hai as (-> & -> & Hk). split; [lia|apply Hseq; lia].
    + destruct Hai as (-> & -> & Hk). split; [lia|apply Hseq; lia].
    + destruct Hai as (Ha & k & Hk & ->). split; [exact Ha|apply Hseq; exact Hk].
    + destruct Hai as (Ha & k & Hk & ->). split; [exact Ha|apply Hseq; exact Hk].
  - destruct Hai as [-> ->]. split; [lia|auto].
Qed.

Lemma at_most_three_attempts_witness :
  exists w,
    run [ (0%nat, 0, Invoke (lit "https://x/a.mp3"));
          (0%nat, 40, FetchFail ClientError);
          (0%nat, 1040, Resume);
          (0%nat, 1050, FetchFail OSError) ] (initial 10 ∅) = Some w /\
    attempts_of 0 w = 2%nat /\ (attempts_of 0 w <= 3)%nat.
Proof.
  pose (sched := [ (0%nat, 0, Invoke (lit "https://x/a.mp3"));
                   (0%nat, 40, FetchFail ClientError);
                   (0%nat, 1040, Resume);
                   (0%nat, 1050, FetchFail OSError) ]).
  pose (w := default (initial 10 ∅) (run sched (initial 10 ∅))).
  assert (E : run sched (initial 10 ∅) = Some w) by (vm_compute; reflexivity).
  exists w. split; [exact E|]. split; [vm_compute; reflexivity|].
  apply (at_most_three_attempts 10 ∅ sched w 0%nat E).
Defined.

(** *** Files and names that are already there *)

Lemma step_disk_grows w ev w' f :
  step w ev = Some w' -> is_Some (disk w !! f) -> is_Some (disk w' !! f).
Proof.
  intros Hstep. destruct ev as [[id now] inp].
  assert (Hne : id <> S id) by lia.
  apply (MediaFacts.step_same_for (S id) w id now inp w' Hne Hstep).
Qed.

Lemma handle_task now id u k e w :
  exists p, tasks (handle now id u k e w) !! id = Some (mkTask u p).
Proof.
  unfold handle.
  destruct (is_network_error e); [destruct (k =? 2)%nat|];
    cbn [tasks set_task]; rewrite lookup_insert_eq; eauto.
Qed.

Lemma begin_attempt_task now id u k w :
  exists p, tasks (begin_attempt now id u k w) !! id = Some (mkTask u p).
Proof.
  unfold begin_attempt. destruct (wait now (rate_limiter (md w))) as [l' o].
  destruct o as [|d|e]; [destruct (filename_of u); [case_decide|]|..];
    try apply handle_task; cbn [tasks set_task]; rewrite lookup_insert_eq; eauto.
Qed.

(** A segment of an invocation leaves its URL as it is. *)
Lemma step_url w id now inp w' t :
  step w (id, now, inp) = Some w' -> tasks w !! id = Some t ->
  exists p, tasks w' !! id = Some (mkTask (url t) p).
Proof.
  unfold step. destruct (now <? clock w); [discriminate|].
  change (tasks (set_clock now w) !! id) with (tasks w !! id).
  intros Hstep Ht. rewrite Ht in Hstep.
  destruct inp; try discriminate; destruct (at_pc t); try discriminate;
    repeat match type of Hstep with
           | (if ?b then _ else _) = _ => destruct b; try discriminate
           end;
    injection Hstep as <-;
    first [apply begin_attempt_task | apply handle_task
          | cbn [tasks set_task]; rewrite lookup_insert_eq; eauto].
Qed.

Lemma hinv_begin_attempt now id u k f w :
  winv w -> filename_of u = Ok f ->
  is_Some (disk w !! f) -> attempts_of id w = 0%nat ->
  hinv id u f (begin_attempt now id u k w).
Proof.
  intros Hw Hf Hd Ha. unfold begin_attempt.
  pose proof (MediaFacts.wait_never_fails now (rate_limiter (md w))) as Hnf.
  destruct (wait now (rate_limiter (md w))) as [l' o]. cbn in Hnf.
  destruct o as [|d|e].
  - rewrite Hf. rewrite decide_True by exact Hd.
    split; [exact Hd|]. cbn [tasks set_task]. rewrite lookup_insert_eq.
    cbn [url at_pc]. intros _. split; [exact Ha|exact I].
  - split; [exact Hd|]. cbn [tasks set_task]. rewrite lookup_insert_eq.
    cbn [url at_pc]. intros _. split; [exact Ha|exact I].
  - exfalso. apply (Hnf e); [|reflexivity]. rewrite (winv_limit _ Hw). lia.
Qed.

Lemma hinv_download_audio now id u f w :
  winv w -> filename_of u = Ok f -> u <> [] ->
  is_Some (disk w !! f) -> attempts_of id w = 0%nat ->
  hinv id u f (download_audio now id u w).
Proof.
  intros Hw Hf Hnil Hd Ha. unfold download_audio.
  destruct u as [|c u]; [destruct (Hnil eq_refl)|].
  case_match.
  - split; [exact Hd|]. cbn [tasks set_task]. rewrite lookup_insert_eq.
    cbn [url at_pc]. intros _. split; [exact Ha|exact I].
  - destruct (0 <? semaphore (md w))%nat.
    + apply hinv_begin_attempt; [apply MediaFacts.winv_acquire, Hw|exact Hf|exact Hd|exact Ha].
    + split; [exact Hd|]. cbn [tasks set_task]. rewrite lookup_insert_eq.
      cbn [url at_pc]. intros _. split; [exact Ha|exact I].
Qed.

Lemma step_hinv id u f w ev w' :
  winv w -> filename_of u = Ok f -> u <> [] ->
  hinv id u f w -> step w ev = Some w' -> hinv id u f w'.
Proof.
  intros Hw0 Hf Hnil [Hd Hh] Hstep.
  split; [eapply step_disk_grows; eauto|].
  destruct ev as [[id' now] inp].
  destruct (decide (id' = id)) as [->|Hne].
  2:{ destruct (MediaFacts.step_same_for id w id' now inp w' Hne Hstep)
        as (Ht & Ha & _). rewrite Ht, Ha. exact Hh. }
  destruct (tasks w !! id) as [t|] eqn:Ht.
  - destruct (step_url _ _ _ _ _ _ Hstep Ht) as [p' Ht'].
    destruct (decide (url t = u)) as [Hu|Hu].
    2:{ rewrite Ht'. cbn [url]. intros Hx. destruct (Hu Hx). }
    destruct (Hh Hu) as [Ha Hpc]. clear Ht'.
    unfold step in Hstep. destruct (now <? clock w); [discriminate|].
    pose proof (MediaFacts.winv_set_clock now w Hw0) as Hw.
    change (tasks (set_clock now w) !! id) with (tasks w !! id) in Hstep.
    rewrite Ht in Hstep.
    destruct inp; try discriminate; destruct (at_pc t) eqn:Hat;
      try discriminate; try contradiction.
    + destruct (0 <? semaphore (md (set_clock now w)))%nat; [|discriminate].
      injection Hstep as <-. rewrite Hu.
      apply (hinv_begin_attempt now id u 0 f (acquire (set_clock now w)));
        [apply MediaFacts.winv_acquire, Hw|exact Hf|exact Hd|exact Ha].
    + destruct (wake <=? now); [|discriminate]. injection Hstep as <-.
      rewrite Hu. apply (hinv_begin_attempt now id u attempt f (set_clock now w));
        assumption.
  - unfold step in Hstep. destruct (now <? clock w); [discriminate|].
    pose proof (MediaFacts.winv_set_clock now w Hw0) as Hw.
    change (tasks (set_clock now w) !! id) with (tasks w !! id) in Hstep.
    rewrite Ht in Hstep. destruct inp; try discriminate.
    injection Hstep as <-.
    destruct (decide (u0 = u)) as [->|Hu].
    2:{ assert (Hurl : exists p, tasks (download_audio now id u0 (set_clock now w)) !! id
                                 = Some (mkTask u0 p)).
        { unfold download_audio. destruct u0 as [|c u0].
          - cbn [tasks set_task]. rewrite lookup_insert_eq. eauto.
          - case_match; [cbn [tasks set_task]; rewrite lookup_insert_eq; eauto|].
            destruct (0 <? semaphore (md (set_clock now w)))%nat;
              [apply begin_attempt_task|].
            cbn [tasks set_task]. rewrite lookup_insert_eq. eauto. }
        destruct Hurl as [p' ->]. cbn [url]. intros Hx. destruct (Hu Hx). }
    apply (hinv_download_audio now id u f (set_clock now w) Hw Hf Hnil Hd Hh).
Qed.

Lemma run_hinv id u f sched : forall w w',
  winv w -> filename_of u = Ok f -> u <> [] ->
  hinv id u f w -> run sched w = Some w' -> hinv id u f w'.
Proof.
  induction sched as [|ev sched IH]; cbn; intros w w' Hw Hf Hnil Hh.
  - intros [= <-]. exact Hh.
  - destruct (step w ev) as [w1|] eqn:Hstep; [|discriminate].
    apply IH; [eapply MediaFacts.step_winv; eauto|exact Hf|exact Hnil|].
    eapply step_hinv; eauto.
Qed.

(** The cache on disk: an invocation on a URL whose file is already in the
    cache directory when the run starts never calls [session.get], and when
    it ends it has returned the name of that file. *)
Theorem cached_file_not_fetched (n : nat) (files : gmap pystr (list N))
    (sched : list (nat * Z * input)) (w : world) (id : nat) (t : task)
    (f : pystr) :
  run sched (initial n files) = Some w ->
  is_Some (files !! f) ->
  tasks w !! id = Some t -> url t <> [] -> filename_of (url t) = Ok f ->
  attempts_of id w = 0%nat /\
  (finished (at_pc t) = true -> at_pc t = Returned (Some f)).
Proof.
  intros Hrun Hfile Ht Hu Hf.
  assert (Hinit : hinv id (url t) f (initial n files)).
  { split; [exact Hfile|]. cbn. rewrite lookup_empty. reflexivity. }
  pose proof (MediaFacts.run_winv sched _ _ (MediaFacts.initial_winv n files) Hrun)
    as Hw.
  destruct (run_hinv id (url t) f sched _ _ (MediaFacts.initial_winv n files)
              Hf Hu Hinit Hrun) as [_ Hh].
  rewrite Ht in Hh. destruct (Hh eq_refl) as [Ha Hpc].
  split; [exact Ha|]. intros Hfin.
  pose proof (winv_tasks _ Hw _ _ Ht) as Hok.
  destruct (at_pc t) as [| | | | |[f'|]|]; try discriminate Hfin;
    try contradiction.
  destruct Hok as [_ Hm]. destruct (winv_map _ Hw _ _ Hm) as [Hf' _].
  congruence.
Qed.

Lemma cached_file_not_fetched_witness :
  exists w,
    run [ (0%nat, 0, Invoke (lit "https://x/a.mp3")) ]
        (initial 10 {[ lit "29f8f1fcfd92f7eba6eb49c51b73b9b6.mp3" := [1%N] ]})
      = Some w /\
    tasks w !! 0%nat
      = Some (mkTask (lit "https://x/a.mp3")
                (Returned (Some (lit "29f8f1fcfd92f7eba6eb49c51b73b9b6.mp3")))) /\
    attempts_of 0 w = 0%nat.
Proof.
  pose (files := ({[ lit "29f8f1fcfd92f7eba6eb49c51b73b9b6.mp3" := [1%N] ]}
                  : gmap pystr (list N))).
  pose (sched := [ (0%nat, 0, Invoke (lit "https://x/a.mp3")) ]).
  pose (w := default (initial 10 files) (run sched (initial 10 files))).
  assert (E : run sched (initial 10 files) = Some w) by (vm_compute; reflexivity).
  assert (Ht : tasks w !! 0%nat
               = Some (mkTask (lit "https://x/a.mp3")
                   (Returned (Some (lit "29f8f1fcfd92f7eba6eb49c51b73b9b6.mp3")))))
    by (vm_compute; reflexivity).
  exists w. split; [exact E|]. split; [exact Ht|].
  apply (cached_file_not_fetched 10 files sched w 0%nat
           (mkTask (lit "https://x/a.mp3")
              (Returned (Some (lit "29f8f1fcfd92f7eba6eb49c51b73b9b6.mp3"))))
           (lit "29f8f1fcfd92f7eba6eb49c51b73b9b6.mp3") E).
  - vm_compute. eauto.
  - exact Ht.
  - discriminate.
  - vm_compute. reflexivity.
Defined.

(** *** Registered names *)

Lemma handle_map now id u k e w :
  url_to_filename (md (handle now id u k e w)) = url_to_filename (md w).
Proof.
  unfold handle.
  destruct (is_network_error e); [destruct (k =? 2)%nat|]; reflexivity.
Qed.

Lemma begin_attempt_map now id u k w u' f' :
  winv w -> url_to_filename (md w) !! u' = Some f' ->
  url_to_filename (md (begin_attempt now id u k w)) !! u' = Some f'.
Proof.
  intros Hw Hm. unfold begin_attempt.
  destruct (wait now (rate_limiter (md w))) as [l' o].
  destruct o as [|d|e]; [|exact Hm|rewrite handle_map; exact Hm].
  destruct (filename_of u) as [f|e] eqn:Hf; [|rewrite handle_map; exact Hm].
  case_decide; [|exact Hm].
  cbn. destruct (decide (u = u')) as [->|Hne].
  - rewrite lookup_insert_eq. destruct (winv_map _ Hw _ _ Hm) as [Hf' _].
    congruence.
  - rewrite lookup_insert_ne by exact Hne. exact Hm.
Qed.

Lemma step_map_stable w ev w' u f :
  winv w -> url_to_filename (md w) !! u = Some f -> step w ev = Some w' ->
  url_to_filename (md w') !! u = Some f.
Proof.
  intros Hw0 Hm. destruct ev as [[id now] inp]. unfold step.
  destruct (now <? clock w); [discriminate|].
  pose proof (MediaFacts.winv_set_clock now w Hw0) as Hw.
  destruct (tasks (set_clock now w) !! id) as [t|] eqn:Ht.
  - pose proof (winv_tasks _ Hw _ _ Ht) as Hpc.
    destruct inp; try discriminate; destruct (at_pc t) eqn:Hat; try discriminate;
      cbn in Hpc.
    + destruct (0 <? semaphore (md (set_clock now w)))%nat; [|discriminate].
      intros [= <-]. apply begin_attempt_map;
        [apply MediaFacts.winv_acquire, Hw|exact Hm].
    + destruct (wake <=? now); [|discriminate]. intros [= <-].
      apply begin_attempt_map; assumption.
    + destruct (wake <=? now); [|discriminate].
      destruct (S attempt <? 3)%nat; intros [= <-];
        [apply begin_attempt_map; assumption|exact Hm].
    + intros [= <-]. exact Hm.
    + intros [= <-]. rewrite handle_map. exact Hm.
    + intros [= <-]. cbn. destruct Hpc as [_ Hf].
      destruct (decide (url t = u)) as [Hu|Hne].
      * rewrite Hu, lookup_insert_eq. rewrite Hu in Hf.
        destruct (winv_map _ Hw0 _ _ Hm) as [Hf' _]. congruence.
      * rewrite lookup_insert_ne by exact Hne. exact Hm.
    + intros [= <-]. rewrite handle_map. exact Hm.
  - destruct inp; try discriminate. intros [= <-].
    unfold download_audio. destruct u0 as [|c u0]; [exact Hm|].
    case_match; [exact Hm|].
    destruct (0 <? semaphore (md (set_clock now w)))%nat; [|exact Hm].
    apply begin_attempt_map; [apply MediaFacts.winv_acquire, Hw|exact Hm].
Qed.

(** A name that [download_audio] has returned stays good for the rest of
    the run: the URL stays registered under that name, and the file stays in
    the cache directory. *)
Theorem returned_name_stays (n : nat) (files : gmap pystr (list N))
    (sched sched' : list (nat * Z * input)) (w w' : world) (id : nat)
    (t : task) (f : pystr) :
  run sched (initial n files) = Some w ->
  tasks w !! id = Some t -> at_pc t = Returned (Some f) ->
  run sched' w = Some w' ->
  url_to_filename (md w') !! url t = Some f /\ is_Some (disk w' !! f).
Proof.
  intros Hrun Ht Hpc Hrun'.
  pose proof (MediaFacts.run_winv sched _ _ (MediaFacts.initial_winv n files) Hrun)
    as Hw.
  pose proof (winv_tasks _ Hw _ _ Ht) as Hok. rewrite Hpc in Hok.
  destruct Hok as [_ Hm].
  assert (Hstable : forall sched' w w', winv w ->
            url_to_filename (md w) !! url t = Some f ->
            run sched' w = Some w' ->
            winv w' /\ url_to_filename (md w') !! url t = Some f).
  { clear. induction sched' as [|ev sched' IH]; cbn; intros w w' Hw Hm.
    - intros [= <-]. auto.
    - destruct (step w ev) as [w1|] eqn:Hstep; [|discriminate].
      apply IH; [eapply MediaFacts.step_winv; eauto|].
      eapply step_map_stable; eauto. }
  destruct (Hstable sched' w w' Hw Hm Hrun') as [Hw' Hm'].
  split; [exact Hm'|]. apply (winv_map _ Hw' _ _ Hm').
Qed.

Lemma returned_name_stays_witness :
  exists w w',
    run [ (0%nat, 0, Invoke (lit "https://x/a.mp3"));
          (0%nat, 40, FetchDone [1%N]); (0%nat, 41, SaveDone) ]
        (initial 10 ∅) = Some w /\
    run [ (1%nat, 50, Invoke (lit "https://x/b.mp3"));
          (1%nat, 60, FetchFail OSError) ] w = Some w' /\
    url_to_filename (md w') !! lit "https://x/a.mp3"
      = Some (lit "29f8f1fcfd92f7eba6eb49c51b73b9b6.mp3").
Proof.
  pose (sched := [ (0%nat, 0, Invoke (lit "https://x/a.mp3"));
                   (0%nat, 40, FetchDone [1%N]); (0%nat, 41, SaveDone) ]).
  pose (sched' := [ (1%nat, 50, Invoke (lit "https://x/b.mp3"));
                    (1%nat, 60, FetchFail OSError) ]).
  pose (w := default (initial 10 ∅) (run sched (initial 10 ∅))).
  pose (w' := default w (run sched' w)).
  assert (E : run sched (initial 10 ∅) = Some w) by (vm_compute; reflexivity).
  assert (E' : run sched' w = Some w') by (vm_compute; reflexivity).
  assert (Ht : tasks w !! 0%nat
               = Some (mkTask (lit "https://x/a.mp3")
                   (Returned (Some (lit "29f8f1fcfd92f7eba6eb49c51b73b9b6.mp3")))))
    by (vm_compute; reflexivity).
  exists w, w'. split; [exact E|]. split; [exact E'|].
  apply (returned_name_stays 10 ∅ sched sched' w w' 0%nat
           (mkTask (lit "https://x/a.mp3")
              (Returned (Some (lit "29f8f1fcfd92f7eba6eb49c51b73b9b6.mp3"))))
           (lit "29f8f1fcfd92f7eba6eb49c51b73b9b6.mp3") E Ht eq_refl E').
Defined.

End MediaMore.

(** ** scrape/oald.py : more on the cache *)

Module OaldCacheMore.
Import Json Soup Oald Samples OaldShape.

(** *** A cache file that cannot be used *)

Lemma cache_write_requests w self w' :
  _cache_processed_data w self = Ok w' ->
  requests w' = requests w /\ home w' = home w.
Proof.
  unfold _cache_processed_data.
  destruct (_get_cache_path w self) as [path|e]; cbn [bind]; [|discriminate].
  destruct (mkdir_raises (io w)); [intros [= <-]; auto|].
  destruct (open_raises (io w)); [intros [= <-]; auto|].
  destruct (Hash.encode (dumps (entries self))); [|intros [= <-]; auto].
  destruct (write_raises (io w)) as [[k e]|]; intros [= <-]; auto.
Qed.

(** The cache write on two worlds that differ only in the old content of
    the cache file. *)
Lemma cache_write_over w self path w1 w0 :
  _get_cache_path w self = Ok path ->
  _cache_processed_data w self = Ok w1 ->
  _cache_processed_data (set_fs (delete path (fs w)) w) self = Ok w0 ->
  (forall p, p <> path -> fs w1 !! p = fs w0 !! p) /\
  (mkdir_raises (io w) = None -> open_raises (io w) = None -> fs w1 = fs w0).
Proof.
  intros Hp. unfold _cache_processed_data.
  assert (Hp0 : _get_cache_path (set_fs (delete path (fs w)) w) self = Ok path)
    by exact Hp.
  rewrite Hp, Hp0. cbn [bind io set_fs fs].
  destruct (mkdir_raises (io w)).
  { intros [= <-] [= <-]. cbn. split; [|discriminate].
    intros p Hne. rewrite lookup_delete_ne by congruence. reflexivity. }
  destruct (open_raises (io w)).
  { intros [= <-] [= <-]. cbn. split; [|discriminate].
    intros p Hne. rewrite lookup_delete_ne by congruence. reflexivity. }
  assert (Hopen : <[path := []]> (delete path (fs w)) = <[path := []]> (fs w)).
  { apply insert_delete_eq. }
  rewrite Hopen.
  destruct (Hash.encode (dumps (entries self)));
    [destruct (write_raises (io w)) as [[k e]|]|];
    intros [= <-] [= <-]; cbn; auto.
Qed.

(** A cache file that is there but cannot be read, or does not hold JSON,
    counts as no cache file: [initialize] fetches the word as it does when
    the file is absent, with the same requests, entries and outcome, and
    leaves every other file alone; when the fetch succeeds and the cache
    file can be opened for writing, the files are afterwards what they
    would be had the unusable file not been there. *)
Theorem unusable_cache_refetched (w : world) (self : Word)
    (path content : pystr) (w1 w0 : world) (self1 self0 : Word)
    (r1 r0 : result unit) :
  _get_cache_path w self = Ok path ->
  fs w !! path = Some content ->
  is_Some (read_raises (io w)) \/ (exists e, loads content = Raise e) ->
  initialize w self = (w1, self1, r1) ->
  initialize (set_fs (delete path (fs w)) w) self = (w0, self0, r0) ->
  self1 = self0 /\ r1 = r0 /\ requests w1 = requests w0 /\
  (forall p, p <> path -> fs w1 !! p = fs w0 !! p) /\
  (r1 = Ok tt -> mkdir_raises (io w) = None -> open_raises (io w) = None ->
   fs w1 = fs w0).
Proof.
  intros Hp Hfile Hbad.
  set (w' := set_fs (delete path (fs w)) w).
  assert (Hp' : _get_cache_path w' self = Ok path) by exact Hp.
  assert (Hmiss : _try_load_cached_data w self = Ok (self, false)).
  { unfold _try_load_cached_data. rewrite Hp. cbn [bind]. rewrite Hfile.
    destruct Hbad as [[e He]|[e He]].
    - rewrite He. reflexivity.
    - destruct (read_raises (io w)); [reflexivity|]. rewrite He. reflexivity. }
  assert (Hmiss' : _try_load_cached_data w' self = Ok (self, false)).
  { unfold _try_load_cached_data. rewrite Hp'. cbn [bind].
    unfold w'. cbn [fs set_fs]. rewrite lookup_delete_eq. reflexivity. }
  destruct (fetch_word (net w) self) as [[log self'] r] eqn:Hf.
  pose proof (OaldFacts.initialize_miss w self path log self' r Hp Hmiss Hf) as H1.
  pose proof (OaldFacts.initialize_miss w' self path log self' r Hp' Hmiss' Hf)
    as H0.
  destruct r as [[]|e].
  - destruct H1 as (v1 & Hw1 & ->). destruct H0 as (v0 & Hw0 & ->).
    intros [= <- <- <-] [= <- <- <-].
    destruct (cache_write_requests _ _ _ Hw1) as [Hr1 _].
    destruct (cache_write_requests _ _ _ Hw0) as [Hr0 _].
    assert (Hpl : _get_cache_path (add_requests log w) self' = Ok path).
    { rewrite <- Hp. apply OaldFacts.cache_path_same; [reflexivity|].
      eapply OaldFacts.fetch_word_word; eauto. }
    destruct (cache_write_over (add_requests log w) self' path v1 v0
                Hpl Hw1 Hw0) as (Hother & Hsame).
    split; [reflexivity|]. split; [reflexivity|].
    split; [rewrite Hr1, Hr0; reflexivity|]. split; [exact Hother|].
    intros _ Hmk Hop. exact (Hsame Hmk Hop).
  - rewrite H1, H0. intros [= <- <- <-] [= <- <- <-].
    split; [reflexivity|]. split; [reflexivity|]. split; [reflexivity|].
    split; [|discriminate].
    intros p Hne. cbn. rewrite lookup_delete_ne by congruence. reflexivity.
Qed.

Lemma unusable_cache_refetched_witness :
  exists w1 w0 self1 self0,
    initialize stale (__init__ (lit "run")) = (w1, self1, Ok tt) /\
    initialize (set_fs (delete run_cache_path (fs stale)) stale)
      (__init__ (lit "run")) = (w0, self0, Ok tt) /\
    self1 = self0 /\ fs w1 = fs w0.
Proof.
  pose (res1 := initialize stale (__init__ (lit "run"))).
  pose (res0 := initialize (set_fs (delete run_cache_path (fs stale)) stale)
                  (__init__ (lit "run"))).
  assert (E1 : initialize stale (__init__ (lit "run"))
               = (fst (fst res1), snd (fst res1), Ok tt)).
  { transitivity (fst (fst res1), snd (fst res1), snd res1).
    - unfold res1. destruct (initialize _ _) as [[? ?] ?]. reflexivity.
    - apply (f_equal (pair _)). vm_compute. reflexivity. }
  assert (E0 : initialize (set_fs (delete run_cache_path (fs stale)) stale)
                 (__init__ (lit "run"))
               = (fst (fst res0), snd (fst res0), Ok tt)).
  { transitivity (fst (fst res0), snd (fst res0), snd res0).
    - unfold res0. destruct (initialize _ _) as [[? ?] ?]. reflexivity.
    - apply (f_equal (pair _)). vm_compute. reflexivity. }
  assert (Hp : _get_cache_path stale (__init__ (lit "run")) = Ok run_cache_path)
    by (vm_compute; reflexivity).
  assert (Hfile : fs stale !! run_cache_path = Some (lit "[{"))
    by (vm_compute; reflexivity).
  assert (Hbad : is_Some (read_raises (io stale))
                 \/ (exists e, loads (lit "[{") = Raise e))
    by (right; exists JSONDecodeError; vm_compute; reflexivity).
  pose proof (unusable_cache_refetched stale (__init__ (lit "run"))
                run_cache_path (lit "[{") (fst (fst res1)) (fst (fst res0))
                (snd (fst res1)) (snd (fst res0)) (Ok tt) (Ok tt)
                Hp Hfile Hbad E1 E0) as (Hself & _ & _ & _ & Hfs).
  exists (fst (fst res1)), (fst (fst res0)), (snd (fst res1)), (snd (fst res0)).
  split; [exact E1|]. split; [exact E0|]. split; [exact Hself|].
  exact (Hfs eq_refl eq_refl eq_refl).
Defined.

(** *** Failures of the cache write *)

(** Whether and how the cache write fails makes no difference to what
    [initialize] hands back: two worlds that agree on everything but the
    failures of mkdir, open and write give the same entries, the same
    outcome and the same requests. *)
Theorem cache_write_faults_silent (w w' : world) (self : Word)
    (w1 w1' : world) (self1 self1' : Word) (r1 r1' : result unit) :
  home w' = home w -> net w' = net w -> fs w' = fs w ->
  requests w' = requests w ->
  read_raises (io w') = read_raises (io w) ->
  initialize w self = (w1, self1, r1) ->
  initialize w' self = (w1', self1', r1') ->
  self1' = self1 /\ r1' = r1 /\ requests w1' = requests w1.
Proof.
  intros Hhome Hnet Hfs Hreq Hread.
  assert (Hpath : _get_cache_path w' self = _get_cache_path w self)
    by (apply OaldFacts.cache_path_same; [exact Hhome|reflexivity]).
  assert (Hload : _try_load_cached_data w' self = _try_load_cached_data w self).
  { unfold _try_load_cached_data. rewrite Hpath, Hfs, Hread. reflexivity. }
  unfold initialize. rewrite Hpath, Hload, Hnet.
  destruct (_get_cache_path w self) as [path|e] eqn:Hp.
  2:{ intros [= <- <- <-] [= <- <- <-]. auto. }
  destruct (_try_load_cached_data w self) as [[s [|]]|e] eqn:Hl.
  { intros [= <- <- <-] [= <- <- <-]. auto. }
  2:{ intros [= <- <- <-] [= <- <- <-]. auto. }
  destruct (fetch_word (net w) s) as [[log self2] r] eqn:Hf.
  destruct r as [[]|e].
  2:{ intros [= <- <- <-] [= <- <- <-]. cbn. rewrite Hreq. auto. }
  assert (Hs : word self2 = word self).
  { pose proof (OaldFacts.fetch_word_word _ _ _ _ _ Hf) as Hw2.
    rewrite Hw2. clear - Hl. unfold _try_load_cached_data in Hl.
    destruct (_get_cache_path w self); cbn [bind] in Hl; [|discriminate].
    destruct (fs w !! a); [|congruence].
    destruct (read_raises (io w)); [congruence|].
    destruct (loads p); congruence. }
  assert (Hpl : _get_cache_path (add_requests log w) self2 = Ok path).
  { rewrite <- Hp. apply OaldFacts.cache_path_same; [reflexivity|exact Hs]. }
  assert (Hpl' : _get_cache_path (add_requests log w') self2 = Ok path).
  { rewrite <- Hp. apply OaldFacts.cache_path_same; [exact Hhome|exact Hs]. }
  destruct (OaldFacts.cache_write_cases _ _ _ Hpl) as (v & -> & _ & Hrv & _).
  destruct (OaldFacts.cache_write_cases _ _ _ Hpl') as (v' & -> & _ & Hrv' & _).
  intros [= <- <- <-] [= <- <- <-]. split; [reflexivity|].
  split; [reflexivity|]. rewrite Hrv, Hrv'. cbn. rewrite Hreq. reflexivity.
Qed.

Lemma cache_write_faults_silent_witness :
  exists w1 w1' self1 self1',
    initialize (cold (serve (Reply 200 (Ok good_page)) not_found) no_faults)
      (__init__ (lit "run")) = (w1, self1, Ok tt) /\
    initialize (cold (serve (Reply 200 (Ok good_page)) not_found) short_write)
      (__init__ (lit "run")) = (w1', self1', Ok tt) /\
    self1' = self1 /\ requests w1' = requests w1.
Proof.
  pose (res := initialize
                 (cold (serve (Reply 200 (Ok good_page)) not_found) no_faults)
                 (__init__ (lit "run"))).
  pose (res' := initialize
                  (cold (serve (Reply 200 (Ok good_page)) not_found) short_write)
                  (__init__ (lit "run"))).
  assert (E : initialize
                (cold (serve (Reply 200 (Ok good_page)) not_found) no_faults)
                (__init__ (lit "run"))
              = (fst (fst res), snd (fst res), Ok tt)).
  { transitivity (fst (fst res), snd (fst res), snd res).
    - unfold res. destruct (initialize _ _) as [[? ?] ?]. reflexivity.
    - apply (f_equal (pair _)). vm_compute. reflexivity. }
  assert (E' : initialize
                 (cold (serve (Reply 200 (Ok good_page)) not_found) short_write)
                 (__init__ (lit "run"))
               = (fst (fst res'), snd (fst res'), Ok tt)).
  { transitivity (fst (fst res'), snd (fst res'), snd res').
    - unfold res'. destruct (initialize _ _) as [[? ?] ?]. reflexivity.
    - apply (f_equal (pair _)). vm_compute. reflexivity. }
  pose proof (cache_write_faults_silent
                (cold (serve (Reply 200 (Ok good_page)) not_found) no_faults)
                (cold (serve (Reply 200 (Ok good_page)) not_found) short_write)
                (__init__ (lit "run"))
                (fst (fst res)) (fst (fst res')) (snd (fst res))
                (snd (fst res')) (Ok tt) (Ok tt)
                eq_refl eq_refl eq_refl eq_refl eq_refl E E')
    as (Hself & _ & Hreq).
  exists (fst (fst res)), (fst (fst res')), (snd (fst res)), (snd (fst res')).
  split; [exact E|]. split; [exact E'|]. split; [exact Hself|exact Hreq].
Defined.

End OaldCacheMore.

(** ** scrape/oald.py : the shape of the entries *)

Module OaldShapeFacts.
Import Json Soup Oald Samples OaldShape.

Lemma strs_ok {A} (f : A -> pystr) l :
  forallb is_str (List.map (fun x => PStr (f x)) l) = true.
Proof. induction l; cbn; auto. Qed.

Lemma sense_dict_shape h : is_sense (sense_dict h) = true.
Proof. unfold sense_dict, is_sense. cbn. rewrite strs_ok. reflexivity. Qed.

Lemma senses_shape l : forallb is_sense (List.map sense_dict l) = true.
Proof.
  induction l; cbn [List.map forallb]; [reflexivity|].
  rewrite sense_dict_shape. exact IHl.
Qed.

Lemma get_pronunciation_shape soup region :
  is_pronunciation (get_pronunciation soup region) = true.
Proof.
  unfold get_pronunciation.
  destruct (find (root soup) (lit "div") (HasClass region)); reflexivity.
Qed.

Lemma parse_idiom_shape soup h v :
  _parse_idiom soup h = Ok v -> is_idiom v = true.
Proof.
  unfold _parse_idiom.
  destruct (find_next soup h (lit "ol") (HasClass (lit "sense_single")))
    as [section|]; [|discriminate].
  destruct (find section (lit "span") (HasClass DEF_CLASS)); [|discriminate].
  intros [= <-]. unfold is_idiom. cbn. rewrite strs_ok. reflexivity.
Qed.

Lemma map_result_forallb {A B} (f : A -> result B) (p : B -> bool) l ys :
  (forall x y, f x = Ok y -> p y = true) ->
  map_result f l = Ok ys -> forallb p ys = true.
Proof.
  intros Hf. revert ys. induction l as [|x l IH]; cbn; intros ys.
  - intros [= <-]. reflexivity.
  - destruct (f x) as [y|] eqn:Hx; cbn; [|discriminate].
    destruct (map_result f l) as [ys'|]; cbn; [|discriminate].
    intros [= <-]. cbn. rewrite (Hf _ _ Hx). apply IH. reflexivity.
Qed.

Lemma get_idioms_shape soup idioms :
  get_idioms soup = Ok idioms -> forallb is_idiom idioms = true.
Proof.
  unfold get_idioms.
  destruct (find (root soup) (lit "div") (HasClass IDIOMS_CLASS)).
  - apply map_result_forallb. apply parse_idiom_shape.
  - intros [= <-]. reflexivity.
Qed.

Lemma pv_entry_shape verb senses :
  (forall l, senses = Some l -> forallb is_sense l = true) ->
  forallb is_phrasal_verb (pv_entry (verb, senses)) = true.
Proof.
  intros H. unfold pv_entry. cbn [fst snd].
  destruct senses as [[|d ds]|]; try reflexivity.
  specialize (H _ eq_refl). apply forallb_forall. intros x [<-|[]].
  unfold is_phrasal_verb, has_key. cbn [fst snd is_str].
  rewrite !bool_decide_eq_true_2 by reflexivity. cbn [andb]. exact H.
Qed.

Lemma forallb_flat_map {A B} (p : B -> bool) (f : A -> list B) l :
  (forall x, In x l -> forallb p (f x) = true) ->
  forallb p (List.flat_map f l) = true.
Proof.
  induction l as [|x l IH]; cbn; intros H; [reflexivity|].
  rewrite forallb_app, (H x (or_introl eq_refl)). cbn.
  apply IH. intros y Hy. apply H. right. exact Hy.
Qed.

Lemma get_phrasal_verbs_shape net soup :
  forallb is_phrasal_verb (snd (get_phrasal_verbs net soup)) = true.
Proof.
  unfold get_phrasal_verbs.
  destruct (find (root soup) (lit "aside") (HasClass PHRASAL_VERBS_CLASS));
    [|reflexivity].
  cbn [snd]. rewrite OaldFacts.flat_map_map. apply forallb_flat_map.
  intros [verb url] _. unfold _fetch_pv_data. cbn [fst snd].
  apply pv_entry_shape. intros l.
  destruct (net url) as [e|status body]; [discriminate|].
  destruct (400 <=? status); [discriminate|].
  destruct body as [page|e]; [|discriminate].
  intros [= <-]. apply senses_shape.
Qed.

Lemma valid_page_strings soup :
  _is_valid_entry (Some soup) = true ->
  is_str (get_headword soup) = true /\ is_str (get_part_of_speech soup) = true.
Proof.
  unfold _is_valid_entry, get_headword, get_part_of_speech.
  destruct (find (root soup) (lit "h1") (HasClass HEADWORD_CLASS));
    [|discriminate].
  destruct (find (root soup) (lit "span") (HasClass POS_CLASS));
    [|discriminate].
  auto.
Qed.

Lemma process_entry_shape net soup :
  _is_valid_entry (Some soup) = true ->
  is_entry_or_empty (snd (_process_entry net soup)) = true.
Proof.
  intros Hv. destruct (valid_page_strings soup Hv) as [Hh Hp].
  unfold _process_entry.
  destruct (get_idioms soup) as [idioms|e] eqn:Hi; [|reflexivity].
  pose proof (get_phrasal_verbs_shape net soup) as Hpv.
  destruct (get_phrasal_verbs net soup) as [log pvs]. cbn [snd] in *.
  unfold is_entry_or_empty, is_entry, has_key. cbn [fst snd].
  rewrite !bool_decide_eq_true_2 by reflexivity.
  rewrite Hh, Hp, Hpv, (get_idioms_shape _ _ Hi).
  unfold get_pronunciations. unfold has_key. cbn [fst snd].
  rewrite !bool_decide_eq_true_2 by reflexivity.
  rewrite !get_pronunciation_shape.
  unfold get_meanings.
  destruct (find (root soup) (lit "ol") AnyClass);
    [rewrite senses_shape|]; reflexivity.
Qed.

Lemma valid_pages_valid results soup :
  In soup (valid_pages results) -> _is_valid_entry (Some soup) = true.
Proof.
  unfold valid_pages. rewrite in_flat_map. intros (r & _ & Hin).
  destruct (_is_valid_entry r) eqn:Hv; [|destruct Hin].
  destruct r as [doc|]; [|destruct Hin].
  destruct Hin as [<-|[]]. exact Hv.
Qed.

Lemma valid_pages_length results :
  (length (valid_pages results) <= length results)%nat.
Proof.
  unfold valid_pages. induction results as [|r results IH]; cbn; [lia|].
  rewrite length_app.
  destruct (_is_valid_entry r); [destruct r|]; cbn; lia.
Qed.

Lemma full_entry v :
  is_entry_or_empty v = true -> v <> PDict [] -> is_entry v = true.
Proof.
  destruct v as [| | | | |[|p l]]; try (intros H _; exact H).
  intros _ H. destruct (H eq_refl).
Qed.

(** The entries of a successful [fetch_word] are those of its valid pages,
    of which there is at least one among the five results. *)
Lemma fetch_word_pages (net : pystr -> reply) (self self' : Word)
    (log : list pystr) :
  fetch_word net self = (log, self', Ok tt) ->
  exists results,
    length results = MAX_ENTRIES /\ valid_pages results <> [] /\
    entries self'
    = PList (List.map (fun soup => snd (_process_entry net soup))
               (valid_pages results)).
Proof.
  intros Hf.
  destruct (snd (gather (List.map (_fetch_variation net)
                           (variation_urls (word self))))) as [results|e] eqn:Hg.
  2:{ rewrite (OaldFacts.fetch_word_raised net self e Hg) in Hf.
      discriminate Hf. }
  rewrite (OaldFacts.fetch_word_gathered net self results Hg) in Hf.
  apply pair_equal_spec in Hf as [Hf Hr].
  apply pair_equal_spec in Hf as [_ <-]. cbn [entries].
  exists results. rewrite OaldFacts.gather_result in Hg.
  apply OaldFacts.map_result_length in Hg. split; [|split].
  - rewrite Hg. unfold variation_urls. rewrite length_map, length_seq.
    reflexivity.
  - intros Hnil. rewrite Hnil in Hr. discriminate Hr.
  - rewrite List.map_map. reflexivity.
Qed.

(** What a successful [fetch_word] leaves in [entries]: between one and
    five elements, one per valid page; each is a full entry (headword and
    part of speech are strings, the two pronunciations have a string [ipa]
    and [audio], meanings and idioms have their three keys, every phrasal
    verb has a name and at least one sense) or the empty dict. *)
Theorem fetched_entries_shape (net : pystr -> reply) (self self' : Word)
    (log : list pystr) :
  fetch_word net self = (log, self', Ok tt) ->
  exists es,
    entries self' = PList es /\
    (1 <= length es <= MAX_ENTRIES)%nat /\
    forallb is_entry_or_empty es = true.
Proof.
  intros Hf.
  destruct (fetch_word_pages net self self' log Hf)
    as (results & Hlen & Hne & Hes).
  eexists. split; [exact Hes|].
  pose proof (valid_pages_length results) as Hle.
  rewrite length_map. split; [split|].
  - destruct (valid_pages results); [contradiction|cbn; lia].
  - lia.
  - apply forallb_forall. intros e He.
    apply in_map_iff in He as (soup & <- & Hin).
    apply process_entry_shape. exact (valid_pages_valid results soup Hin).
Qed.

Lemma fetched_entries_shape_witness :
  exists log self',
    fetch_word (serve (Reply 200 (Ok good_page)) (Reply 200 (Ok bad_page)))
      (__init__ (lit "run")) = (log, self', Ok tt) /\
    exists e, entries self' = PList [e; PDict []] /\ is_entry e = true.
Proof.
  pose (n := serve (Reply 200 (Ok good_page)) (Reply 200 (Ok bad_page))).
  pose (res := fetch_word n (__init__ (lit "run"))).
  assert (E : fetch_word n (__init__ (lit "run"))
              = (fst (fst res), snd (fst res), Ok tt))
    by (vm_compute; reflexivity).
  assert (Hes : entries (snd (fst res))
                = PList [snd (_process_entry n good_page); PDict []])
    by (vm_compute; reflexivity).
  assert (Hfull : snd (_process_entry n good_page) <> PDict [])
    by (vm_compute; discriminate).
  exists (fst (fst res)), (snd (fst res)). split; [exact E|].
  exists (snd (_process_entry n good_page)). split; [exact Hes|].
  destruct (fetched_entries_shape n (__init__ (lit "run")) (snd (fst res))
              (fst (fst res)) E) as (es & Hes' & _ & Hall).
  rewrite Hes in Hes'. injection Hes' as <-.
  cbn [forallb] in Hall. apply andb_true_iff in Hall as [Hall _].
  exact (full_entry _ Hall Hfull).
Defined.

End OaldShapeFacts.

(** ** scrape/oald.py : the phrasal verbs of a page *)

Module OaldPhrasalFacts.
Import Json Soup Oald Samples OaldShape.

Lemma dict_set_keys {V} (k : pystr) (v : V) d k' :
  In k' (List.map fst (dict_set k v d)) <-> k' = k \/ In k' (List.map fst d).
Proof.
  induction d as [|[k0 v0] d IH]; cbn.
  - split; [intros [H|[]]; auto|intros [H|[]]; auto].
  - case_bool_decide as Hk; cbn.
    + subst k0. intuition congruence.
    + rewrite IH. intuition congruence.
Qed.

Lemma dict_set_NoDup {V} (k : pystr) (v : V) d :
  List.NoDup (List.map fst d) -> List.NoDup (List.map fst (dict_set k v d)).
Proof.
  induction d as [|[k0 v0] d IH]; cbn; intros Hd.
  - constructor; [intros []|constructor].
  - apply NoDup_cons_iff in Hd as [Hin Hd]. case_bool_decide as Hk; cbn.
    + subst k0. apply NoDup_cons_iff. auto.
    + apply NoDup_cons_iff. split; [|auto].
      rewrite dict_set_keys. intros [->|H]; auto.
Qed.

Lemma pv_links_NoDup section : List.NoDup (List.map fst (pv_links section)).
Proof.
  unfold pv_links.
  assert (H : forall lis acc, List.NoDup (List.map fst acc) ->
    List.NoDup (List.map fst
      (List.fold_left
         (fun links li =>
            match find li (lit "a") (HasClass (lit "Ref")) with
            | Some a_tag =>
                match find a_tag (lit "span") (HasClass (lit "xh")),
                      attr a_tag (lit "href") with
                | Some verb, Some (c :: href) =>
                    dict_set (stripped verb) (c :: href) links
                | _, _ => links
                end
            | None => links
            end) lis acc))).
  { induction lis as [|li lis IH]; cbn [List.fold_left]; intros acc Hacc;
      [exact Hacc|].
    apply IH.
    destruct (find li (lit "a") (HasClass (lit "Ref"))) as [a_tag|];
      [|exact Hacc].
    destruct (find a_tag (lit "span") (HasClass (lit "xh"))); [|exact Hacc].
    destruct (attr a_tag (lit "href")) as [[|c href]|]; try exact Hacc.
    apply dict_set_NoDup, Hacc. }
  apply H. constructor.
Qed.

Lemma pv_entry_name verb senses x :
  In x (List.map pv_name (pv_entry (verb, senses))) -> x = verb.
Proof.
  unfold pv_entry. cbn [fst snd].
  destruct senses as [[|d ds]|]; cbn; intuition.
Qed.

Lemma pv_names_NoDup (senses : pystr -> pystr -> option (list pyval)) links :
  List.NoDup (List.map fst links) ->
  List.NoDup (List.map pv_name
           (List.flat_map (fun l => pv_entry (fst l, senses (fst l) (snd l)))
              links)) /\
  forall x,
    In x (List.map pv_name
            (List.flat_map (fun l => pv_entry (fst l, senses (fst l) (snd l)))
               links)) ->
    In x (List.map fst links).
Proof.
  induction links as [|[verb url] links IH]; cbn [List.map List.flat_map fst snd].
  - intros _. split; [constructor|auto].
  - intros Hd. apply NoDup_cons_iff in Hd as [Hin Hd].
    destruct (IH Hd) as [IHd IHin]. rewrite List.map_app. split.
    + unfold pv_entry at 1. cbn [fst snd].
      destruct (senses verb url) as [[|d ds]|]; try exact IHd.
      cbn. apply NoDup_cons_iff. split; [|exact IHd].
      intros Hx. apply Hin, IHin, Hx.
    + intros x Hx. apply in_app_or in Hx as [Hx|Hx].
      * left. symmetry. eapply pv_entry_name, Hx.
      * right. apply IHin, Hx.
Qed.

Lemma pv_entry_length r : (length (pv_entry r) <= 1)%nat.
Proof. unfold pv_entry. destruct (snd r) as [[|d ds]|]; cbn; lia. Qed.

Lemma flat_map_short {A B} (f : A -> list B) l :
  (forall x, (length (f x) <= 1)%nat) ->
  (length (List.flat_map f l) <= length l)%nat.
Proof.
  intros Hf. induction l as [|x l IH]; cbn [List.flat_map length]; [lia|].
  rewrite length_app. specialize (Hf x). lia.
Qed.

(** The phrasal verbs of an entry have pairwise distinct names, however
    often a name occurs among the links of the page: [pv_links] is a dict
    keyed by the name. Every record costs one request, and no link is
    requested that is not in that dict. *)
Theorem phrasal_verbs_distinct (net : pystr -> reply) (soup : node) :
  List.NoDup (List.map pv_name (snd (get_phrasal_verbs net soup))) /\
  (length (snd (get_phrasal_verbs net soup))
   <= length (fst (get_phrasal_verbs net soup)))%nat /\
  forall section,
    find (root soup) (lit "aside") (HasClass PHRASAL_VERBS_CLASS) = Some section ->
    fst (get_phrasal_verbs net soup) = List.map snd (pv_links section) /\
    List.NoDup (List.map fst (pv_links section)).
Proof.
  unfold get_phrasal_verbs.
  destruct (find (root soup) (lit "aside") (HasClass PHRASAL_VERBS_CLASS))
    as [section|].
  2:{ cbn. split; [constructor|]. split; [lia|discriminate]. }
  cbn [fst snd]. rewrite !OaldFacts.flat_map_map.
  assert (Hlog : List.flat_map
                   (fun x => fst (_fetch_pv_data net (fst x) (snd x)))
                   (pv_links section)
                 = List.map snd (pv_links section)).
  { induction (pv_links section) as [|l ls IH]; cbn; [reflexivity|].
    f_equal; exact IH. }
  pose proof (pv_links_NoDup section) as Hd.
  split; [|split].
  - exact (proj1 (pv_names_NoDup
                    (fun verb url => snd (snd (_fetch_pv_data net verb url)))
                    (pv_links section) Hd)).
  - rewrite Hlog, length_map. apply flat_map_short.
    intros l. apply pv_entry_length.
  - intros s [= <-]. split; [exact Hlog|exact Hd].
Qed.

Lemma phrasal_verbs_distinct_witness :
  exists section,
    find (root twice_page) (lit "aside") (HasClass PHRASAL_VERBS_CLASS)
      = Some section /\
    pv_links section = [ (lit "run up", lit "https://x/run-up-2");
                         (lit "run in", lit "https://x/run-in") ] /\
    fst (get_phrasal_verbs (serve not_found not_found) twice_page)
      = List.map snd (pv_links section).
Proof.
  pose (section := default (root twice_page)
                     (find (root twice_page) (lit "aside")
                        (HasClass PHRASAL_VERBS_CLASS))).
  assert (Hfind : find (root twice_page) (lit "aside")
                    (HasClass PHRASAL_VERBS_CLASS) = Some section)
    by (vm_compute; reflexivity).
  exists section. split; [exact Hfind|]. split; [vm_compute; reflexivity|].
  exact (proj1 (proj2 (proj2 (phrasal_verbs_distinct
                                (serve not_found not_found) twice_page))
                  section Hfind)).
Defined.

End OaldPhrasalFacts.

(** ** scrape/oald.py : the word of a [Word] *)

Module OaldWordFacts.
Import Json Soup Oald Samples.

Lemma lstrip_spaces ws s :
  forallb isspace ws = true -> lstrip (ws ++ s) = lstrip s.
Proof.
  induction ws as [|c ws IH]; cbn; [reflexivity|].
  intros H. apply andb_true_iff in H as [Hc Hws]. rewrite Hc. exact (IH Hws).
Qed.

Lemma lstrip_all_spaces s : forallb isspace s = true -> lstrip s = [].
Proof.
  intros H. rewrite <- (app_nil_r s). rewrite lstrip_spaces by exact H.
  reflexivity.
Qed.

Lemma lstrip_app s ws :
  forallb isspace s = false -> lstrip (s ++ ws) = lstrip s ++ ws.
Proof.
  induction s as [|c s IH]; cbn; [discriminate|].
  destruct (isspace c); cbn; [exact IH|reflexivity].
Qed.

Lemma forallb_rev {A} (p : A -> bool) l : forallb p (List.rev l) = forallb p l.
Proof.
  induction l as [|x l IH]; cbn; [reflexivity|].
  rewrite forallb_app, IH. cbn. rewrite andb_true_r. apply andb_comm.
Qed.

Lemma strip_spaces ws1 ws2 s :
  forallb isspace ws1 = true -> forallb isspace ws2 = true ->
  strip (ws1 ++ s ++ ws2) = strip s.
Proof.
  intros H1 H2. unfold strip. rewrite lstrip_spaces by exact H1.
  destruct (forallb isspace s) eqn:Hs.
  - rewrite (lstrip_all_spaces s Hs).
    rewrite (lstrip_all_spaces (s ++ ws2)); [reflexivity|].
    rewrite forallb_app, Hs, H2. reflexivity.
  - rewrite lstrip_app by exact Hs. rewrite List.rev_app_distr.
    rewrite lstrip_spaces; [reflexivity|]. rewrite forallb_rev. exact H2.
Qed.

(** White space around the word given to [Word] does not count: the
    object, and with it the cache file and the five URLs, is that of the
    word without it. *)
Theorem surrounding_space_ignored (ws1 ws2 s : pystr) (w : world) :
  forallb isspace ws1 = true -> forallb isspace ws2 = true ->
  __init__ (ws1 ++ s ++ ws2) = __init__ s /\
  _get_cache_path w (__init__ (ws1 ++ s ++ ws2)) = _get_cache_path w (__init__ s) /\
  variation_urls (word (__init__ (ws1 ++ s ++ ws2)))
  = variation_urls (word (__init__ s)).
Proof.
  intros H1 H2.
  assert (E : __init__ (ws1 ++ s ++ ws2) = __init__ s).
  { unfold __init__. rewrite strip_spaces by assumption. reflexivity. }
  rewrite E. auto.
Qed.

Lemma surrounding_space_ignored_witness :
  __init__ (lit " " ++ lit "Run" ++ [10%N]) = __init__ (lit "Run") /\
  word (__init__ (lit "Run")) = lit "run".
Proof.
  split; [|vm_compute; reflexivity].
  apply (surrounding_space_ignored (lit " ") [10%N] (lit "Run")
           (cold (serve not_found not_found) no_faults));
    vm_compute; reflexivity.
Defined.

End OaldWordFacts.

(** ** process/book.py : BookProcessor.extract_words *)

Module BookFacts.
Import Soup Book.

Section Processor.

Variable lower upper : pystr -> pystr.
Variable isalpha : pystr -> bool.
Variable lemmatize : pystr -> pos -> pystr.

#[local] Abbreviation lemma_of := (lemma_of lower lemmatize).
#[local] Abbreviation kept := (kept isalpha).
#[local] Abbreviation visit := (visit lower isalpha lemmatize).
#[local] Abbreviation excluded_words := (excluded_words lower upper).
#[local] Abbreviation extract_words := (extract_words lower upper isalpha lemmatize).

(** *** The loop *)

Lemma visit_cases lf min_length excluded seen words token :
  (forall x, x ∈ seen <-> In x words) ->
  visit lf min_length excluded (seen, words) token
  = if kept min_length excluded (lemma_of lf token)
       && negb (bool_decide (lemma_of lf token ∈ words))
    then ({[ lemma_of lf token ]} ∪ seen, words ++ [lemma_of lf token])
    else (seen, words).
Proof.
  intros Hseen. unfold Book.visit, Book.kept, Book.lemma_of. cbn [fst snd].
  set (lemma := if lf then _ else _).
  assert (Hs : bool_decide (lemma ∈ seen) = bool_decide (lemma ∈ words)).
  { apply bool_decide_ext. rewrite list_elem_of_In. apply Hseen. }
  rewrite Hs.
  destruct (isalpha lemma), (bool_decide (lemma ∈ excluded)),
    (bool_decide (lemma ∈ words)), (Z.of_nat (length lemma) <? min_length);
    reflexivity.
Qed.

(** What the loop has done after any number of tokens. *)
Lemma loop_invariant lf min_length excluded tokens : forall seen words,
  (forall x, x ∈ seen <-> In x words) -> List.NoDup words ->
  exists seen' ext,
    List.fold_left (visit lf min_length excluded) tokens (seen, words)
      = (seen', words ++ ext) /\
    (forall x, x ∈ seen' <-> In x (words ++ ext)) /\
    List.NoDup (words ++ ext) /\
    (forall w, In w ext ->
       kept min_length excluded w = true /\
       exists token, In token tokens /\ w = lemma_of lf token) /\
    (forall token, In token tokens ->
       kept min_length excluded (lemma_of lf token) = true ->
       In (lemma_of lf token) (words ++ ext)).
Proof.
  induction tokens as [|token tokens IH]; intros seen words Hseen Hnd.
  - exists seen, []. cbn [List.fold_left]. rewrite app_nil_r.
    split; [reflexivity|]. split; [exact Hseen|]. split; [exact Hnd|].
    split; [intros w []|intros t []].
  - cbn [List.fold_left]. rewrite (visit_cases _ _ _ _ _ _ Hseen).
    destruct (kept min_length excluded (lemma_of lf token)) eqn:Hk;
      cbn [andb].
    2:{ destruct (IH seen words Hseen Hnd)
          as (seen' & ext & Hf & Hs' & Hnd' & Hext & Hall).
        exists seen', ext. split; [exact Hf|]. split; [exact Hs'|].
        split; [exact Hnd'|]. split.
        - intros w Hw. destruct (Hext w Hw) as (Hkw & t & Ht & ->).
          split; [exact Hkw|]. exists t. split; [right; exact Ht|reflexivity].
        - intros t [<-|Ht] Hkt; [congruence|]. apply Hall; assumption. }
    case_bool_decide as Hin; cbn [negb]; rewrite list_elem_of_In in Hin.
    { destruct (IH seen words Hseen Hnd)
        as (seen' & ext & Hf & Hs' & Hnd' & Hext & Hall).
      exists seen', ext. split; [exact Hf|]. split; [exact Hs'|].
      split; [exact Hnd'|]. split.
      - intros w Hw. destruct (Hext w Hw) as (Hkw & t & Ht & ->).
        split; [exact Hkw|]. exists t. split; [right; exact Ht|reflexivity].
      - intros t [<-|Ht] Hkt; [apply in_or_app; left; exact Hin|].
        apply Hall; assumption. }
    assert (Hseen1 : forall x, x ∈ ({[ lemma_of lf token ]} ∪ seen : gset pystr)
                               <-> In x (words ++ [lemma_of lf token])).
    { intros x. rewrite elem_of_union, elem_of_singleton, in_app_iff, Hseen.
      cbn. intuition congruence. }
    assert (Hnd1 : List.NoDup (words ++ [lemma_of lf token])).
    { apply List.NoDup_app; [exact Hnd| |].
      - constructor; [intros []|constructor].
      - intros x Hx [<-|[]]. exact (Hin Hx). }
    destruct (IH _ _ Hseen1 Hnd1)
      as (seen' & ext & Hf & Hs' & Hnd' & Hext & Hall).
    exists seen', (lemma_of lf token :: ext).
    rewrite <- app_assoc in Hf, Hs', Hnd', Hall. cbn [app] in Hf, Hs', Hnd', Hall.
    split; [exact Hf|]. split; [exact Hs'|]. split; [exact Hnd'|]. split.
    + intros w [<-|Hw].
      * split; [exact Hk|]. exists token. split; [left|]; reflexivity.
      * destruct (Hext w Hw) as (Hkw & t & Ht & ->).
        split; [exact Hkw|]. exists t. split; [right; exact Ht|reflexivity].
    + intros t [<-|Ht] Hkt.
      * apply in_or_app. right. left. reflexivity.
      * apply Hall; assumption.
Qed.

Lemma loop_from_empty lf min_length excluded tokens :
  exists seen' words,
    List.fold_left (visit lf min_length excluded) tokens (∅, [])
      = (seen', words) /\
    List.NoDup words /\
    (forall w, In w words ->
       kept min_length excluded w = true /\
       exists token, In token tokens /\ w = lemma_of lf token) /\
    (forall token, In token tokens ->
       kept min_length excluded (lemma_of lf token) = true ->
       In (lemma_of lf token) words).
Proof.
  destruct (loop_invariant lf min_length excluded tokens ∅ [])
    as (seen' & ext & Hf & _ & Hnd & Hext & Hall).
  - intros x. rewrite elem_of_empty. cbn. tauto.
  - constructor.
  - exists seen', ext. cbn [app] in *. auto.
Qed.

Lemma kept_spec min_length excluded w :
  kept min_length excluded w = true <->
  isalpha w = true /\ w ∉ excluded /\ min_length <= Z.of_nat (length w).
Proof.
  unfold Book.kept. rewrite !andb_true_iff, !negb_true_iff.
  rewrite bool_decide_eq_false, Z.ltb_ge. tauto.
Qed.

(** *** What is left out *)

Lemma excluded_words_base self level names_flag excluded :
  excluded_words self level names_flag = Returns excluded ->
  default_stopwords self ⊆ excluded /\ known_words self ⊆ excluded /\
  (names_flag = true -> names self ⊆ excluded).
Proof.
  unfold Book.excluded_words.
  destruct level as [[|c l]|];
    [| destruct (index (upper (c :: l)) CEFR_ORDER); [|discriminate] |];
    intros [= <-]; destruct names_flag;
    repeat split; try discriminate; try set_solver.
Qed.

(** The words [extract_words] returns: no word twice; every word is the
    lemma of a token of the book, is alphabetic, has at least [min_length]
    characters, and is not a stop word, not a known word and, when names
    are excluded, not a name. The number returned with them is the number
    of tokens of the book, not of the words kept. *)
Theorem extracted_words_sound (self : BookProcessor) (all_words : list pystr)
    (lemmatize_flag : bool) (min_length : Z) (exclude_up_to : option pystr)
    (exclude_names : bool) (words : list pystr) (n : nat) :
  extract_words self (Returns all_words) lemmatize_flag min_length
    exclude_up_to exclude_names = Returns (words, n) ->
  n = length all_words /\ List.NoDup words /\
  forall w, In w words ->
    isalpha w = true /\ min_length <= Z.of_nat (length w) /\
    w ∉ default_stopwords self /\ w ∉ known_words self /\
    (exclude_names = true -> w ∉ names self) /\
    exists token, In token all_words /\ w = lemma_of lemmatize_flag token.
Proof.
  unfold Book.extract_words.
  destruct (excluded_words self exclude_up_to exclude_names)
    as [excluded|e] eqn:Hex; [|discriminate].
  destruct (loop_from_empty lemmatize_flag min_length excluded all_words)
    as (seen' & ws & Hf & Hnd & Hsound & _).
  rewrite Hf. cbn [snd]. intros [= <- <-].
  split; [reflexivity|]. split; [exact Hnd|].
  intros w Hw. destruct (Hsound w Hw) as (Hk & token & Ht & ->).
  apply kept_spec in Hk as (Ha & Hne & Hlen).
  destruct (excluded_words_base _ _ _ _ Hex) as (Hstop & Hknown & Hnames).
  split; [exact Ha|]. split; [exact Hlen|].
  split; [intros Hin; exact (Hne (Hstop _ Hin))|].
  split; [intros Hin; exact (Hne (Hknown _ Hin))|].
  split; [intros Hn Hin; exact (Hne (Hnames Hn _ Hin))|].
  exists token. auto.
Qed.

(** Nothing that passes the tests is lost: the lemma of every token that
    is alphabetic, long enough and not left out is among the words
    returned. *)
Theorem extracted_words_complete (self : BookProcessor)
    (all_words : list pystr) (lemmatize_flag : bool) (min_length : Z)
    (exclude_up_to : option pystr) (exclude_names : bool)
    (excluded : gset pystr) (words : list pystr) (n : nat) :
  excluded_words self exclude_up_to exclude_names = Returns excluded ->
  extract_words self (Returns all_words) lemmatize_flag min_length
    exclude_up_to exclude_names = Returns (words, n) ->
  forall token,
    In token all_words ->
    isalpha (lemma_of lemmatize_flag token) = true ->
    lemma_of lemmatize_flag token ∉ excluded ->
    min_length <= Z.of_nat (length (lemma_of lemmatize_flag token)) ->
    In (lemma_of lemmatize_flag token) words.
Proof.
  intros Hex. unfold Book.extract_words. rewrite Hex.
  destruct (loop_from_empty lemmatize_flag min_length excluded all_words)
    as (seen' & ws & Hf & _ & _ & Hall).
  rewrite Hf. cbn [snd]. intros [= <- <-] token Ht Ha Hne Hlen.
  apply Hall; [exact Ht|]. apply kept_spec. auto.
Qed.

(** The words come in the order in which the book first shows them: the
    words of a book that goes on are the words of the book so far, followed
    by new ones. *)
Theorem extracted_words_extend (self : BookProcessor)
    (all_words more : list pystr) (lemmatize_flag : bool) (min_length : Z)
    (exclude_up_to : option pystr) (exclude_names : bool)
    (words : list pystr) (n : nat) :
  extract_words self (Returns (all_words ++ more)) lemmatize_flag min_length
    exclude_up_to exclude_names = Returns (words, n) ->
  exists first rest,
    extract_words self (Returns all_words) lemmatize_flag min_length
      exclude_up_to exclude_names = Returns (first, length all_words) /\
    words = first ++ rest.
Proof.
  unfold Book.extract_words.
  destruct (excluded_words self exclude_up_to exclude_names)
    as [excluded|e]; [|discriminate].
  rewrite List.fold_left_app.
  destruct (loop_invariant lemmatize_flag min_length excluded all_words ∅ [])
    as (seen1 & first & Hf1 & Hs1 & Hnd1 & _).
  { intros x. rewrite elem_of_empty. cbn. tauto. }
  { constructor. }
  cbn [app] in Hf1, Hs1, Hnd1. rewrite Hf1.
  destruct (loop_invariant lemmatize_flag min_length excluded more
              seen1 first Hs1 Hnd1) as (seen2 & rest & Hf2 & _).
  rewrite Hf2. cbn [snd]. intros [= <- <-].
  exists first, rest. auto.
Qed.

(** *** The level up to which words are left out *)

Lemma index_in x l : (exists i, index x l = Some i) <-> In x l.
Proof.
  induction l as [|y l IH]; cbn.
  - split; [intros [i Hi]; discriminate|intros []].
  - case_bool_decide as Hy.
    + split; [auto|eauto].
    + split.
      * intros [i Hi]. right. apply IH.
        destruct (index x l); [eauto|discriminate].
      * intros [Hx|Hx]; [contradiction|].
        apply IH in Hx as [i ->]. eauto.
Qed.

(** A level is checked before any word is looked at, and without regard to
    case as far as [upper] goes: a level whose upper-case form is one of
    A1, A2, B1, B2, C1 is accepted, any other non-empty level makes
    [extract_words] raise ValueError. *)
Theorem cefr_level_checked (self : BookProcessor) (all_words : list pystr)
    (lemmatize_flag : bool) (min_length : Z) (level : pystr)
    (exclude_names : bool) :
  level <> [] ->
  (In (upper level) CEFR_ORDER ->
   exists words,
     extract_words self (Returns all_words) lemmatize_flag min_length
       (Some level) exclude_names = Returns (words, length all_words)) /\
  (~ In (upper level) CEFR_ORDER ->
   extract_words self (Returns all_words) lemmatize_flag min_length
     (Some level) exclude_names = Raises ValueError).
Proof.
  intros Hne. unfold Book.extract_words, Book.excluded_words.
  destruct level as [|c level]; [contradiction|].
  pose proof (index_in (upper (c :: level)) CEFR_ORDER) as Hin.
  destruct (index (upper (c :: level)) CEFR_ORDER) as [i|]; split.
  - intros _. eexists. reflexivity.
  - intros Hn. exfalso. apply Hn, Hin. eauto.
  - intros H. apply Hin in H as [i Hi]. discriminate Hi.
  - reflexivity.
Qed.

Lemma fold_union_grows {A} (f : gset pystr -> A -> gset pystr) l :
  (forall acc a, acc ⊆ f acc a) ->
  forall acc, acc ⊆ List.fold_left f l acc.
Proof.
  intros Hf. induction l as [|a l IH]; cbn; intros acc; [reflexivity|].
  etransitivity; [apply Hf|apply IH].
Qed.

Lemma load_cefr_words_grows self levels more :
  _load_cefr_words lower self levels
  ⊆ _load_cefr_words lower self (levels ++ more).
Proof.
  unfold Book._load_cefr_words. rewrite List.fold_left_app.
  apply fold_union_grows. intros acc level.
  destruct (cefr_files self level) as [lines|]; [|reflexivity].
  apply fold_union_grows. intros words line.
  destruct (strip line); [reflexivity|]. apply union_subseteq_r.
Qed.

Lemma firstn_le {A} (l : list A) i j :
  (i <= j)%nat -> exists more, List.firstn j l = List.firstn i l ++ more.
Proof.
  revert j l. induction i as [|i IH]; intros j l Hij.
  - exists (List.firstn j l). reflexivity.
  - destruct j as [|j]; [lia|]. destruct l as [|x l]; [exists []; reflexivity|].
    destruct (IH j l ltac:(lia)) as [more Hm]. exists more. cbn.
    rewrite Hm. reflexivity.
Qed.

(** A higher level leaves out at least the words a lower level leaves out:
    every word extracted with the level at place [j] of [CEFR_ORDER] is
    also extracted with a level at a place [i <= j]. *)
Theorem higher_level_excludes_more (self : BookProcessor)
    (all_words : list pystr) (lemmatize_flag : bool) (min_length : Z)
    (level1 level2 : pystr) (exclude_names : bool) (i j : nat)
    (words1 words2 : list pystr) (n1 n2 : nat) :
  level1 <> [] -> level2 <> [] ->
  index (upper level1) CEFR_ORDER = Some i ->
  index (upper level2) CEFR_ORDER = Some j ->
  (i <= j)%nat ->
  extract_words self (Returns all_words) lemmatize_flag min_length
    (Some level1) exclude_names = Returns (words1, n1) ->
  extract_words self (Returns all_words) lemmatize_flag min_length
    (Some level2) exclude_names = Returns (words2, n2) ->
  forall w, In w words2 -> In w words1.
Proof.
  intros Hn1 Hn2 Hi Hj Hij. unfold Book.extract_words, Book.excluded_words.
  destruct level1 as [|c1 level1]; [contradiction|].
  destruct level2 as [|c2 level2]; [contradiction|].
  rewrite Hi, Hj.
  set (ex1 := if exclude_names then _ else _).
  set (ex2 := if exclude_names then _ else _).
  assert (Hsub : ex1 ⊆ ex2).
  { destruct (firstn_le CEFR_ORDER (i + 1) (j + 1) ltac:(lia)) as [more Hm].
    pose proof (load_cefr_words_grows self
                  (List.firstn (i + 1) CEFR_ORDER) more) as Hg.
    rewrite <- Hm in Hg. subst ex1 ex2.
    destruct exclude_names; intros x; rewrite ?elem_of_union;
      specialize (Hg x); tauto. }
  destruct (loop_from_empty lemmatize_flag min_length ex1 all_words)
    as (seen1 & ws1 & Hf1 & _ & _ & Hall1).
  destruct (loop_from_empty lemmatize_flag min_length ex2 all_words)
    as (seen2 & ws2 & Hf2 & _ & Hsound2 & _).
  rewrite Hf1, Hf2. cbn [snd]. intros [= <- <-] [= <- <-] w Hw.
  destruct (Hsound2 w Hw) as (Hk & token & Ht & ->).
  apply Hall1; [exact Ht|].
  apply kept_spec in Hk as (Ha & Hne & Hlen). apply kept_spec.
  split; [exact Ha|]. split; [|exact Hlen].
  intros Hin. exact (Hne (Hsub _ Hin)).
Qed.

End Processor.

Lemma extracted_words_sound_witness :
  toy_extract (Some (lit "a2")) = Returns ([lit "dog"; lit "wild"], 9%nat) /\
  List.NoDup [lit "dog"; lit "wild"].
Proof.
  assert (E : toy_extract (Some (lit "a2"))
              = Returns ([lit "dog"; lit "wild"], 9%nat))
    by (vm_compute; reflexivity).
  split; [exact E|].
  exact (proj1 (proj2 (extracted_words_sound Soup.lower Soup.upper ascii_isalpha
                         toy_lemmatize toy_processor toy_tokens true 3
                         (Some (lit "a2")) true [lit "dog"; lit "wild"]
                         9%nat E))).
Defined.

Lemma extracted_words_complete_witness :
  In (lit "run") [lit "dog"; lit "run"; lit "wild"].
Proof.
  pose (ex := default_stopwords toy_processor ∪ known_words toy_processor
              ∪ names toy_processor).
  assert (Hex : excluded_words Soup.lower Soup.upper toy_processor None true
                = Returns ex) by reflexivity.
  assert (E : toy_extract None
              = Returns ([lit "dog"; lit "run"; lit "wild"], 9%nat))
    by (vm_compute; reflexivity).
  apply (extracted_words_complete Soup.lower Soup.upper ascii_isalpha
           toy_lemmatize toy_processor toy_tokens true 3 None true ex
           [lit "dog"; lit "run"; lit "wild"] 9%nat Hex E
           (lit "ran")).
  - vm_compute. tauto.
  - vm_compute. reflexivity.
  - apply (bool_decide_unpack _). vm_compute. reflexivity.
  - vm_compute. discriminate.
Defined.

Lemma extracted_words_extend_witness :
  exists first rest,
    extract_words Soup.lower Soup.upper ascii_isalpha toy_lemmatize
      toy_processor (Returns [lit "The"; lit "dog"; lit "ran"]) true 3 None true
    = Returns (first, 3%nat) /\
    [lit "dog"; lit "run"; lit "wild"] = first ++ rest.
Proof.
  assert (E : extract_words Soup.lower Soup.upper ascii_isalpha toy_lemmatize
                toy_processor
                (Returns ([lit "The"; lit "dog"; lit "ran"]
                          ++ [lit "wild"; lit "Tom"; lit "x2"; lit "dog";
                              lit "is"; lit "Dog"])) true 3 None true
              = Returns ([lit "dog"; lit "run"; lit "wild"], 9%nat))
    by (vm_compute; reflexivity).
  exact (extracted_words_extend Soup.lower Soup.upper ascii_isalpha
           toy_lemmatize toy_processor
           [lit "The"; lit "dog"; lit "ran"]
           [lit "wild"; lit "Tom"; lit "x2"; lit "dog"; lit "is"; lit "Dog"]
           true 3 None true [lit "dog"; lit "run"; lit "wild"] 9%nat E).
Defined.

Lemma cefr_level_checked_witness :
  toy_extract (Some (lit "c2")) = Raises ValueError /\
  exists words, toy_extract (Some (lit "b1")) = Returns (words, 9%nat).
Proof.
  split.
  - apply (cefr_level_checked Soup.lower Soup.upper ascii_isalpha toy_lemmatize
             toy_processor toy_tokens true 3 (lit "c2") true); [discriminate|].
    vm_compute. intuition discriminate.
  - apply (cefr_level_checked Soup.lower Soup.upper ascii_isalpha toy_lemmatize
             toy_processor toy_tokens true 3 (lit "b1") true); [discriminate|].
    vm_compute. tauto.
Defined.

Lemma higher_level_excludes_more_witness :
  toy_extract (Some (lit "a2")) = Returns ([lit "dog"; lit "wild"], 9%nat) /\
  toy_extract (Some (lit "b1")) = Returns ([lit "dog"], 9%nat) /\
  In (lit "dog") [lit "dog"; lit "wild"].
Proof.
  assert (E1 : toy_extract (Some (lit "a2"))
               = Returns ([lit "dog"; lit "wild"], 9%nat))
    by (vm_compute; reflexivity).
  assert (E2 : toy_extract (Some (lit "b1")) = Returns ([lit "dog"], 9%nat))
    by (vm_compute; reflexivity).
  split; [exact E1|]. split; [exact E2|].
  apply (higher_level_excludes_more Soup.lower Soup.upper ascii_isalpha
           toy_lemmatize toy_processor toy_tokens true 3 (lit "a2") (lit "b1")
           true 1%nat 2%nat [lit "dog"; lit "wild"] [lit "dog"] 9%nat 9%nat);
    [discriminate|discriminate|vm_compute; reflexivity|vm_compute; reflexivity
    |lia|exact E1|exact E2|left; reflexivity].
Defined.

End BookFacts.

(** ** book2anki.py : update_known_words *)

Module MainFacts.
Import Oald Main.

(** *** Lines *)

Lemma splitlines_line cur s t :
  forallb (fun c => negb (is_linebreak c)) s = true ->
  splitlines_from cur (s ++ 10%N :: t)
  = (List.rev cur ++ s) :: splitlines_from [] t.
Proof.
  revert cur. induction s as [|c s IH]; intros cur Hs.
  - cbn [app splitlines_from]. rewrite app_nil_r.
    change (is_linebreak 10) with true. cbn match.
    destruct t as [|c' t]; reflexivity.
  - cbn [forallb] in Hs. apply andb_true_iff in Hs as [Hc Hs].
    apply negb_true_iff in Hc. cbn [app splitlines_from]. rewrite Hc.
    rewrite (IH (c :: cur) Hs). cbn [List.rev]. rewrite <- app_assoc.
    reflexivity.
Qed.

Lemma splitlines_lines ws t :
  Forall (fun w => forallb (fun c => negb (is_linebreak c)) w = true) ws ->
  splitlines_from [] (List.flat_map (fun w => w ++ [10%N]) ws ++ t)
  = ws ++ splitlines_from [] t.
Proof.
  induction 1 as [|w ws Hw _ IH]; cbn [List.flat_map app]; [reflexivity|].
  rewrite <- !app_assoc. cbn [app]. rewrite splitlines_line by exact Hw.
  cbn [List.rev app]. rewrite IH. reflexivity.
Qed.

Lemma join_cons w ws :
  join [10%N] (w :: ws) ++ [10%N]
  = List.flat_map (fun w => w ++ [10%N]) (w :: ws).
Proof.
  revert w. induction ws as [|w' ws IH]; intros w.
  - cbn. rewrite app_nil_r. reflexivity.
  - change (join [10%N] (w :: w' :: ws))
      with (w ++ [10%N] ++ join [10%N] (w' :: ws)).
    transitivity ((w ++ [10%N]) ++ (join [10%N] (w' :: ws) ++ [10%N])).
    + rewrite <- !app_assoc. reflexivity.
    + apply (f_equal (app (w ++ [10%N]))). exact (IH w').
Qed.

Lemma join_lines ws :
  ws <> [] ->
  join [10%N] ws ++ [10%N] = List.flat_map (fun w => w ++ [10%N]) ws.
Proof. destruct ws as [|w ws]; [contradiction|]. intros _. apply join_cons. Qed.

(** A text that ends with a line feed can be split there. *)
Lemma splitlines_after_newline n : forall c cur t,
  (length c <= n)%nat ->
  splitlines_from cur (c ++ 10%N :: t)
  = splitlines_from cur (c ++ [10%N]) ++ splitlines_from [] t.
Proof.
  induction n as [|n IH]; intros c cur t Hlen.
  - destruct c; [|cbn in Hlen; lia]. cbn [app splitlines_from].
    change (is_linebreak 10) with true. cbn match.
    destruct t; reflexivity.
  - destruct c as [|x c].
    { apply (IH [] cur t). cbn. lia. }
    cbn [length] in Hlen. cbn [app splitlines_from].
    destruct (is_linebreak x).
    2:{ apply IH. lia. }
    destruct c as [|y c]; cbn [app].
    + destruct ((x =? 13)%N && (10 =? 10)%N); cbn [app].
      * reflexivity.
      * f_equal. apply (IH [] [] t). cbn. lia.
    + destruct ((x =? 13)%N && (y =? 10)%N); cbn [app]; f_equal.
      * apply IH. cbn in Hlen. lia.
      * apply (IH (y :: c) [] t). lia.
Qed.

Lemma ends_with_newline_cases content :
  ends_with_newline content = true ->
  content = [] \/ exists c, content = c ++ [10%N].
Proof.
  unfold ends_with_newline. intros H.
  destruct (List.rev content) as [|x r] eqn:Hr.
  - left. apply (f_equal (@List.rev N)) in Hr. rewrite List.rev_involutive in Hr.
    exact Hr.
  - right. apply N.eqb_eq in H. subst x. exists (List.rev r).
    apply (f_equal (@List.rev N)) in Hr. rewrite List.rev_involutive in Hr.
    exact Hr.
Qed.

Lemma splitlines_append content ws :
  ends_with_newline content = true ->
  Forall (fun w => forallb (fun c => negb (is_linebreak c)) w = true) ws ->
  splitlines (content ++ List.flat_map (fun w => w ++ [10%N]) ws)
  = splitlines content ++ ws.
Proof.
  intros Hc Hws. unfold splitlines.
  pose proof (splitlines_lines ws [] Hws) as Hl.
  rewrite app_nil_r in Hl. cbn [splitlines_from] in Hl. rewrite app_nil_r in Hl.
  destruct (ends_with_newline_cases content Hc) as [->|[c ->]].
  - cbn [app]. exact Hl.
  - rewrite <- app_assoc. cbn [app].
    rewrite (splitlines_after_newline (length c) c [] _ (Nat.le_refl _)).
    rewrite Hl. reflexivity.
Qed.

Lemma ends_with_newline_lines content ws :
  ends_with_newline content = true ->
  ends_with_newline (content ++ List.flat_map (fun w => w ++ [10%N]) ws) = true.
Proof.
  intros Hc. induction ws as [|w ws IH] using List.rev_ind.
  - cbn. rewrite app_nil_r. exact Hc.
  - unfold ends_with_newline. rewrite List.flat_map_app. cbn [List.flat_map].
    rewrite app_nil_r, !app_assoc, List.rev_app_distr. reflexivity.
Qed.

(** *** Encoding *)

Lemma encode_app a b :
  (exists x, Hash.encode a = Ok x) -> (exists y, Hash.encode b = Ok y) ->
  exists z, Hash.encode (a ++ b) = Ok z.
Proof.
  intros [x Hx] [y Hy]. revert x Hx. induction a as [|c a IH]; cbn; intros x Hx.
  - eauto.
  - destruct (Hash.encode_char c); [|discriminate].
    destruct (Hash.encode a) as [x'|]; cbn in *; [|discriminate].
    destruct (IH x' eq_refl) as [z ->]. cbn. eauto.
Qed.

Lemma line_safe_encodes w :
  line_safe w = true -> exists x, Hash.encode (w ++ [10%N]) = Ok x.
Proof.
  intros H. apply encode_app; [|vm_compute; eauto].
  induction w as [|c w IH]; cbn; [eauto|].
  cbn in H. apply andb_true_iff in H as [Hc Hw].
  apply andb_true_iff in Hc as [_ Hc].
  destruct (Hash.encode_char c); [|discriminate].
  destruct (IH Hw) as [x ->]. cbn. eauto.
Qed.

Lemma lines_encode ws :
  Forall (fun w => line_safe w = true) ws ->
  exists x, Hash.encode (List.flat_map (fun w => w ++ [10%N]) ws) = Ok x.
Proof.
  induction 1 as [|w ws Hw _ IH]; cbn [List.flat_map]; [cbn; eauto|].
  apply encode_app; [apply line_safe_encodes, Hw|exact IH].
Qed.

Lemma line_safe_no_break w :
  line_safe w = true -> forallb (fun c => negb (is_linebreak c)) w = true.
Proof.
  unfold line_safe. induction w as [|c w IH]; cbn; [reflexivity|].
  intros H. apply andb_true_iff in H as [Hc Hw].
  apply andb_true_iff in Hc as [-> _]. exact (IH Hw).
Qed.

Section Update.

Variable order : gset pystr -> list pystr.
Hypothesis order_elements : forall s x, In x (order s) <-> x ∈ s.

Lemma order_set s : list_to_set (order s) = s.
Proof.
  apply set_eq. intros x.
  rewrite elem_of_list_to_set, list_elem_of_In. apply order_elements.
Qed.

(** The file of known words after a run without file-system failures, for
    words that fit on a line, when the file was empty, absent or ended
    with a line feed: its lines are the lines it had and the new words,
    nothing that was there is changed, it ends with a line feed again
    unless it is still absent, and a second run with the same words
    leaves it as it is. *)
Theorem known_words_recorded (file : option pystr) (new_words : list pystr) :
  ends_with_newline (default [] file) = true ->
  Forall (fun w => line_safe w = true) new_words ->
  let file' := update_known_words order no_faults file new_words in
  lines_of file' = lines_of file ∪ list_to_set new_words /\
  (exists added, default [] file' = default [] file ++ added) /\
  ends_with_newline (default [] file') = true /\
  update_known_words order no_faults file' new_words = file'.
Proof.
  intros Hend Hsafe. cbn zeta.
  assert (Hex : forall f,
            match f with
            | None => Ok ∅
            | Some content =>
                match read_raises no_faults with
                | Some e => Raise e
                | None => Ok (list_to_set (splitlines content))
                end
            end = Ok (lines_of f)).
  { intros [c|]; reflexivity. }
  assert (Hnoop : forall f,
            list_to_set new_words ∖ lines_of f = (∅ : gset pystr) ->
            update_known_words order no_faults f new_words = f).
  { intros f Hf. unfold update_known_words. cbn [mkdir_raises no_faults].
    rewrite Hex, Hf. rewrite bool_decide_eq_true_2 by reflexivity.
    reflexivity. }
  destruct (decide (list_to_set new_words ∖ lines_of file = (∅ : gset pystr)))
    as [Hnone|Hsome].
  { rewrite (Hnoop file Hnone). split; [|split; [|split]].
    - apply set_eq. intros x. rewrite elem_of_union.
      assert (Hx : x ∈ (list_to_set new_words ∖ lines_of file : gset pystr)
                   <-> x ∈ (∅ : gset pystr)) by (rewrite Hnone; tauto).
      rewrite elem_of_difference, elem_of_empty in Hx.
      destruct (decide (x ∈ lines_of file)); tauto.
    - exists []. rewrite app_nil_r. reflexivity.
    - exact Hend.
    - exact (Hnoop file Hnone). }
  set (new_unique := list_to_set new_words ∖ lines_of file : gset pystr) in *.
  assert (Hne : order new_unique <> []).
  { intros Hnil. apply Hsome. rewrite <- (order_set new_unique), Hnil.
    reflexivity. }
  assert (Hin : Forall (fun w => line_safe w = true) (order new_unique)).
  { apply List.Forall_forall. intros w Hw. apply order_elements in Hw.
    unfold new_unique in Hw. apply elem_of_difference in Hw as [Hw _].
    apply elem_of_list_to_set, list_elem_of_In in Hw.
    rewrite List.Forall_forall in Hsafe. exact (Hsafe w Hw). }
  assert (Hupd : update_known_words order no_faults file new_words
                 = Some (default [] file
                         ++ List.flat_map (fun w => w ++ [10%N])
                              (order new_unique))).
  { unfold update_known_words. cbn [mkdir_raises no_faults]. rewrite Hex.
    fold new_unique. rewrite bool_decide_eq_false_2 by exact Hsome.
    cbn [open_raises write_raises]. rewrite (join_lines _ Hne).
    destruct (lines_encode _ Hin) as [x ->]. reflexivity. }
  rewrite Hupd.
  assert (Hlines : lines_of (Some (default [] file
                                   ++ List.flat_map (fun w => w ++ [10%N])
                                        (order new_unique)))
                   = lines_of file ∪ list_to_set new_words).
  { unfold lines_of at 1. cbn [from_option id].
    rewrite splitlines_append; [|exact Hend|].
    2:{ eapply List.Forall_impl; [|exact Hin]. apply line_safe_no_break. }
    rewrite list_to_set_app_L, order_set. fold (lines_of file).
    apply set_eq. intros x. unfold new_unique.
    rewrite !elem_of_union, elem_of_difference.
    destruct (decide (x ∈ lines_of file)); tauto. }
  split; [exact Hlines|]. split; [eexists; reflexivity|].
  split; [apply ends_with_newline_lines, Hend|].
  apply Hnoop. rewrite Hlines. apply set_eq. intros x.
  rewrite elem_of_difference, elem_of_union, elem_of_empty. tauto.
Qed.

End Update.

Lemma known_words_recorded_witness :
  update_known_words sorted_order no_faults (Some (lit "dog" ++ [10%N]))
    [lit "run"; lit "dog"; lit "wild"]
  = Some (lit "dog" ++ [10%N] ++ lit "run" ++ [10%N] ++ lit "wild" ++ [10%N]) /\
  update_known_words sorted_order no_faults
    (update_known_words sorted_order no_faults (Some (lit "dog" ++ [10%N]))
       [lit "run"; lit "dog"; lit "wild"])
    [lit "run"; lit "dog"; lit "wild"]
  = update_known_words sorted_order no_faults (Some (lit "dog" ++ [10%N]))
      [lit "run"; lit "dog"; lit "wild"].
Proof.
  split; [vm_compute; reflexivity|].
  apply (known_words_recorded sorted_order
           (fun s x => iff_trans (iff_sym (list_elem_of_In _ _))
                         (elem_of_elements s x))
           (Some (lit "dog" ++ [10%N])) [lit "run"; lit "dog"; lit "wild"]).
  - vm_compute. reflexivity.
  - repeat constructor.
Defined.

End MainFacts.

(** ** generate/anki.py : AnkiGenerator *)

Module AnkiFacts.
Import Json Anki.

(** *** Deck ids *)

Lemma hex_value_digit v :
  0 <= v < 16 -> hex_value (Hash.hex_digit v) = Some v.
Proof.
  intros Hv. unfold Hash.hex_digit, hex_value.
  destruct (v <? 10) eqn:Hlt.
  - apply Z.ltb_lt in Hlt.
    replace ((48 <=? Z.to_N (48 + v)) && (Z.to_N (48 + v) <=? 57))%N with true
      by (symmetry; apply andb_true_iff; split; apply N.leb_le; lia).
    f_equal. lia.
  - apply Z.ltb_ge in Hlt.
    replace ((48 <=? Z.to_N (87 + v)) && (Z.to_N (87 + v) <=? 57))%N with false
      by (symmetry; apply andb_false_iff; right; apply N.leb_gt; lia).
    replace ((97 <=? Z.to_N (87 + v)) && (Z.to_N (87 + v) <=? 102))%N with true
      by (symmetry; apply andb_true_iff; split; apply N.leb_le; lia).
    f_equal. lia.
Qed.

Lemma int16_byte acc b rest :
  0 <= b < 256 ->
  int16_from acc (Hash.hex_byte b ++ rest) = int16_from (256 * acc + b) rest.
Proof.
  intros Hb. unfold Hash.hex_byte. cbn [app int16_from].
  rewrite (hex_value_digit (b / 16)) by (split; [apply Z.div_pos|apply Z.div_lt_upper_bound]; lia).
  rewrite (hex_value_digit (b mod 16)) by (apply Z.mod_pos_bound; lia).
  f_equal. pose proof (Z.div_mod b 16 ltac:(lia)). lia.
Qed.

Lemma le_bytes_4 x :
  Hash.le_bytes 4 x
  = [ Z.shiftr x 0 mod 256; Z.shiftr x 8 mod 256; Z.shiftr x 16 mod 256;
      Z.shiftr x 24 mod 256 ].
Proof. reflexivity. Qed.

(** The first eight characters of a digest are read as a number below
    [2 ^ 32]. *)
Lemma digest_head data :
  exists n, int16 (List.firstn 8 (Hash.md5_hexdigest data)) = Done n /\
            0 <= n < 2 ^ 32.
Proof.
  unfold Hash.md5_hexdigest.
  destruct (Hash.blocks _ _ _) as [[[a b] c] d].
  rewrite le_bytes_4. cbn [app List.flat_map].
  set (b0 := Z.shiftr a 0 mod 256). set (b1 := Z.shiftr a 8 mod 256).
  set (b2 := Z.shiftr a 16 mod 256). set (b3 := Z.shiftr a 24 mod 256).
  assert (H0 : 0 <= b0 < 256) by (apply Z.mod_pos_bound; lia).
  assert (H1 : 0 <= b1 < 256) by (apply Z.mod_pos_bound; lia).
  assert (H2 : 0 <= b2 < 256) by (apply Z.mod_pos_bound; lia).
  assert (H3 : 0 <= b3 < 256) by (apply Z.mod_pos_bound; lia).
  unfold Hash.hex_byte at 1 2 3 4. cbn [app List.firstn].
  exists (256 * (256 * (256 * b0 + b1) + b2) + b3). split; [|lia].
  unfold int16.
  change (int16_from 0 (Hash.hex_byte b0 ++ Hash.hex_byte b1
                        ++ Hash.hex_byte b2 ++ Hash.hex_byte b3 ++ [])
          = Done (256 * (256 * (256 * b0 + b1) + b2) + b3)).
  rewrite !int16_byte by assumption. cbn [int16_from]. f_equal; lia.
Qed.

(** A deck id is the number the first four bytes of the MD5 digest of the
    deck name spell, so it is below [2 ^ 32] and the reduction modulo
    [10 ** 10] changes nothing; [_generate_deck_id] fails only on a name
    that cannot be encoded. *)
Theorem deck_id_32_bits (name : pystr) :
  match _generate_deck_id name with
  | Done id =>
      0 <= id < 2 ^ 32 /\
      exists digest, Hash.md5_hex name = Ok digest /\
                     int16 (List.firstn 8 digest) = Done id
  | Fails e =>
      e = Builtin UnicodeEncodeError /\
      Hash.md5_hex name = Raise UnicodeEncodeError
  end.
Proof.
  unfold _generate_deck_id, Hash.md5_hex.
  destruct (Hash.encode name) as [data|e] eqn:He; cbn [bind].
  - destruct (digest_head data) as (n & Hn & Hb). rewrite Hn.
    cbn [and_then]. rewrite Z.mod_small by lia. split; [exact Hb|].
    exists (Hash.md5_hexdigest data). split; [reflexivity|exact Hn].
  - pose proof (MediaFacts.encode_raises _ _ He). subst e. auto.
Qed.

(** *** Notes from scraped entries *)

Section Runtime.

Variable repr : pyval -> pystr.
Variable number_truth : pystr -> bool.
Variable media_path : pystr -> pystr.
Variable download_audio : pystr -> result (option pystr).

#[local] Abbreviation truth := (truth number_truth).
#[local] Abbreviation example_items := (example_items repr).
#[local] Abbreviation format_meaning := (format_meaning repr number_truth).
#[local] Abbreviation format_sense := (format_sense repr number_truth).
#[local] Abbreviation _format_meanings := (_format_meanings repr number_truth).
#[local] Abbreviation _format_phrasal_definitions :=
  (_format_phrasal_definitions repr number_truth).
#[local] Abbreviation _format_idiom_examples :=
  (_format_idiom_examples repr number_truth).
#[local] Abbreviation _safe_download :=
  (_safe_download number_truth media_path download_audio).
#[local] Abbreviation _process_main_entry :=
  (_process_main_entry repr number_truth media_path download_audio).
#[local] Abbreviation idiom_note := (idiom_note repr number_truth).
#[local] Abbreviation phrasal_note := (phrasal_note repr number_truth).
#[local] Abbreviation _process_idioms := (_process_idioms repr number_truth).
#[local] Abbreviation _process_phrasal_verbs :=
  (_process_phrasal_verbs repr number_truth).
#[local] Abbreviation _process_entry :=
  (_process_entry repr number_truth media_path download_audio).

Import OaldShape.

Lemma key_eq (k : string) (p : pystr * pyval) :
  has_key k p = true -> p = (lit k, snd p).
Proof.
  unfold has_key. intros H. apply bool_decide_eq_true in H.
  destruct p as [k' v]. cbn in *. subst. reflexivity.
Qed.

Lemma str_eq v : is_str v = true -> exists s, v = PStr s.
Proof. destruct v; try discriminate. eauto. Qed.

Lemma example_items_strings exs :
  forallb is_str exs = true -> exists html, example_items (PList exs) = Done html.
Proof. intros _. unfold Anki.example_items. cbn. eauto. Qed.

Lemma sense_parts v :
  is_sense v = true ->
  exists d exs l,
    v = PDict [ (lit "definition", PStr d); (lit "examples", PList exs);
                (lit "level", PStr l) ].
Proof.
  destruct v as [| | | | |[|d [|x [|l [|]]]]]; try discriminate.
  cbn [is_sense]. rewrite !andb_true_iff.
  intros [[[[[Hd Hds] Hx] Hxs] Hl] Hls].
  rewrite (key_eq _ _ Hd), (key_eq _ _ Hx), (key_eq _ _ Hl).
  destruct (str_eq _ Hds) as [sd ->]. destruct (str_eq _ Hls) as [sl ->].
  destruct (snd x) as [| | | |exs|]; try discriminate. eauto.
Qed.

Lemma format_meaning_sense v :
  is_sense v = true -> exists html, format_meaning v = Done html.
Proof.
  intros H. destruct (sense_parts v H) as (d & exs & l & ->).
  unfold Anki.format_meaning, get.
  change (dict_get (lit "definition") _) with (Some (PStr d)).
  change (dict_get (lit "examples") _) with (Some (PList exs)).
  change (dict_get (lit "level") _) with (Some (PStr l)).
  cbn [and_then]. unfold Anki.example_items. cbn [iterate and_then].
  destruct (Anki.truth number_truth (PList exs)); cbn [and_then]; eauto.
Qed.

Lemma format_sense_sense v :
  is_sense v = true -> exists html, format_sense v = Done html.
Proof.
  intros H. destruct (sense_parts v H) as (d & exs & l & ->).
  unfold Anki.format_sense, get.
  change (dict_get (lit "definition") _) with (Some (PStr d)).
  change (dict_get (lit "examples") _) with (Some (PList exs)).
  change (dict_get (lit "level") _) with (Some (PStr l)).
  cbn [and_then]. unfold Anki.example_items. cbn [iterate and_then].
  destruct (Anki.truth number_truth (PList exs)); cbn [and_then]; eauto.
Qed.

Lemma map_outcome_ok {A B} (f : A -> outcome B) l :
  (forall x, In x l -> exists y, f x = Done y) ->
  exists ys, map_outcome f l = Done ys.
Proof.
  induction l as [|x l IH]; cbn [map_outcome]; intros H; [eauto|].
  destruct (H x (or_introl eq_refl)) as [y ->]. cbn [and_then].
  destruct IH as [ys ->]; [intros z Hz; apply H; right; exact Hz|].
  cbn [and_then]. eauto.
Qed.

Lemma format_meanings_senses ms :
  forallb is_sense ms = true ->
  exists html, _format_meanings (PList ms) = Done html.
Proof.
  intros H. unfold Anki._format_meanings. cbn [iterate and_then].
  destruct (map_outcome_ok format_meaning ms) as [ys ->]; [|cbn; eauto].
  intros x Hx. apply format_meaning_sense.
  rewrite forallb_forall in H. exact (H x Hx).
Qed.

Lemma format_phrasal_senses ms :
  forallb is_sense ms = true ->
  exists html, _format_phrasal_definitions (PList ms) = Done html.
Proof.
  intros H. unfold Anki._format_phrasal_definitions. cbn [iterate and_then].
  destruct (map_outcome_ok format_sense ms) as [ys ->]; [|cbn; eauto].
  intros x Hx. apply format_sense_sense.
  rewrite forallb_forall in H. exact (H x Hx).
Qed.

Lemma idiom_note_ok v :
  is_idiom v = true -> exists note, idiom_note v = Done note /\ text_note 3 note.
Proof.
  destruct v as [| | | | |[|i [|d [|x [|]]]]]; try discriminate.
  cbn [is_idiom]. rewrite !andb_true_iff.
  intros [[[[[Hi His] Hd] Hds] Hx] Hxs].
  rewrite (key_eq _ _ Hi), (key_eq _ _ Hd), (key_eq _ _ Hx).
  destruct (str_eq _ His) as [si ->]. destruct (str_eq _ Hds) as [sd ->].
  destruct (snd x) as [| | | |exs|]; try discriminate.
  unfold Anki.idiom_note, getitem.
  change (dict_get (lit "idiom") _) with (Some (PStr si)).
  change (dict_get (lit "definition") _) with (Some (PStr sd)).
  change (dict_get (lit "examples") _) with (Some (PList exs)).
  cbn [and_then]. unfold Anki._format_idiom_examples, Anki.example_items.
  cbn [iterate and_then].
  destruct (Anki.truth number_truth (PList exs)); cbn [and_then];
    eexists; (split; [reflexivity|split; reflexivity]).
Qed.

Lemma phrasal_note_ok v :
  is_phrasal_verb v = true ->
  exists note, phrasal_note v = Done note /\ text_note 2 note.
Proof.
  destruct v as [| | | | |[|n [|s [|]]]]; try discriminate.
  cbn [is_phrasal_verb]. rewrite !andb_true_iff.
  intros [[[Hn Hns] Hs] Hss].
  rewrite (key_eq _ _ Hn), (key_eq _ _ Hs).
  destruct (str_eq _ Hns) as [sn ->].
  destruct (snd s) as [| | | |[|m ms]|]; try discriminate.
  unfold Anki.phrasal_note, getitem.
  change (dict_get (lit "phrasal_verb") _) with (Some (PStr sn)).
  change (dict_get (lit "senses") _) with (Some (PList (m :: ms))).
  cbn [and_then].
  destruct (format_phrasal_senses (m :: ms) Hss) as [html ->].
  cbn [and_then]. eexists. split; [reflexivity|split; reflexivity].
Qed.

(** The notes a loop adds when no item fails. *)
Lemma add_notes_ok note_of add (P : list pyval -> Prop) items : forall self,
  (forall item, In item items -> exists note, note_of item = Done note /\ P note) ->
  exists notes,
    add_notes note_of add self items
      = (List.fold_left (fun s n => add n s) notes self, Done tt) /\
    length notes = length items /\ Forall P notes.
Proof.
  induction items as [|item items IH]; intros self H.
  - exists []. cbn. auto.
  - destruct (H item (or_introl eq_refl)) as (note & Hn & HP).
    cbn [add_notes]. rewrite Hn.
    destruct (IH (add note self)) as (notes & Hr & Hlen & Hall).
    { intros i Hi. apply H. right. exact Hi. }
    exists (note :: notes). cbn [List.fold_left length]. rewrite Hr.
    split; [reflexivity|]. split; [lia|]. constructor; assumption.
Qed.

Lemma add_idiom_notes notes : forall self,
  let self' := List.fold_left (fun s n => add_idiom_note n s) notes self in
  idioms_deck self' = idioms_deck self ++ notes /\
  words_deck self' = words_deck self /\
  phrasal_deck self' = phrasal_deck self /\
  media_files self' = media_files self /\ valid_words self' = valid_words self.
Proof.
  induction notes as [|n notes IH]; intros self; cbn [List.fold_left].
  - rewrite app_nil_r. auto.
  - destruct (IH (add_idiom_note n self)) as (-> & -> & -> & -> & ->).
    cbn. rewrite <- app_assoc. auto.
Qed.

Lemma add_phrasal_notes notes : forall self,
  let self' := List.fold_left (fun s n => add_phrasal_note n s) notes self in
  phrasal_deck self' = phrasal_deck self ++ notes /\
  words_deck self' = words_deck self /\
  idioms_deck self' = idioms_deck self /\
  media_files self' = media_files self /\ valid_words self' = valid_words self.
Proof.
  induction notes as [|n notes IH]; intros self; cbn [List.fold_left].
  - rewrite app_nil_r. auto.
  - destruct (IH (add_phrasal_note n self)) as (-> & -> & -> & -> & ->).
    cbn. rewrite <- app_assoc. auto.
Qed.

Lemma safe_download_media self url :
  let '(self', name) := _safe_download self url in
  words_deck self' = words_deck self /\ idioms_deck self' = idioms_deck self /\
  phrasal_deck self' = phrasal_deck self /\
  valid_words self' = valid_words self /\
  ((self' = self /\ name = []) \/
   (name <> [] /\ media_files self' = media_files self ++ [media_path name] /\
    exists u, url = PStr u /\ download_audio u = Ok (Some name))).
Proof.
  assert (Hsame : words_deck self = words_deck self /\
                  idioms_deck self = idioms_deck self /\
                  phrasal_deck self = phrasal_deck self /\
                  valid_words self = valid_words self /\
                  ((self = self /\ @nil N = []) \/
                   (@nil N <> [] /\
                    media_files self = media_files self ++ [media_path []] /\
                    exists u, url = PStr u /\ download_audio u = Ok (Some []))))
    by (repeat split; left; split; reflexivity).
  unfold Anki._safe_download.
  destruct (Anki.truth number_truth url); [|exact Hsame].
  destruct url as [| | |u| |]; try exact Hsame.
  destruct (download_audio u) as [[[|c f]|]|e] eqn:Hd; try exact Hsame.
  cbn. repeat split. right. split; [discriminate|]. split; [reflexivity|].
  exists u. auto.
Qed.

Lemma pronunciation_parts v :
  is_pronunciation v = true ->
  exists ipa audio, v = PDict [(lit "ipa", PStr ipa); (lit "audio", PStr audio)].
Proof.
  destruct v as [| | | | |[|i [|a [|]]]]; try discriminate.
  cbn [is_pronunciation]. rewrite !andb_true_iff.
  intros [[[Hi His] Ha] Has].
  rewrite (key_eq _ _ Hi), (key_eq _ _ Ha).
  destruct (str_eq _ His) as [si ->]. destruct (str_eq _ Has) as [sa ->].
  eauto.
Qed.

Lemma entry_parts v :
  is_entry v = true ->
  exists h p uk ipa audio ms ids pvs,
    v = PDict
          [ (lit "headword", PStr h); (lit "part_of_speech", PStr p);
            (lit "pronunciations",
             PDict [ (lit "uk", uk);
                     (lit "us", PDict [ (lit "ipa", PStr ipa);
                                        (lit "audio", PStr audio) ]) ]);
            (lit "meanings", PList ms); (lit "idioms", PList ids);
            (lit "phrasal_verbs", PList pvs) ] /\
    forallb is_sense ms = true /\ forallb is_idiom ids = true /\
    forallb is_phrasal_verb pvs = true.
Proof.
  destruct v as [| | | | |[|h [|p [|pr [|m [|i [|pv [|]]]]]]]]; try discriminate.
  cbn [is_entry]. rewrite !andb_true_iff.
  intros [[[[[[[[[[[Hh Hhs] Hp] Hps] Hpr] Hprs] Hm] Hms] Hi] His] Hpv] Hpvs].
  rewrite (key_eq _ _ Hh), (key_eq _ _ Hp), (key_eq _ _ Hpr), (key_eq _ _ Hm),
    (key_eq _ _ Hi), (key_eq _ _ Hpv).
  destruct (str_eq _ Hhs) as [sh ->]. destruct (str_eq _ Hps) as [sp ->].
  destruct (snd pr) as [| | | | |[|uk [|us [|]]]]; try discriminate.
  rewrite !andb_true_iff in Hprs. destruct Hprs as [[[Huk _] Hus] Huss].
  rewrite (key_eq _ _ Huk), (key_eq _ _ Hus).
  destruct (pronunciation_parts _ Huss) as (ipa & audio & ->).
  destruct (snd m) as [| | | |ms|]; try discriminate.
  destruct (snd i) as [| | | |ids|]; try discriminate.
  destruct (snd pv) as [| | | |pvs|]; try discriminate.
  exists sh, sp, (snd uk), ipa, audio, ms, ids, pvs. auto.
Qed.

(** What [_process_entry] does with an entry of the scraper's shape. *)
Lemma scraped_entry_notes self entry :
  is_entry_or_empty entry = true ->
  exists self' note idioms phrasal_verbs idiom_notes phrasal_notes,
    _process_entry self entry = (self', Done tt) /\
    get entry "idioms" (PList []) = Done (PList idioms) /\
    get entry "phrasal_verbs" (PList []) = Done (PList phrasal_verbs) /\
    words_deck self' = words_deck self ++ [note] /\ text_note 5 note /\
    idioms_deck self' = idioms_deck self ++ idiom_notes /\
    length idiom_notes = length idioms /\ Forall (text_note 3) idiom_notes /\
    phrasal_deck self' = phrasal_deck self ++ phrasal_notes /\
    length phrasal_notes = length phrasal_verbs /\
    Forall (text_note 2) phrasal_notes /\
    valid_words self' = valid_words self /\
    (media_files self' = media_files self \/
     exists name, media_files self' = media_files self ++ [media_path name]) /\
    (entry = PDict [] ->
     note = [PStr []; PStr []; PStr []; PStr []; PStr []] /\
     media_files self' = media_files self).
Proof.
  intros H.
  assert (Hcases : entry = PDict [] \/ is_entry entry = true).
  { destruct entry as [| | | | |[|x l]]; auto. }
  clear H. destruct Hcases as [->|He].
  { exists (add_word_note [PStr []; PStr []; PStr []; PStr []; PStr []] self),
      [PStr []; PStr []; PStr []; PStr []; PStr []], [], [], [], [].
    cbn. rewrite !app_nil_r. repeat split; auto. }
  destruct (entry_parts entry He)
    as (h & p & uk & ipa & audio & ms & ids & pvs & -> & Hms & Hids & Hpvs).
  clear He.
  set (us := PDict [(lit "ipa", PStr ipa); (lit "audio", PStr audio)]).
  set (pr := PDict [(lit "uk", uk); (lit "us", us)]).
  set (entry := PDict _).
  assert (G1 : get entry "pronunciations" (PDict []) = Done pr) by reflexivity.
  assert (G2 : get pr "us" (PDict []) = Done us) by reflexivity.
  assert (G3 : get us "audio" PNone = Done (PStr audio)) by reflexivity.
  assert (G4 : get entry "headword" (PStr []) = Done (PStr h)) by reflexivity.
  assert (G5 : get entry "part_of_speech" (PStr []) = Done (PStr p))
    by reflexivity.
  assert (G6 : get entry "meanings" (PList []) = Done (PList ms))
    by reflexivity.
  assert (G7 : get us "ipa" (PStr []) = Done (PStr ipa)) by reflexivity.
  assert (G8 : get entry "idioms" (PList []) = Done (PList ids)) by reflexivity.
  assert (G9 : get entry "phrasal_verbs" (PList []) = Done (PList pvs))
    by reflexivity.
  assert (Hnot : entry <> PDict []) by discriminate.
  clearbody entry pr us.
  unfold Anki._process_entry, Anki._process_main_entry.
  rewrite G1. cbn [and_then]. rewrite G2. cbn [and_then]. rewrite G3.
  cbn [and_then].
  pose proof (safe_download_media self (PStr audio)) as Hdl.
  destruct (_safe_download self (PStr audio)) as [self1 us_audio].
  destruct Hdl as (Hw1 & Hi1 & Hp1 & Hv1 & Hm1).
  rewrite G4, G5, G6, G7, G8, G9. cbn [and_then].
  destruct (format_meanings_senses ms Hms) as [html ->]. cbn [and_then].
  set (note := [PStr h; PStr p; PStr html; PStr ipa; PStr _]).
  unfold Anki._process_idioms, Anki._process_phrasal_verbs. cbn [iterate].
  destruct (add_notes_ok idiom_note add_idiom_note (text_note 3) ids
              (add_word_note note self1)) as (inotes & -> & Hilen & Hiall).
  { intros item Hitem. apply idiom_note_ok.
    rewrite forallb_forall in Hids. exact (Hids item Hitem). }
  set (self2 := List.fold_left _ inotes _).
  destruct (add_notes_ok phrasal_note add_phrasal_note (text_note 2) pvs self2)
    as (pnotes & -> & Hplen & Hpall).
  { intros item Hitem. apply phrasal_note_ok.
    rewrite forallb_forall in Hpvs. exact (Hpvs item Hitem). }
  destruct (add_idiom_notes inotes (add_word_note note self1))
    as (Hi2 & Hw2 & Hp2 & Hm2 & Hv2).
  fold self2 in Hi2, Hw2, Hp2, Hm2, Hv2.
  destruct (add_phrasal_notes pnotes self2) as (Hp3 & Hw3 & Hi3 & Hm3 & Hv3).
  eexists _, note, ids, pvs, inotes, pnotes.
  split; [reflexivity|]. split; [reflexivity|]. split; [reflexivity|].
  rewrite Hw3, Hw2, Hi3, Hi2, Hp3, Hp2, Hv3, Hv2, Hm3, Hm2.
  cbn [words_deck idioms_deck phrasal_deck valid_words media_files add_word_note].
  rewrite Hw1, Hi1, Hp1, Hv1.
  split; [reflexivity|]. split; [split; reflexivity|].
  split; [reflexivity|]. split; [exact Hilen|]. split; [exact Hiall|].
  split; [reflexivity|]. split; [exact Hplen|]. split; [exact Hpall|].
  split; [reflexivity|]. split; [|intros Hx; destruct (Hnot Hx)].
  destruct Hm1 as [[-> _]|(_ & -> & _)]; eauto.
Qed.

(** A word that [_process_word] had to fetch, and found, is counted as a
    valid word, and every one of its entries goes through [_process_entry]
    without an exception, whatever the pages held and whatever the download
    of the audio does. An entry adds one word note of five text fields, one
    idiom note of three text fields for each of its idioms, one phrasal-verb
    note of two text fields for each of its phrasal verbs, and at most one
    media file. The empty dict of an entry whose processing failed adds a
    word note whose five fields are all empty. *)
Theorem scraped_word_accepted (w w' : Oald.world) (gen gen' : AnkiGenerator)
    (word_str : pystr) (v : pyval) :
  Oald._try_load_cached_data w (Oald.__init__ word_str)
    = Ok (Oald.__init__ word_str, false) ->
  _process_word w gen word_str = (w', gen', Some v) ->
  valid_words gen' = S (valid_words gen) /\
  exists es,
    v = PList es /\ es <> [] /\
    forall self entry,
      In entry es ->
      exists self' note idioms phrasal_verbs idiom_notes phrasal_notes,
        _process_entry self entry = (self', Done tt) /\
        get entry "idioms" (PList []) = Done (PList idioms) /\
        get entry "phrasal_verbs" (PList []) = Done (PList phrasal_verbs) /\
        words_deck self' = words_deck self ++ [note] /\ text_note 5 note /\
        idioms_deck self' = idioms_deck self ++ idiom_notes /\
        length idiom_notes = length idioms /\
        Forall (text_note 3) idiom_notes /\
        phrasal_deck self' = phrasal_deck self ++ phrasal_notes /\
        length phrasal_notes = length phrasal_verbs /\
        Forall (text_note 2) phrasal_notes /\
        valid_words self' = valid_words self /\
        (media_files self' = media_files self \/
         exists name, media_files self' = media_files self ++ [media_path name]) /\
        (entry = PDict [] ->
         note = [PStr []; PStr []; PStr []; PStr []; PStr []] /\
         media_files self' = media_files self).
Proof.
  intros Hmiss. unfold Anki._process_word.
  destruct (Oald._get_cache_path w (Oald.__init__ word_str)) as [path|e] eqn:Hp.
  2:{ unfold Oald._try_load_cached_data in Hmiss. rewrite Hp in Hmiss.
      discriminate Hmiss. }
  destruct (Oald.fetch_word (Oald.net w) (Oald.__init__ word_str))
    as [[log word'] r] eqn:Hf.
  pose proof (OaldFacts.initialize_miss w _ path log word' r Hp Hmiss Hf) as Hi.
  destruct r as [[]|e].
  2:{ rewrite Hi. discriminate. }
  destruct Hi as (w2 & _ & ->). intros [= <- <- <-].
  split; [reflexivity|].
  destruct (OaldShapeFacts.fetch_word_pages _ _ _ _ Hf)
    as (results & _ & Hne & Hes).
  eexists. split; [exact Hes|]. split.
  { intros Hnil. apply List.map_eq_nil in Hnil. exact (Hne Hnil). }
  intros self entry Hin. apply scraped_entry_notes.
  apply in_map_iff in Hin as (soup & <- & Hin).
  apply OaldShapeFacts.process_entry_shape.
  exact (OaldShapeFacts.valid_pages_valid results soup Hin).
Qed.

Lemma dict_get_set_other k k' v d :
  k <> k' -> dict_get k (dict_set k' v d) = dict_get k d.
Proof.
  intros Hne. induction d as [|[k0 v0] d IH]; cbn.
  - rewrite bool_decide_eq_false_2 by congruence. reflexivity.
  - case_bool_decide as H0; cbn.
    + subst k0. rewrite !bool_decide_eq_false_2 by congruence. reflexivity.
    + case_bool_decide; [reflexivity|exact IH].
Qed.

Lemma format_meaning_level pairs l l' :
  format_meaning (PDict (dict_set (lit "level") l pairs))
  = format_meaning (PDict (dict_set (lit "level") l' pairs)).
Proof.
  unfold Anki.format_meaning, get.
  rewrite !(dict_get_set_other (lit "definition") (lit "level"))
    by (vm_compute; discriminate).
  rewrite !(dict_get_set_other (lit "examples") (lit "level"))
    by (vm_compute; discriminate).
  reflexivity.
Qed.

(** The level of a meaning never reaches a word card: [_format_meanings]
    gives the same text for two lists of meanings that differ only in
    what their [level] keys hold. *)
Theorem word_card_omits_level (ms ms' : list pyval) :
  Forall2 (fun m m' => exists pairs l l',
             m = PDict (dict_set (lit "level") l pairs) /\
             m' = PDict (dict_set (lit "level") l' pairs)) ms ms' ->
  _format_meanings (PList ms) = _format_meanings (PList ms').
Proof.
  intros H. unfold Anki._format_meanings. cbn [iterate and_then].
  assert (E : map_outcome format_meaning ms = map_outcome format_meaning ms').
  { induction H as [|m m' ms ms' (pairs & l & l' & -> & ->) _ IH];
      cbn [map_outcome]; [reflexivity|].
    rewrite (format_meaning_level pairs l l'), IH. reflexivity. }
  rewrite E. reflexivity.
Qed.

End Runtime.

Lemma scraped_word_accepted_witness :
  exists w' gen' v self',
    _process_word
      (Samples.cold (Samples.serve (Oald.Reply 200 (Ok Samples.good_page))
                       (Oald.Reply 200 (Ok Samples.bad_page))) Oald.no_faults)
      empty_generator (lit "run") = (w', gen', Some v) /\
    valid_words gen' = 1%nat /\
    _process_entry toy_repr toy_truth toy_path toy_download empty_generator
      (PDict []) = (self', Done tt) /\
    words_deck self' = [[PStr []; PStr []; PStr []; PStr []; PStr []]].
Proof.
  pose (w := Samples.cold
               (Samples.serve (Oald.Reply 200 (Ok Samples.good_page))
                  (Oald.Reply 200 (Ok Samples.bad_page))) Oald.no_faults).
  pose (res := _process_word w empty_generator (lit "run")).
  pose (v := default PNone (snd res)).
  assert (E : _process_word w empty_generator (lit "run")
              = (fst (fst res), snd (fst res), Some v)).
  { transitivity (fst (fst res), snd (fst res), snd res).
    - unfold res. destruct (_process_word _ _ _) as [[? ?] ?]. reflexivity.
    - apply (f_equal (pair _)). vm_compute. reflexivity. }
  assert (Hmiss : Oald._try_load_cached_data w (Oald.__init__ (lit "run"))
                  = Ok (Oald.__init__ (lit "run"), false))
    by (vm_compute; reflexivity).
  destruct (scraped_word_accepted toy_repr toy_truth toy_path toy_download
              w (fst (fst res)) empty_generator (snd (fst res)) (lit "run") v
              Hmiss E) as (Hvalid & es & Hv & _ & Hall).
  assert (Hv0 : v = PList [ snd (Oald._process_entry (Oald.net w)
                                      Samples.good_page); PDict [] ])
    by (vm_compute; reflexivity).
  assert (Hin : In (PDict []) es).
  { rewrite Hv in Hv0. injection Hv0 as ->. right. left. reflexivity. }
  destruct (Hall empty_generator (PDict []) Hin)
    as (self' & note & ids & pvs & inotes & pnotes & Hrun & _ & _ & Hwords
        & _ & _ & _ & _ & _ & _ & _ & _ & _ & Hblank).
  exists (fst (fst res)), (snd (fst res)), v, self'.
  split; [exact E|]. split; [exact Hvalid|]. split; [exact Hrun|].
  rewrite Hwords, (proj1 (Hblank eq_refl)). reflexivity.
Defined.

Lemma word_card_omits_level_witness :
  _format_meanings toy_repr toy_truth
    (PList [PDict [(lit "definition", PStr (lit "to move fast"));
                   (lit "level", PStr (lit "A1"))]])
  = _format_meanings toy_repr toy_truth
      (PList [PDict [(lit "definition", PStr (lit "to move fast"));
                     (lit "level", PStr [])]]) /\
  _format_phrasal_definitions toy_repr toy_truth
    (PList [PDict [(lit "definition", PStr (lit "to move fast"));
                   (lit "level", PStr (lit "A1"))]])
  <> _format_phrasal_definitions toy_repr toy_truth
       (PList [PDict [(lit "definition", PStr (lit "to move fast"));
                      (lit "level", PStr [])]]).
Proof.
  split; [|vm_compute; discriminate].
  apply (word_card_omits_level toy_repr toy_truth).
  constructor; [|constructor].
  exists [(lit "definition", PStr (lit "to move fast")); (lit "level", PNone)],
    (PStr (lit "A1")), (PStr []).
  split; vm_compute; reflexivity.
Defined.

End AnkiFacts.
